(** * RPGAgentArena: credential pool, resilient call layer, policy memory
      and prompt evolution, embedded from the Python sources.

    Conventions of the embedding.
    - A Python [float] is a rational [Q].  The modules [KeyManager],
      [LLMClient], [Memory] and [Controller] compute on them exactly, and
      [PlatformUtils] uses the reals [R] with an exact square root; what is
      proved there is comparisons, orderings, frames and counts, and sums of
      integers.
    - Where the value of a float matters, the operations are rounded: in
      [KeyManagerRounded], [ControllerRounded] and [PlatformUtilsRounded]
      every float operation is followed by a rounding [rnd], a parameter of
      the section.  [Binary64.round] is round-to-nearest-even on 53 bits,
      [Binary64.sqrt64] the correctly rounded square root; with them the
      definitions compute what the interpreter prints.  [Binary64.exact] is
      no rounding at all and gives back the exact modules.  NaN, infinities
      and overflow are outside the model; [float("inf")] is a constructor of
      its own.
    - [time.time()] is an explicit argument [now] in the exact modules; in
      [KeyManagerRounded] it is a function [time : nat -> Q] of the number of
      readings made so far, so that every reading may differ from the one
      before.
    - A [raise] is a value of a sum type; a method that mutates [self]
      returns the new state.  An exception that no handler of [chat_full]
      catches is an outcome of its own.
    - [math.sqrt], [math.log], [random.uniform], the HTTP transport and the
      model's answers are parameters of the sections that use them; the
      theorems hold for every choice of them.  So are, in
      [PlatformUtilsRounded], [x ** 0.5] and the builtin [sum] on floats,
      which adds from the left up to CPython 3.11 and compensates the
      rounding errors from 3.12 on.  [hashlib.md5] is a parameter
      in [PlatformUtils] and the function of RFC 1321 in
      [PlatformUtilsRounded].
    - A [str] is a string of code points below 256. *)

From Stdlib Require Import QArith Qminmax Qpower Qabs ZArith Lia Reals Psatz.
From Stdlib Require Import Ascii String.
From stdpp Require Import gmap strings list fin_maps pretty.

(** ** Python's [max(iterable, key=...)]: the first element whose key is
       maximal.  [gt a b] is the test [a > b] on keys. *)

Section PyMax.
Context {A K : Type} (gt : K -> K -> bool) (key : A -> K).

Fixpoint max_from (best : A) (l : list A) : A :=
  match l with
  | [] => best
  | x :: l' => max_from (if gt (key x) (key best) then x else best) l'
  end.

Definition py_max (l : list A) : option A :=
  match l with
  | [] => None
  | x :: l' => Some (max_from x l')
  end.

(** [first_max lt l r]: [r] occurs in [l], everything before it has a
    strictly smaller key and nothing after it has a strictly larger one. *)
Definition first_max (lt : K -> K -> Prop) (l : list A) (r : A) : Prop :=
  exists l1 l2, l = l1 ++ r :: l2
    /\ (forall x, In x l1 -> lt (key x) (key r))
    /\ (forall x, In x l2 -> ~ lt (key r) (key x)).

Section Order.
Variable lt : K -> K -> Prop.
Hypothesis gt_lt : forall a b, gt a b = true <-> lt b a.
Hypothesis lt_trans : forall a b c, lt a b -> lt b c -> lt a c.
Hypothesis nlt_lt_trans : forall a b c, ~ lt b a -> lt b c -> lt a c.

Lemma max_from_first_max (l : list A) :
  forall l1 best l2,
    (forall x, In x l1 -> lt (key x) (key best)) ->
    (forall x, In x l2 -> ~ lt (key best) (key x)) ->
    first_max lt (l1 ++ best :: l2 ++ l) (max_from best l).
Proof.
  induction l as [|x l IH]; intros l1 best l2 H1 H2; simpl.
  - exists l1, l2. rewrite app_nil_r. auto.
  - destruct (gt (key x) (key best)) eqn:E.
    + apply gt_lt in E.
      replace (l1 ++ best :: l2 ++ x :: l)
        with ((l1 ++ best :: l2) ++ x :: [] ++ l)
        by (rewrite <- app_assoc; reflexivity).
      apply IH.
      * intros y Hy. apply in_app_or in Hy. destruct Hy as [Hy|[Hy|Hy]].
        -- eapply lt_trans; eauto.
        -- subst y. exact E.
        -- eapply nlt_lt_trans; eauto.
      * intros y [].
    + replace (l1 ++ best :: l2 ++ x :: l)
        with (l1 ++ best :: (l2 ++ [x]) ++ l)
        by (rewrite <- app_assoc; reflexivity).
      apply IH; auto.
      intros y Hy. apply in_app_or in Hy. destruct Hy as [Hy|[Hy|[]]].
      * auto.
      * subst y. intro Hlt. apply gt_lt in Hlt. congruence.
Qed.

Lemma py_max_first_max (x : A) (l : list A) :
  exists r, py_max (x :: l) = Some r /\ first_max lt (x :: l) r.
Proof.
  exists (max_from x l). split; [reflexivity|].
  apply (max_from_first_max l [] x []); intros y [].
Qed.
End Order.

Lemma max_from_In (l : list A) :
  forall best, In (max_from best l) (best :: l).
Proof.
  induction l as [|x l IH]; intros best; simpl.
  - auto.
  - specialize (IH (if gt (key x) (key best) then x else best)).
    destruct IH as [IH|IH]; [|auto].
    destruct (gt (key x) (key best)); auto.
Qed.
End PyMax.

(** Strict comparison of rationals as a boolean: [Qlt_bool a b] is [a < b]. *)
Definition Qlt_bool (a b : Q) : bool := negb (Qle_bool b a).

Lemma Qlt_bool_iff (a b : Q) : Qlt_bool a b = true <-> (a < b)%Q.
Proof.
  unfold Qlt_bool. rewrite negb_true_iff.
  split.
  - intros H. apply Qnot_le_lt. intro Hle. apply Qle_bool_iff in Hle. congruence.
  - intros H. destruct (Qle_bool b a) eqn:E; [|reflexivity].
    apply Qle_bool_iff in E. exfalso. eapply Qlt_not_le; eauto.
Qed.

(** The test [a > b]. *)
Definition Qgt_bool (a b : Q) : bool := Qlt_bool b a.



(** ** Python [str] operations.  A character is a code point below 256. *)

Module PyStr.

(** [c.isspace()] on that range: TAB..CR, FS..US, SPACE, NEL and NBSP. *)
Definition is_space (c : ascii) : bool :=
  let n := nat_of_ascii c in
  ((9 <=? n) && (n <=? 13)) || ((28 <=? n) && (n <=? 32))
  || (n =? 133) || (n =? 160).

Fixpoint lstrip (s : string) : string :=
  match s with
  | EmptyString => EmptyString
  | String c s' => if is_space c then lstrip s' else s
  end.

Fixpoint rstrip (s : string) : string :=
  match s with
  | EmptyString => EmptyString
  | String c s' =>
      match rstrip s' with
      | EmptyString => if is_space c then EmptyString else String c EmptyString
      | r => String c r
      end
  end.

(** [s.strip()] *)
Definition strip (s : string) : string := rstrip (lstrip s).

(** [s.split()]: maximal runs of non-whitespace characters, in order.
    [cur] holds the run being read, last character first. *)
Fixpoint split_from (cur : list ascii) (s : string) : list string :=
  match s with
  | EmptyString =>
      match cur with
      | [] => []
      | _ => [string_of_list_ascii (rev cur)]
      end
  | String c s' =>
      if is_space c then
        match cur with
        | [] => split_from [] s'
        | _ => string_of_list_ascii (rev cur) :: split_from [] s'
        end
      else split_from (c :: cur) s'
  end.

Definition split (s : string) : list string := split_from [] s.

(** [c.lower()] for one character: A..Z and the Latin-1 capitals. *)
Definition lower_char (c : ascii) : ascii :=
  let n := nat_of_ascii c in
  if ((65 <=? n) && (n <=? 90))
     || ((192 <=? n) && (n <=? 222) && negb (n =? 215))
  then ascii_of_nat (n + 32) else c.

Fixpoint lower (s : string) : string :=
  match s with
  | EmptyString => EmptyString
  | String c s' => String (lower_char c) (lower s')
  end.

Definition newline : string := String (ascii_of_nat 10) EmptyString.

(** Every character of [s] is whitespace (so also for the empty string). *)
Fixpoint all_space (s : string) : bool :=
  match s with
  | EmptyString => true
  | String c s' => is_space c && all_space s'
  end.

(** [sep.join(parts)] *)
Definition join (sep : string) (parts : list string) : string :=
  String.concat sep parts.

Example strip_example : strip "  ab c  " = "ab c".
Proof. reflexivity. Qed.

Example split_example : split "  Attack the  Orc " = ["Attack"; "the"; "Orc"].
Proof. reflexivity. Qed.

Example lower_example : lower "Attack The ORC" = "attack the orc".
Proof. reflexivity. Qed.

Lemma split_from_nil (s : string) :
  forall cur, split_from cur s = [] <-> cur = [] /\ all_space s = true.
Proof.
  induction s as [|c s IH]; intros cur; simpl.
  - destruct cur; split; intros H; try tauto; try discriminate.
    destruct H as [H _]. discriminate.
  - destruct (is_space c); simpl.
    + destruct cur as [|x cur].
      * rewrite IH. tauto.
      * split; [discriminate|]. intros [H _]. discriminate.
    + rewrite IH. split; [intros [H _]; discriminate|intros [_ H]; discriminate].
Qed.

Lemma split_nil_iff (s : string) : split s = [] <-> all_space s = true.
Proof. unfold split. rewrite split_from_nil. tauto. Qed.

Lemma is_space_lower_char (c : ascii) : is_space (lower_char c) = is_space c.
Proof.
  destruct c as [b0 b1 b2 b3 b4 b5 b6 b7].
  destruct b0, b1, b2, b3, b4, b5, b6, b7; reflexivity.
Qed.

Lemma all_space_lower (s : string) : all_space (lower s) = all_space s.
Proof.
  induction s as [|c s IH]; simpl; [reflexivity|].
  rewrite is_space_lower_char, IH. reflexivity.
Qed.

End PyStr.


(** * core/key_manager.py *)

Module KeyManager.
Local Open Scope Q_scope.

Record KeyRecord := mkKeyRecord {
  key : string;
  provider : string;
  alias : string;
  monthly_budget_usd : Q;
  cost_per_1k_input : Q;
  cost_per_1k_output : Q;
  tokens_in : Z;
  tokens_out : Z;
  errors_429 : Z;
  errors_5xx : Z;
  last_used : Q;
  cooldown_until : Q;
  active : bool
}.

(** Field updates ([self.f = v]). *)
Definition set_tokens (ti to : Z) (r : KeyRecord) : KeyRecord :=
  mkKeyRecord (key r) (provider r) (alias r) (monthly_budget_usd r)
    (cost_per_1k_input r) (cost_per_1k_output r) ti to
    (errors_429 r) (errors_5xx r) (last_used r) (cooldown_until r) (active r).

Definition set_errors_429 (e : Z) (r : KeyRecord) : KeyRecord :=
  mkKeyRecord (key r) (provider r) (alias r) (monthly_budget_usd r)
    (cost_per_1k_input r) (cost_per_1k_output r) (tokens_in r) (tokens_out r)
    e (errors_5xx r) (last_used r) (cooldown_until r) (active r).

Definition set_errors_5xx (e : Z) (r : KeyRecord) : KeyRecord :=
  mkKeyRecord (key r) (provider r) (alias r) (monthly_budget_usd r)
    (cost_per_1k_input r) (cost_per_1k_output r) (tokens_in r) (tokens_out r)
    (errors_429 r) e (last_used r) (cooldown_until r) (active r).

Definition set_last_used (t : Q) (r : KeyRecord) : KeyRecord :=
  mkKeyRecord (key r) (provider r) (alias r) (monthly_budget_usd r)
    (cost_per_1k_input r) (cost_per_1k_output r) (tokens_in r) (tokens_out r)
    (errors_429 r) (errors_5xx r) t (cooldown_until r) (active r).

Definition set_cooldown_until (t : Q) (r : KeyRecord) : KeyRecord :=
  mkKeyRecord (key r) (provider r) (alias r) (monthly_budget_usd r)
    (cost_per_1k_input r) (cost_per_1k_output r) (tokens_in r) (tokens_out r)
    (errors_429 r) (errors_5xx r) (last_used r) t (active r).

Definition estimated_cost_usd (self : KeyRecord) : Q :=
  inject_Z (tokens_in self) / 1000 * cost_per_1k_input self
  + inject_Z (tokens_out self) / 1000 * cost_per_1k_output self.

Definition budget_remaining (self : KeyRecord) : Q :=
  Qmax 0 (monthly_budget_usd self - estimated_cost_usd self).

Definition is_available (now : Q) (self : KeyRecord) : bool :=
  active self
  && Qle_bool (cooldown_until self) now
  && Qlt_bool (1 # 1000) (budget_remaining self).

Definition health_score (now : Q) (self : KeyRecord) : Q :=
  let error_penalty :=
    inject_Z (errors_429 self * 2 + errors_5xx self)%Z * (5 # 100) in
  let budget_factor :=
    Qmin 1 (budget_remaining self / Qmax (1 # 1000) (monthly_budget_usd self)) in
  let recency_boost :=
    if Qeq_bool (last_used self) 0 then 0
    else Qmin (5 # 100) (1 / Qmax 1 (now - last_used self)) in
  Qmax 0 (budget_factor - error_penalty + recency_boost).

Definition record_usage (now : Q) (ti to : Z) (self : KeyRecord) : KeyRecord :=
  set_last_used now
    (set_tokens (tokens_in self + ti)%Z (tokens_out self + to)%Z self).

(** [min(300.0, 30.0 * (2 ** min(errors_429, 4)))], on the counter as
    already incremented. *)
Definition backoff (errors : Z) : Q :=
  Qmin 300 (30 * 2 ^ Z.min errors 4).

Definition record_error (now : Q) (status : Z) (self : KeyRecord) : KeyRecord :=
  if ((status =? 429) || (status =? 529))%Z then
    let self1 := set_errors_429 (errors_429 self + 1)%Z self in
    set_cooldown_until (now + backoff (errors_429 self1)) self1
  else if (500 <=? status)%Z then
    let self1 := set_errors_5xx (errors_5xx self + 1)%Z self in
    set_cooldown_until (now + 15) self1
  else self.

Definition record_success (self : KeyRecord) : KeyRecord :=
  set_errors_429 (Z.max 0 (errors_429 self - 1))%Z self.

(** ** class KeyManager: the state is the list [_keys]. *)

Inductive AcquireError :=
| Exhausted (wait_s : Q)      (* "All API keys are rate-limited or over budget.
                                 Shortest cooldown: ...": [max(0, wait_s)],
                                 before it is printed to whole seconds *)
| NoneAvailable.              (* "No API keys are available ..." *)

(** [min(xs)] of a non-empty list of floats. *)
Definition py_min_Q (x : Q) (xs : list Q) : Q := fold_left Qmin xs x.

Definition active_cooldowns (now : Q) (keys : list KeyRecord) : list Q :=
  map cooldown_until
    (List.filter (fun k => active k && Qlt_bool now (cooldown_until k)) keys).

(** [acquire] reads the pool and mutates nothing: the pool is returned as it
    was received, next to the outcome. *)
Definition acquire (now : Q) (keys : list KeyRecord)
  : (AcquireError + KeyRecord) * list KeyRecord :=
  let available := List.filter (is_available now) keys in
  match available with
  | [] =>
      match active_cooldowns now keys with
      | c :: cs =>
          let wait_s := py_min_Q c cs - now in
          (inl (Exhausted (Qmax 0 wait_s)), keys)
      | [] => (inl NoneAvailable, keys)
      end
  | k :: ks => (inr (max_from Qgt_bool (health_score now) k ks), keys)
  end.

(** The [for k in self._keys: if k.alias == alias: ...; break] loop. *)
Fixpoint update_first (a : string) (f : KeyRecord -> KeyRecord)
  (keys : list KeyRecord) : list KeyRecord :=
  match keys with
  | [] => []
  | k :: ks =>
      if String.eqb (alias k) a then f k :: ks
      else k :: update_first a f ks
  end.

Definition report_usage (now : Q) (a : string) (ti to : Z)
  (keys : list KeyRecord) : list KeyRecord :=
  update_first a (fun k => record_success (record_usage now ti to k)) keys.

Definition report_error (now : Q) (a : string) (status : Z)
  (keys : list KeyRecord) : list KeyRecord :=
  update_first a (record_error now status) keys.


(** [cooling now k]: an active credential whose cooldown has not elapsed. *)
Definition cooling (now : Q) (k : KeyRecord) : Prop :=
  active k = true /\ now < cooldown_until k.

(** Consecutive [record_error(status)] calls on one record, made at the
    times [times]: per call, the remaining cooldown [cooldown_until - now]
    as it stands right after the call. *)
Fixpoint cooldown_trace (status : Z) (times : list Q) (r : KeyRecord)
  : list Q :=
  match times with
  | [] => []
  | now :: ts =>
      let r' := record_error now status r in
      (cooldown_until r' - now) :: cooldown_trace status ts r'
  end.

(** A record as [_load_from_env] builds it (dataclass defaults). *)
Definition fresh_key (k a : string) (budget : Q) : KeyRecord :=
  mkKeyRecord k "anthropic" a budget (15 # 1000) (75 # 1000) 0 0 0 0 0 0 true.

(** ** Properties of a single credential record *)

Lemma is_available_iff (now : Q) (k : KeyRecord) :
  is_available now k = true
  <-> active k = true /\ cooldown_until k <= now
      /\ 1 # 1000 < budget_remaining k.
Proof.
  unfold is_available. rewrite !andb_true_iff, Qle_bool_iff, Qlt_bool_iff.
  tauto.
Qed.

Lemma budget_remaining_nonneg (r : KeyRecord) : 0 <= budget_remaining r.
Proof. apply Q.le_max_l. Qed.

Lemma budget_denominator_pos (r : KeyRecord) :
  0 < Qmax (1 # 1000) (monthly_budget_usd r).
Proof.
  eapply Qlt_le_trans; [|apply Q.le_max_l]. reflexivity.
Qed.

Lemma Qdiv_le_compat_r (a b c : Q) : 0 < c -> a <= b -> a / c <= b / c.
Proof.
  intros Hc Hab. unfold Qdiv. apply Qmult_le_compat_r; [exact Hab|].
  apply Qlt_le_weak, Qinv_lt_0_compat, Hc.
Qed.

Lemma pow2_le_compat (n m : Z) : (n <= m)%Z -> 2 ^ n <= 2 ^ m.
Proof.
  intros H. apply Qpower_le_compat_l; [exact H|]. discriminate.
Qed.

Lemma backoff_mono (n m : Z) : (n <= m)%Z -> backoff n <= backoff m.
Proof.
  intros H. unfold backoff. apply Q.min_le_compat_l.
  apply Qmult_le_l; [reflexivity|].
  apply pow2_le_compat. lia.
Qed.

Lemma backoff_le_300 (n : Z) : backoff n <= 300.
Proof. unfold backoff. apply Q.le_min_l. Qed.

Lemma record_error_429_fields (now : Q) (status : Z) (r : KeyRecord) :
  status = 429%Z \/ status = 529%Z ->
  record_error now status r
  = set_cooldown_until (now + backoff (errors_429 r + 1))
      (set_errors_429 (errors_429 r + 1) r).
Proof.
  intros [->| ->]; reflexivity.
Qed.

Example cooldown_trace_fresh :
  map Qred (cooldown_trace 429 [1000; 1001; 1002; 1003; 1004]
              (fresh_key "sk" "primary" 10))
  = [60; 120; 240; 300; 300].
Proof. reflexivity. Qed.

(** C5. [record_error] with status 429 or 529 adds one to the rate-limit
    counter and sets [cooldown_until] to
    [now + min(300, 30 * 2^min(errors_429, 4))], the counter being read after
    the increment.  Over four consecutive [record_error(429)] calls on one
    record, whatever its starting counter and the times of the calls, the
    remaining cooldowns [cooldown_until - now] are non-decreasing and none
    exceeds 300 seconds. *)
Theorem record_error_429_backoff :
  (forall (now : Q) (status : Z) (r : KeyRecord),
      status = 429%Z \/ status = 529%Z ->
      let r' := record_error now status r in
      errors_429 r' = (errors_429 r + 1)%Z
      /\ cooldown_until r' == now + Qmin 300 (30 * 2 ^ Z.min (errors_429 r') 4)
      /\ errors_5xx r' = errors_5xx r)
  /\ (forall (t1 t2 t3 t4 : Q) (r : KeyRecord),
      exists d1 d2 d3 d4,
        cooldown_trace 429 [t1; t2; t3; t4] r = [d1; d2; d3; d4]
        /\ d1 <= d2 /\ d2 <= d3 /\ d3 <= d4
        /\ d1 <= 300 /\ d2 <= 300 /\ d3 <= 300 /\ d4 <= 300).
Proof.
  split.
  - intros now status r Hs r'. subst r'.
    rewrite (record_error_429_fields now status r Hs). simpl.
    split; [reflexivity|]. split; reflexivity.
  - intros t1 t2 t3 t4 r.
    do 4 eexists. split; [reflexivity|]. simpl.
    set (e := errors_429 r).
    pose proof (backoff_mono (e + 1) (e + 1 + 1) ltac:(lia)) as H12.
    pose proof (backoff_mono (e + 1 + 1) (e + 1 + 1 + 1) ltac:(lia)) as H23.
    pose proof (backoff_mono (e + 1 + 1 + 1) (e + 1 + 1 + 1 + 1) ltac:(lia)) as H34.
    pose proof (backoff_le_300 (e + 1 + 1 + 1 + 1)) as H4.
    repeat split; lra.
Qed.

Lemma health_score_nonneg (now : Q) (r : KeyRecord) : 0 <= health_score now r.
Proof. unfold health_score. apply Q.le_max_l. Qed.

Lemma health_score_errors_429_mono (now : Q) (r : KeyRecord) (e : Z) :
  (errors_429 r <= e)%Z ->
  health_score now (set_errors_429 e r) <= health_score now r.
Proof.
  intros He. unfold health_score, budget_remaining, estimated_cost_usd. simpl.
  apply Q.max_le_compat_l.
  assert (H : inject_Z (errors_429 r * 2 + errors_5xx r)
              <= inject_Z (e * 2 + errors_5xx r))
    by (rewrite <- Zle_Qle; lia).
  lra.
Qed.

Lemma health_score_errors_5xx_mono (now : Q) (r : KeyRecord) (e : Z) :
  (errors_5xx r <= e)%Z ->
  health_score now (set_errors_5xx e r) <= health_score now r.
Proof.
  intros He. unfold health_score, budget_remaining, estimated_cost_usd. simpl.
  apply Q.max_le_compat_l.
  assert (H : inject_Z (errors_429 r * 2 + errors_5xx r)
              <= inject_Z (errors_429 r * 2 + e))
    by (rewrite <- Zle_Qle; lia).
  lra.
Qed.

Lemma health_score_budget_mono (now : Q) (r1 r2 : KeyRecord) :
  monthly_budget_usd r1 == monthly_budget_usd r2 ->
  errors_429 r1 = errors_429 r2 ->
  errors_5xx r1 = errors_5xx r2 ->
  last_used r1 == last_used r2 ->
  budget_remaining r1 <= budget_remaining r2 ->
  health_score now r1 <= health_score now r2.
Proof.
  intros Hm H4 H5 Hl Hb. unfold health_score.
  rewrite H4, H5, Hl, Hm.
  apply Q.max_le_compat_l.
  assert (Hf : Qmin 1 (budget_remaining r1 / Qmax (1 # 1000) (monthly_budget_usd r2))
               <= Qmin 1 (budget_remaining r2 / Qmax (1 # 1000) (monthly_budget_usd r2))).
  { apply Q.min_le_compat_l, Qdiv_le_compat_r; [|exact Hb].
    apply budget_denominator_pos. }
  destruct (Qeq_bool (last_used r2) 0); [lra|].
  rewrite Hl. lra.
Qed.

(** C6. With the clock and every other field fixed, [health_score] does not
    increase when [errors_429] or [errors_5xx] grows, does not decrease when
    [budget_remaining] grows (the records agreeing on [monthly_budget_usd],
    the error counters and [last_used]), and is never negative. *)
Theorem health_score_monotone :
  (forall (now : Q) (r : KeyRecord) (e : Z),
      (errors_429 r <= e)%Z ->
      health_score now (set_errors_429 e r) <= health_score now r)
  /\ (forall (now : Q) (r : KeyRecord) (e : Z),
      (errors_5xx r <= e)%Z ->
      health_score now (set_errors_5xx e r) <= health_score now r)
  /\ (forall (now : Q) (r1 r2 : KeyRecord),
      monthly_budget_usd r1 == monthly_budget_usd r2 ->
      errors_429 r1 = errors_429 r2 ->
      errors_5xx r1 = errors_5xx r2 ->
      last_used r1 == last_used r2 ->
      budget_remaining r1 <= budget_remaining r2 ->
      health_score now r1 <= health_score now r2)
  /\ (forall (now : Q) (r : KeyRecord), 0 <= health_score now r).
Proof.
  split; [|split; [|split]].
  - exact health_score_errors_429_mono.
  - exact health_score_errors_5xx_mono.
  - exact health_score_budget_mono.
  - exact health_score_nonneg.
Qed.

(** ** Properties of the pool *)

Lemma update_first_no_match (a : string) (f : KeyRecord -> KeyRecord)
  (keys : list KeyRecord) :
  ~ In a (map alias keys) -> update_first a f keys = keys.
Proof.
  induction keys as [|k ks IH]; simpl; intros Hn; [reflexivity|].
  destruct (String.eqb_spec (alias k) a) as [E|E].
  - exfalso. apply Hn. left. exact E.
  - rewrite IH; [reflexivity|]. intro H. apply Hn. right. exact H.
Qed.

Lemma update_first_match (a : string) (f : KeyRecord -> KeyRecord)
  (keys : list KeyRecord) :
  In a (map alias keys) ->
  exists l1 k l2,
    keys = l1 ++ k :: l2 /\ alias k = a /\ ~ In a (map alias l1)
    /\ update_first a f keys = l1 ++ f k :: l2.
Proof.
  induction keys as [|k ks IH]; simpl; intros Hin; [contradiction|].
  destruct (String.eqb_spec (alias k) a) as [E|E].
  - exists [], k, ks. simpl. auto.
  - destruct Hin as [Hin|Hin]; [contradiction|].
    destruct (IH Hin) as (l1 & k' & l2 & -> & Ha & Hn & Hu).
    exists (k :: l1), k', l2. simpl. rewrite Hu.
    repeat split; auto. intros [H|H]; auto.
Qed.

(** C9. [report_usage] and [report_error] with an alias that no record of
    the pool carries return the pool unchanged; with an alias that occurs,
    the first record carrying it is replaced by its updated version and
    every other record, before and after it, stays as it was. *)
Theorem report_frame :
  (forall (now : Q) (a : string) (ti to : Z) (keys : list KeyRecord),
      ~ In a (map alias keys) -> report_usage now a ti to keys = keys)
  /\ (forall (now : Q) (a : string) (status : Z) (keys : list KeyRecord),
      ~ In a (map alias keys) -> report_error now a status keys = keys)
  /\ (forall (now : Q) (a : string) (ti to : Z) (keys : list KeyRecord),
      In a (map alias keys) ->
      exists l1 k l2,
        keys = l1 ++ k :: l2 /\ alias k = a /\ ~ In a (map alias l1)
        /\ report_usage now a ti to keys
           = l1 ++ record_success (record_usage now ti to k) :: l2)
  /\ (forall (now : Q) (a : string) (status : Z) (keys : list KeyRecord),
      In a (map alias keys) ->
      exists l1 k l2,
        keys = l1 ++ k :: l2 /\ alias k = a /\ ~ In a (map alias l1)
        /\ report_error now a status keys
           = l1 ++ record_error now status k :: l2).
Proof.
  repeat split.
  - intros. apply update_first_no_match. assumption.
  - intros. apply update_first_no_match. assumption.
  - intros now a ti to keys H.
    apply (update_first_match a
             (fun k => record_success (record_usage now ti to k)) keys H).
  - intros now a status keys H.
    apply (update_first_match a (record_error now status) keys H).
Qed.

Lemma py_min_Q_le_init (xs : list Q) :
  forall x, py_min_Q x xs <= x.
Proof.
  unfold py_min_Q. induction xs as [|y ys IH]; intros x; simpl.
  - apply Qle_refl.
  - eapply Qle_trans; [apply IH|]. apply Q.le_min_l.
Qed.

Lemma py_min_Q_lower (xs : list Q) :
  forall x y, In y (x :: xs) -> py_min_Q x xs <= y.
Proof.
  unfold py_min_Q. induction xs as [|z zs IH]; intros x y Hin; simpl.
  - destruct Hin as [<-|[]]. apply Qle_refl.
  - destruct Hin as [<-|[<-|Hin]].
    + eapply Qle_trans; [apply (py_min_Q_le_init zs)|]. apply Q.le_min_l.
    + eapply Qle_trans; [apply (py_min_Q_le_init zs)|]. apply Q.le_min_r.
    + apply IH. right. exact Hin.
Qed.

Lemma Qgt_bool_lt (a b : Q) : Qgt_bool a b = true <-> b < a.
Proof. unfold Qgt_bool. apply Qlt_bool_iff. Qed.

Lemma acquire_pool_unchanged (now : Q) (keys : list KeyRecord) :
  snd (acquire now keys) = keys.
Proof.
  unfold acquire.
  destruct (List.filter (is_available now) keys); [|reflexivity].
  destruct (active_cooldowns now keys); reflexivity.
Qed.

Lemma update_first_id (a : string) (f : KeyRecord -> KeyRecord)
  (keys : list KeyRecord) :
  (forall k, In k keys -> f k = k) -> update_first a f keys = keys.
Proof.
  induction keys as [|k ks IH]; simpl; intros H; [reflexivity|].
  destruct (String.eqb (alias k) a).
  - rewrite H; auto.
  - rewrite IH; auto.
Qed.

(** ** Concrete pools *)

Example budget_scenario :
  let k := set_tokens 60000 0 (fresh_key "sk" "primary" 1) in
  Qred (budget_remaining k) = 1 # 10 /\ is_available 1000 k = true.
Proof. vm_compute. auto. Qed.

Example acquire_skips_cooling_key :
  let limited := record_error 1000 429 (fresh_key "sk-0" "primary" 10) in
  let pool := [limited; fresh_key "sk-1" "key_1" 10] in
  fst (acquire 1001 pool) = inr (fresh_key "sk-1" "key_1" 10)
  /\ (exists w, fst (acquire 1001 [limited]) = inl (Exhausted w)
                /\ Qred w = 59)
  /\ fst (acquire 1060 [limited]) = inr limited.
Proof.
  vm_compute. split; [reflexivity|].
  split; [eexists; split; reflexivity|reflexivity].
Qed.

Example acquire_over_budget :
  fst (acquire 1000 [set_tokens 700000 0 (fresh_key "sk" "primary" 10)])
  = inl NoneAvailable.
Proof. reflexivity. Qed.

(** ** Token accounting and recovery *)

(** The tokens charged to the pool so far: the two counters summed over its
    records. *)
Definition pool_tokens_in (keys : list KeyRecord) : Z :=
  fold_right Z.add 0%Z (map tokens_in keys).

Definition pool_tokens_out (keys : list KeyRecord) : Z :=
  fold_right Z.add 0%Z (map tokens_out keys).

Lemma update_first_at (a : string) (f : KeyRecord -> KeyRecord)
  (l1 : list KeyRecord) (k : KeyRecord) (l2 : list KeyRecord) :
  alias k = a -> ~ In a (map alias l1) ->
  update_first a f (l1 ++ k :: l2) = l1 ++ f k :: l2.
Proof.
  intros Ha. induction l1 as [|x l1 IH]; simpl; intros Hn.
  - rewrite Ha, String.eqb_refl. reflexivity.
  - destruct (String.eqb_spec (alias x) a) as [E|E].
    + exfalso. apply Hn. left. exact E.
    + rewrite IH; [reflexivity|]. intro H. apply Hn. right. exact H.
Qed.

Lemma pool_tokens_app (l1 l2 : list KeyRecord) :
  pool_tokens_in (l1 ++ l2) = (pool_tokens_in l1 + pool_tokens_in l2)%Z
  /\ pool_tokens_out (l1 ++ l2) = (pool_tokens_out l1 + pool_tokens_out l2)%Z.
Proof.
  unfold pool_tokens_in, pool_tokens_out.
  induction l1 as [|k ks [IH1 IH2]]; simpl; [split; reflexivity|].
  rewrite IH1, IH2. split; lia.
Qed.

Lemma report_usage_tokens (now : Q) (a : string) (ti to : Z)
  (keys : list KeyRecord) :
  In a (map alias keys) ->
  pool_tokens_in (report_usage now a ti to keys)
  = (pool_tokens_in keys + ti)%Z
  /\ pool_tokens_out (report_usage now a ti to keys)
     = (pool_tokens_out keys + to)%Z.
Proof.
  intros Hin. unfold report_usage.
  destruct (update_first_match a
              (fun k => record_success (record_usage now ti to k)) keys Hin)
    as (l1 & k & l2 & -> & _ & _ & ->).
  destruct (pool_tokens_app l1 (k :: l2)) as [E1 E2].
  destruct (pool_tokens_app l1
              (record_success (record_usage now ti to k) :: l2)) as [E3 E4].
  rewrite E1, E2, E3, E4. unfold pool_tokens_in, pool_tokens_out. simpl.
  split; lia.
Qed.

Lemma report_error_tokens (now : Q) (a : string) (status : Z)
  (keys : list KeyRecord) :
  map tokens_in (report_error now a status keys) = map tokens_in keys
  /\ map tokens_out (report_error now a status keys) = map tokens_out keys.
Proof.
  unfold report_error.
  assert (H : forall k, tokens_in (record_error now status k) = tokens_in k
                        /\ tokens_out (record_error now status k)
                           = tokens_out k).
  { intros k. unfold record_error.
    destruct ((status =? 429) || (status =? 529))%Z; [split; reflexivity|].
    destruct (500 <=? status)%Z; split; reflexivity. }
  split; induction keys as [|k ks IH]; simpl; try reflexivity;
    destruct (String.eqb (alias k) a); simpl;
    try rewrite IH; try rewrite (proj1 (H k)); try rewrite (proj2 (H k));
    reflexivity.
Qed.

(** X1. Token accounting of the pool.  [report_usage] adds exactly the
    reported input and output tokens to the pool's totals when a record
    carries the alias, and nothing when none does; [report_error] never
    changes a token counter. *)
Theorem report_usage_token_totals :
  (forall now a ti to keys,
      ~ In a (map alias keys) ->
      pool_tokens_in (report_usage now a ti to keys) = pool_tokens_in keys
      /\ pool_tokens_out (report_usage now a ti to keys)
         = pool_tokens_out keys)
  /\ (forall now a ti to keys,
      In a (map alias keys) ->
      pool_tokens_in (report_usage now a ti to keys)
      = (pool_tokens_in keys + ti)%Z
      /\ pool_tokens_out (report_usage now a ti to keys)
         = (pool_tokens_out keys + to)%Z)
  /\ (forall now a status keys,
      map tokens_in (report_error now a status keys) = map tokens_in keys
      /\ map tokens_out (report_error now a status keys)
         = map tokens_out keys).
Proof.
  split; [|split].
  - intros now a ti to keys Hn. unfold report_usage.
    rewrite update_first_no_match by exact Hn. split; reflexivity.
  - exact report_usage_tokens.
  - exact report_error_tokens.
Qed.

Lemma update_first_map {B : Type} (g : KeyRecord -> B) (a : string)
  (f : KeyRecord -> KeyRecord) (keys : list KeyRecord) :
  (forall k, g (f k) = g k) ->
  map g (update_first a f keys) = map g keys.
Proof.
  intros Hg. induction keys as [|k ks IH]; simpl; [reflexivity|].
  destruct (String.eqb (alias k) a); simpl.
  - rewrite Hg. reflexivity.
  - rewrite IH. reflexivity.
Qed.

Lemma update_first_Forall (P : KeyRecord -> Prop) (a : string)
  (f : KeyRecord -> KeyRecord) (keys : list KeyRecord) :
  (forall k, P k -> P (f k)) ->
  Forall P keys -> Forall P (update_first a f keys).
Proof.
  intros Hf. induction 1 as [|k ks Hk Hks IH]; simpl; [constructor|].
  destruct (String.eqb (alias k) a); constructor; auto.
Qed.

(** Both error counters are non-negative. *)
Definition counters_nonneg (k : KeyRecord) : Prop :=
  (0 <= errors_429 k)%Z /\ (0 <= errors_5xx k)%Z.

(** X2. A reported success never touches a cooldown: [report_usage] leaves
    the [cooldown_until], [active], [errors_5xx], budget, key and alias of
    every record as they were.  And no report, of usage or of an error, makes
    an error counter negative. *)
Theorem report_usage_keeps_cooldowns :
  (forall now a ti to keys,
      let keys' := report_usage now a ti to keys in
      map cooldown_until keys' = map cooldown_until keys
      /\ map active keys' = map active keys
      /\ map errors_5xx keys' = map errors_5xx keys
      /\ map monthly_budget_usd keys' = map monthly_budget_usd keys
      /\ map key keys' = map key keys
      /\ map alias keys' = map alias keys)
  /\ (forall now a ti to keys,
      Forall counters_nonneg keys ->
      Forall counters_nonneg (report_usage now a ti to keys))
  /\ (forall now a status keys,
      Forall counters_nonneg keys ->
      Forall counters_nonneg (report_error now a status keys)).
Proof.
  split; [|split].
  - intros now a ti to keys keys'. unfold keys', report_usage.
    repeat split; apply update_first_map; reflexivity.
  - intros now a ti to keys. unfold report_usage.
    apply update_first_Forall. intros k [H4 H5].
    unfold counters_nonneg. simpl. split; [lia|exact H5].
  - intros now a status keys. unfold report_error.
    apply update_first_Forall. intros k [H4 H5].
    unfold counters_nonneg, record_error.
    destruct ((status =? 429) || (status =? 529))%Z; simpl; [lia|].
    destruct (500 <=? status)%Z; simpl; lia.
Qed.

(** X3. With non-negative rates and token counts, recording usage never
    raises [budget_remaining]; and [budget_remaining] always lies between 0
    and the larger of 0 and the monthly budget. *)
Theorem record_usage_budget_mono (now : Q) (ti to : Z) (k : KeyRecord) :
  0 <= cost_per_1k_input k -> 0 <= cost_per_1k_output k ->
  (0 <= tokens_in k)%Z -> (0 <= tokens_out k)%Z ->
  (0 <= ti)%Z -> (0 <= to)%Z ->
  budget_remaining (record_usage now ti to k) <= budget_remaining k
  /\ 0 <= budget_remaining (record_usage now ti to k)
  /\ budget_remaining k <= Qmax 0 (monthly_budget_usd k).
Proof.
  intros Hci Hco Hti Hto Hi Ho.
  assert (Hq : forall z, (0 <= z)%Z -> 0 <= inject_Z z / 1000).
  { intros z Hz. apply Qle_shift_div_l; [reflexivity|].
    rewrite Qmult_0_l. unfold Qle. simpl. lia. }
  pose proof (Hq _ Hti) as Q1. pose proof (Hq _ Hto) as Q2.
  pose proof (Hq _ Hi) as Q3. pose proof (Hq _ Ho) as Q4.
  pose proof (Qmult_le_0_compat _ _ Q1 Hci) as M1.
  pose proof (Qmult_le_0_compat _ _ Q2 Hco) as M2.
  pose proof (Qmult_le_0_compat _ _ Q3 Hci) as M3.
  pose proof (Qmult_le_0_compat _ _ Q4 Hco) as M4.
  split; [|split].
  - unfold budget_remaining. apply Q.max_le_compat_l.
    unfold estimated_cost_usd. simpl. rewrite !inject_Z_plus.
    unfold Qdiv in *. lra.
  - apply budget_remaining_nonneg.
  - unfold budget_remaining. apply Q.max_le_compat_l.
    unfold estimated_cost_usd. lra.
Qed.

Lemma record_usage_budget_mono_witness :
  (0 <= 15 # 1000) /\
  budget_remaining (record_usage 1000 60000 0 (fresh_key "sk" "primary" 1))
  <= budget_remaining (fresh_key "sk" "primary" 1).
Proof.
  split; [discriminate|].
  exact (proj1 (record_usage_budget_mono 1000 60000 0
                  (fresh_key "sk" "primary" 1)
                  ltac:(discriminate) ltac:(discriminate)
                  ltac:(discriminate) ltac:(discriminate)
                  ltac:(discriminate) ltac:(discriminate))).
Defined.

Lemma acquire_inr_available (t : Q) (keys : list KeyRecord) (k : KeyRecord) :
  fst (acquire t keys) = inr k -> In k keys /\ is_available t k = true.
Proof.
  unfold acquire.
  destruct (List.filter (is_available t) keys) as [|k0 ks] eqn:E.
  - destruct (active_cooldowns t keys); discriminate.
  - simpl. intros H. injection H as <-.
    pose proof (max_from_In Qgt_bool (health_score t) ks k0) as Hin.
    rewrite <- E in Hin. apply filter_In in Hin. exact Hin.
Qed.

Lemma backoff_ge_60 (e : Z) : (1 <= e)%Z -> 60 <= backoff e.
Proof.
  intros He. eapply Qle_trans; [|apply (backoff_mono 1 e He)].
  apply Qle_bool_iff. reflexivity.
Qed.

Lemma record_error_cooldown_lower (now : Q) (status : Z) (k : KeyRecord) :
  status = 429%Z \/ status = 529%Z \/ (500 <= status)%Z ->
  (0 <= errors_429 k)%Z ->
  now + 15 <= cooldown_until (record_error now status k).
Proof.
  intros Hs He. unfold record_error.
  destruct ((status =? 429) || (status =? 529))%Z eqn:E1; simpl.
  - pose proof (backoff_ge_60 (errors_429 k + 1) ltac:(lia)). lra.
  - destruct (500 <=? status)%Z eqn:E2; simpl; [lra|].
    apply orb_false_iff in E1. destruct E1 as [E1 E1'].
    apply Z.eqb_neq in E1, E1'. apply Z.leb_gt in E2. lia.
Qed.

Lemma record_error_alias (now : Q) (status : Z) (k : KeyRecord) :
  alias (record_error now status k) = alias k.
Proof.
  unfold record_error.
  destruct ((status =? 429) || (status =? 529))%Z; [reflexivity|].
  destruct (500 <=? status)%Z; reflexivity.
Qed.

(** X4. After a retryable error (429, 529 or at least 500) is reported for
    an alias, [acquire] does not hand that alias out during the next 15
    seconds, in a pool whose aliases are pairwise distinct and whose error
    counters are not negative. *)
Theorem acquire_skips_failed_alias (now t : Q) (a : string) (status : Z)
  (keys : list KeyRecord) :
  List.NoDup (map alias keys) ->
  Forall counters_nonneg keys ->
  status = 429%Z \/ status = 529%Z \/ (500 <= status)%Z ->
  t < now + 15 ->
  forall k, fst (acquire t (report_error now a status keys)) = inr k ->
            alias k <> a.
Proof.
  intros Hnd Hcn Hs Ht k Hk Ha.
  apply acquire_inr_available in Hk. destruct Hk as [Hin Hav].
  unfold report_error in Hin.
  assert (Hal : In a (map alias keys)).
  { pose proof (in_map alias _ _ Hin) as H. rewrite Ha in H.
    rewrite (update_first_map alias a (record_error now status) keys
               (record_error_alias now status)) in H. exact H. }
  destruct (update_first_match a (record_error now status) keys Hal)
    as (l1 & k0 & l2 & E & Hk0 & Hl1 & Hu).
  rewrite Hu in Hin.
  apply in_app_or in Hin. destruct Hin as [Hin|[Hin|Hin]].
  - apply Hl1. pose proof (in_map alias _ _ Hin) as H. rewrite Ha in H.
    exact H.
  - subst k.
    assert (Hk0n : (0 <= errors_429 k0)%Z).
    { rewrite List.Forall_forall in Hcn. apply Hcn. rewrite E. apply in_elt. }
    pose proof (record_error_cooldown_lower now status k0 Hs Hk0n) as Hlow.
    apply is_available_iff in Hav. destruct Hav as (_ & Hc & _). lra.
  - rewrite E, map_app in Hnd. simpl in Hnd.
    apply NoDup_remove_2 in Hnd. apply Hnd.
    apply in_or_app. right. rewrite Hk0.
    pose proof (in_map alias _ _ Hin) as H. rewrite Ha in H. exact H.
Qed.

Lemma acquire_skips_failed_alias_witness :
  List.NoDup (map alias [fresh_key "sk-0" "primary" 10; fresh_key "sk-1" "key_1" 10])
  /\ forall k,
      fst (acquire 1001
             (report_error 1000 "primary" 429
                [fresh_key "sk-0" "primary" 10; fresh_key "sk-1" "key_1" 10]))
      = inr k ->
      alias k <> "primary"%string.
Proof.
  assert (Hnd : List.NoDup (map alias [fresh_key "sk-0" "primary" 10;
                                   fresh_key "sk-1" "key_1" 10])).
  { simpl. constructor.
    - intros [H|[]]. discriminate H.
    - constructor; [intros []|constructor]. }
  split; [exact Hnd|].
  refine (acquire_skips_failed_alias 1000 1001 "primary" 429 _ Hnd _ _ _).
  - repeat constructor; discriminate.
  - left. reflexivity.
  - reflexivity.
Defined.

(** X5. One clean call undoes one rate-limit strike on the counter, not on
    the clock: after [record_error] with 429 or 529 and then a recorded
    usage with its [record_success], a counter that was not negative is back
    to its value, while [cooldown_until] is still the one the error set,
    between 60 and 300 seconds after the error. *)
Theorem success_undoes_one_strike (now t : Q) (status ti to : Z)
  (r : KeyRecord) :
  status = 429%Z \/ status = 529%Z ->
  (0 <= errors_429 r)%Z ->
  let r' := record_success (record_usage t ti to (record_error now status r)) in
  errors_429 r' = errors_429 r
  /\ cooldown_until r' = cooldown_until (record_error now status r)
  /\ now + 60 <= cooldown_until r'
  /\ cooldown_until r' <= now + 300.
Proof.
  intros Hs He r'. subst r'.
  rewrite (record_error_429_fields now status r Hs). simpl.
  pose proof (backoff_ge_60 (errors_429 r + 1) ltac:(lia)).
  pose proof (backoff_le_300 (errors_429 r + 1)).
  repeat split; try lia; lra.
Qed.

Lemma success_undoes_one_strike_witness :
  (0 <= errors_429 (fresh_key "sk" "primary" 10))%Z
  /\ errors_429 (record_success (record_usage 1002 100 20
                   (record_error 1000 429 (fresh_key "sk" "primary" 10))))
     = errors_429 (fresh_key "sk" "primary" 10).
Proof.
  split; [discriminate|].
  exact (proj1 (success_undoes_one_strike 1000 1002 429 100 20
                  (fresh_key "sk" "primary" 10)
                  (or_introl eq_refl) ltac:(discriminate))).
Defined.

(** ** [KeyManager._load_from_env] *)

Inductive LoadError :=
| BadFloat   (* ValueError raised by [float(...)] *)
| NoKeys.    (* EnvironmentError("No API keys found. ...") *)

(** [os.environ.get(name, dflt)] *)
Definition getenv (env : gmap string string) (name dflt : string) : string :=
  default dflt (env !! name).

(** [KeyRecord(key=k, provider="anthropic", alias=a, monthly_budget_usd=...,
    cost_per_1k_input=..., cost_per_1k_output=...)] *)
Definition new_key (k a : string) (budget cost_in cost_out : Q) : KeyRecord :=
  mkKeyRecord k "anthropic" a budget cost_in cost_out 0 0 0 0 0 0 true.

Definition numbered_alias (i : nat) : string := "key_" +:+ pretty i.

Section Env.
(** [float(s)]; [None] when it raises. *)
Variable parse_float : string -> option Q.

(** One iteration of [for i in range(1, 9)], on the pool built so far and
    the set [seen]. *)
Definition load_numbered (env : gmap string string) (cost_in cost_out : Q)
  (i : nat) (st : list KeyRecord * gset string)
  : LoadError + list KeyRecord * gset string :=
  let k := PyStr.strip (getenv env ("ANTHROPIC_API_KEY_" +:+ pretty i) "") in
  match parse_float (getenv env ("KEY_" +:+ pretty i +:+ "_BUDGET_USD") "10.0") with
  | None => inl BadFloat
  | Some budget =>
      if negb (String.eqb k "") && negb (bool_decide (k ∈ st.2))
      then inr (st.1 ++ [new_key k (numbered_alias i) budget cost_in cost_out],
                {[k]} ∪ st.2)
      else inr st
  end.

Fixpoint load_loop (env : gmap string string) (cost_in cost_out : Q)
  (indices : list nat) (st : list KeyRecord * gset string)
  : LoadError + list KeyRecord * gset string :=
  match indices with
  | [] => inr st
  | i :: rest =>
      match load_numbered env cost_in cost_out i st with
      | inl e => inl e
      | inr st' => load_loop env cost_in cost_out rest st'
      end
  end.

(** The part up to the numbered keys: the two rates and the primary key. *)
Definition load_primary (env : gmap string string)
  : LoadError + (Q * Q * (list KeyRecord * gset string)) :=
  match parse_float (getenv env "COST_INPUT_PER_1K" "0.015") with
  | None => inl BadFloat
  | Some cost_in =>
      match parse_float (getenv env "COST_OUTPUT_PER_1K" "0.075") with
      | None => inl BadFloat
      | Some cost_out =>
          let primary := PyStr.strip (getenv env "ANTHROPIC_API_KEY" "") in
          if negb (String.eqb primary "") then
            match parse_float (getenv env "KEY_BUDGET_USD" "10.0") with
            | None => inl BadFloat
            | Some budget =>
                inr (cost_in, cost_out,
                     ([new_key primary "primary" budget cost_in cost_out],
                      {[primary]}))
            end
          else inr (cost_in, cost_out, ([], ∅))
      end
  end.

Definition _load_from_env (env : gmap string string)
  : LoadError + list KeyRecord :=
  match load_primary env with
  | inl e => inl e
  | inr (cost_in, cost_out, st) =>
      match load_loop env cost_in cost_out (seq 1 8) st with
      | inl e => inl e
      | inr ([], _) => inl NoKeys
      | inr (k :: ks, _) => inr (k :: ks)
      end
  end.

(** A record as the loader creates it: a non-empty key and no history. *)
Definition as_loaded (k : KeyRecord) : Prop :=
  key k <> ""%string /\ provider k = "anthropic"%string
  /\ tokens_in k = 0%Z /\ tokens_out k = 0%Z
  /\ errors_429 k = 0%Z /\ errors_5xx k = 0%Z
  /\ last_used k = 0 /\ cooldown_until k = 0 /\ active k = true.

(** What the loop keeps true, [done] being the indices handled so far. *)
Definition load_inv (done : list nat) (st : list KeyRecord * gset string)
  : Prop :=
  List.NoDup (map alias st.1) /\ List.NoDup (map key st.1)
  /\ (forall k, In k st.1 ->
        key k ∈ st.2 /\ as_loaded k
        /\ (alias k = "primary"%string
            \/ exists j, In j done /\ alias k = numbered_alias j))
  /\ (length st.1 <= 1 + length done)%nat.

Lemma NoDup_snoc {A : Type} (l : list A) (x : A) :
  List.NoDup l -> ~ In x l -> List.NoDup (l ++ [x]).
Proof.
  intros Hl Hx. apply (Permutation.Permutation_NoDup (l := x :: l)).
  - apply Permutation.Permutation_cons_append.
  - constructor; assumption.
Qed.

Lemma numbered_alias_inj (i j : nat) :
  numbered_alias i = numbered_alias j -> i = j.
Proof.
  unfold numbered_alias. intros H.
  apply (String.app_inj "key_") in H. apply pretty_nat_inj in H. exact H.
Qed.

Lemma numbered_alias_not_primary (i : nat) :
  numbered_alias i <> "primary"%string.
Proof. unfold numbered_alias. simpl. discriminate. Qed.

Lemma load_numbered_inv (env : gmap string string) (cost_in cost_out : Q)
  (i : nat) (done : list nat) (st st' : list KeyRecord * gset string) :
  ~ In i done -> load_inv done st ->
  load_numbered env cost_in cost_out i st = inr st' ->
  load_inv (i :: done) st'.
Proof.
  intros Hi (Ha & Hk & Hall & Hlen). unfold load_numbered.
  destruct (parse_float _) as [budget|]; [|discriminate].
  set (k := PyStr.strip (getenv env ("ANTHROPIC_API_KEY_" +:+ pretty i) "")).
  destruct (negb (String.eqb k "") && negb (bool_decide (k ∈ st.2))) eqn:E.
  - intros H. injection H as <-. unfold load_inv. simpl.
    apply andb_true_iff in E. destruct E as [E1 E2].
    apply negb_true_iff in E1, E2.
    apply String.eqb_neq in E1. apply bool_decide_eq_false in E2.
    split; [|split; [|split]].
    + rewrite map_app. simpl. apply NoDup_snoc; [exact Ha|].
      intros Hin. apply in_map_iff in Hin. destruct Hin as (x & Hx & Hxin).
      destruct (Hall x Hxin) as (_ & _ & [Hp|(j & Hj & Hp)]).
      * rewrite Hp in Hx. symmetry in Hx.
        exact (numbered_alias_not_primary i Hx).
      * rewrite Hp in Hx. apply numbered_alias_inj in Hx. subst j.
        contradiction.
    + rewrite map_app. simpl. apply NoDup_snoc; [exact Hk|].
      intros Hin. apply in_map_iff in Hin. destruct Hin as (x & Hx & Hxin).
      destruct (Hall x Hxin) as (Hs & _). rewrite Hx in Hs. contradiction.
    + intros x Hx. apply in_app_or in Hx. destruct Hx as [Hx|[<-|[]]].
      * destruct (Hall x Hx) as (Hs & Hl & Hal).
        split; [apply elem_of_union; right; exact Hs|]. split; [exact Hl|].
        destruct Hal as [Hp|(j & Hj & Hp)]; [left; exact Hp|].
        right. exists j. split; [right; exact Hj|exact Hp].
      * simpl.
        split; [apply elem_of_union; left; apply elem_of_singleton;
                reflexivity|].
        split; [unfold as_loaded; simpl; repeat split; auto|].
        right. exists i. split; [left; reflexivity|reflexivity].
    + rewrite length_app. simpl. lia.
  - intros H. injection H as <-.
    split; [exact Ha|]. split; [exact Hk|]. split.
    + intros x Hx. destruct (Hall x Hx) as (Hs & Hl & Hal).
      split; [exact Hs|]. split; [exact Hl|].
      destruct Hal as [Hp|(j & Hj & Hp)]; [left; exact Hp|].
      right. exists j. split; [right; exact Hj|exact Hp].
    + simpl. lia.
Qed.

Lemma load_loop_inv (env : gmap string string) (cost_in cost_out : Q)
  (indices : list nat) :
  forall done st st',
    List.NoDup (indices ++ done) -> load_inv done st ->
    load_loop env cost_in cost_out indices st = inr st' ->
    load_inv (rev indices ++ done) st'.
Proof.
  induction indices as [|i rest IH]; intros done st st' Hnd Hinv; simpl.
  - intros H. injection H as <-. exact Hinv.
  - destruct (load_numbered env cost_in cost_out i st) as [e|st1] eqn:E;
      [discriminate|].
    intros Hloop. rewrite <- app_assoc. simpl.
    simpl in Hnd. apply List.NoDup_cons_iff in Hnd. destruct Hnd as [Hi Hnd].
    apply (IH (i :: done) st1 st').
    + apply (Permutation.Permutation_NoDup (l := i :: rest ++ done)).
      * apply Permutation.Permutation_middle.
      * constructor; assumption.
    + apply (load_numbered_inv env cost_in cost_out i done st st1);
        [|exact Hinv|exact E].
      intro H. apply Hi. apply in_or_app. right. exact H.
    + exact Hloop.
Qed.

Lemma load_loop_error (env : gmap string string) (cost_in cost_out : Q)
  (indices : list nat) :
  forall st e,
    load_loop env cost_in cost_out indices st = inl e -> e = BadFloat.
Proof.
  induction indices as [|i rest IH]; intros st e; simpl; [discriminate|].
  unfold load_numbered at 1.
  destruct (parse_float _); [|intros H; injection H as <-; reflexivity].
  destruct (negb _ && negb _); apply IH.
Qed.

(** X6. When [_load_from_env] succeeds, the pool is not empty, holds at most
    9 records, no two with the same key and no two with the same alias, and
    every record has a non-empty key, no tokens, no errors, no cooldown and
    is active.  It fails with [NoKeys] only if the primary key is blank. *)
Theorem load_from_env_spec (env : gmap string string) :
  (forall keys,
      _load_from_env env = inr keys ->
      keys <> []
      /\ (length keys <= 9)%nat
      /\ List.NoDup (map key keys)
      /\ List.NoDup (map alias keys)
      /\ Forall as_loaded keys)
  /\ (_load_from_env env = inl NoKeys ->
      PyStr.strip (getenv env "ANTHROPIC_API_KEY" "") = ""%string).
Proof.
  unfold _load_from_env.
  destruct (load_primary env) as [e|[[cost_in cost_out] st]] eqn:Ep.
  { split; [discriminate|]. intros H. injection H as ->.
    unfold load_primary in Ep.
    destruct (parse_float _); [|discriminate].
    destruct (parse_float _); [|discriminate].
    destruct (negb _) eqn:En; [|discriminate].
    destruct (parse_float _); discriminate. }
  assert (Hinv0 : load_inv [] st
                  /\ (st.1 = [] ->
                      PyStr.strip (getenv env "ANTHROPIC_API_KEY" "") = ""%string)).
  { unfold load_primary in Ep.
    destruct (parse_float _) as [ci|]; [|discriminate].
    destruct (parse_float _) as [co|]; [|discriminate].
    destruct (negb (String.eqb _ "")) eqn:En.
    - destruct (parse_float _) as [b|]; [|discriminate].
      injection Ep as _ _ <-. split; [|discriminate].
      apply negb_true_iff, String.eqb_neq in En.
      split; [|split; [|split]]; simpl.
      + constructor; [intros []|constructor].
      + constructor; [intros []|constructor].
      + intros x [<-|[]]. simpl.
        split; [apply elem_of_singleton; reflexivity|].
        split; [unfold as_loaded; simpl; repeat split; auto|].
        left. reflexivity.
      + lia.
    - injection Ep as _ _ <-. apply negb_false_iff, String.eqb_eq in En.
      split; [|intros _; exact En].
      split; [|split; [|split]]; simpl.
      + constructor.
      + constructor.
      + intros x [].
      + lia. }
  destruct Hinv0 as [Hinv0 Hblank].
  destruct (load_loop env cost_in cost_out (seq 1 8) st) as [e|[keys seen]] eqn:El.
  { split; [discriminate|]. intros H. injection H as ->.
    apply load_loop_error in El. discriminate El. }
  assert (Hnd : List.NoDup (seq 1 8 ++ []))
    by (rewrite app_nil_r; apply List.seq_NoDup).
  pose proof (load_loop_inv env cost_in cost_out (seq 1 8) [] st (keys, seen)
                Hnd Hinv0 El) as (Ha & Hk & Hall & Hlen).
  simpl in Ha, Hk, Hall, Hlen.
  split.
  - intros ks Hks. destruct keys as [|k keys]; [discriminate|].
    injection Hks as <-.
    split; [discriminate|]. split; [exact Hlen|].
    split; [exact Hk|]. split; [exact Ha|].
    apply List.Forall_forall. intros x Hx. apply (Hall x Hx).
  - intros Hno. destruct keys as [|k keys]; [|discriminate].
    apply Hblank.
    (* the loop only appends: an empty result means an empty start *)
    clear - El. revert El. generalize (seq 1 8). intros l. revert st.
    induction l as [|i l IH]; intros st; simpl.
    + intros H. injection H as -> . reflexivity.
    + unfold load_numbered at 1.
      destruct (parse_float _); [|discriminate].
      destruct (negb _ && negb _).
      * intros H. apply IH in H. simpl in H.
        destruct st.1; discriminate.
      * apply IH.
Qed.

End Env.

(** A stand-in for [float]: ["abc"] does not parse, anything else is 10. *)
Definition float_10 (s : string) : option Q :=
  if String.eqb s "abc" then None else Some 10.

Example load_from_env_example :
  let env : gmap string string :=
    <["ANTHROPIC_API_KEY" := " sk-a "]>
      (<["ANTHROPIC_API_KEY_1" := "sk-a"]>
         (<["ANTHROPIC_API_KEY_3" := "sk-b"]> ∅)) in
  match _load_from_env float_10 env with
  | inr keys => map alias keys = ["primary"; "key_3"]%string
                /\ map key keys = ["sk-a"; "sk-b"]%string
  | inl _ => False
  end
  /\ _load_from_env float_10 ∅ = inl NoKeys
  /\ _load_from_env float_10 (<["KEY_5_BUDGET_USD" := "abc"]> env)
     = inl BadFloat.
Proof. vm_compute. auto. Qed.

End KeyManager.

(** * Binary64 arithmetic *)

Module Binary64.
Local Open Scope Q_scope.

(** [m * 2^e] *)
Definition ldexp (m e : Z) : Q :=
  if (0 <=? e)%Z then inject_Z (m * 2 ^ e) else m # Z.to_pos (2 ^ (- e)).

(** [n / d] rounded to the nearest integer, ties to the even one, for
    [0 <= n] and [0 < d]. *)
Definition div_half_even (n d : Z) : Z :=
  let q := (n / d)%Z in
  match (2 * (n mod d) ?= d)%Z with
  | Lt => q
  | Gt => (q + 1)%Z
  | Eq => if Z.even q then q else (q + 1)%Z
  end.

(** [a / d / 2^e] as a fraction of integers. *)
Definition scaled (a d e : Z) : Z * Z :=
  if (0 <=? e)%Z then (a, d * 2 ^ e)%Z else (a * 2 ^ (- e), d)%Z.

(** The exponent of the last place of [a / d]: the [e] with
    [2^52 <= a / d / 2^e < 2^53], and -1074 for the subnormal numbers. *)
Definition ulp_exponent (a d : Z) : Z :=
  let e0 := (Z.log2 a - Z.log2 d - 53)%Z in
  let (n0, d0) := scaled a d e0 in
  let e1 := if (n0 / d0 <? 2 ^ 53)%Z then e0 else (e0 + 1)%Z in
  Z.max e1 (-1074).

(** Rounding to the nearest binary64 number, ties to even. *)
Definition round (x : Q) : Q :=
  let q := Qred x in
  let n := Qnum q in
  let d := Zpos (Qden q) in
  if (n =? 0)%Z then 0
  else
    let a := Z.abs n in
    let e := ulp_exponent a d in
    let (n', d') := scaled a d e in
    Qred (inject_Z (Z.sgn n) * ldexp (div_half_even n' d') e).

(** No rounding at all: exact arithmetic. *)
Definition exact (x : Q) : Q := x.

(** The square root rounded to the nearest binary64 number, for a positive
    argument (the value of [math.sqrt], and of [x ** 0.5] wherever the C
    library's [pow] is correctly rounded): with [e] such that
    [2^104 <= x / 4^e < 2^106], the integer nearest to [sqrt(x / 4^e)] times
    [2^e]. *)
Definition sqrt64 (x : Q) : Q :=
  let q := Qred x in
  let n := Qnum q in
  let d := Zpos (Qden q) in
  if (n <=? 0)%Z then 0
  else
    let e0 := ((Z.log2 n - Z.log2 d - 105) / 2)%Z in
    let t0 := (fst (scaled n d (2 * e0)) / snd (scaled n d (2 * e0)))%Z in
    let e := (if (t0 <? 2 ^ 106) then e0 else e0 + 1)%Z in
    let (n', d') := scaled n d (2 * e) in
    let r := Z.sqrt (n' / d') in
    let m := match (4 * n' ?= d' * (4 * r * r + 4 * r + 1))%Z with
             | Gt => (r + 1)%Z
             | Lt => r
             | Eq => if Z.even r then r else (r + 1)%Z
             end in
    Qred (ldexp m e).

(** Half a unit in the last place of 1: the relative error of one rounding. *)
Definition u : Q := 1 # 9007199254740992.

Example round_examples :
  round (1 # 10) == 3602879701896397 # 36028797018963968
  /\ round (3 # 10) == 5404319552844595 # 18014398509481984
  /\ round (1 # 3) == 6004799503160661 # 18014398509481984
  /\ round (1 - round (3 # 10)) == 3152519739159347 # 4503599627370496
  /\ round 3 == 3
  /\ sqrt64 2 == 6369051672525773 # 4503599627370496
  /\ sqrt64 (round (1 # 10)) == 5696652996790543 # 18014398509481984
  /\ sqrt64 9 == 3.
Proof. vm_compute. repeat split. Qed.

Section Ops.
(** The rounding applied to the result of every operation. *)
Variable rnd : Q -> Q.

Definition fadd (x y : Q) : Q := rnd (x + y).
Definition fsub (x y : Q) : Q := rnd (x - y).
Definition fmul (x y : Q) : Q := rnd (x * y).
Definition fdiv (x y : Q) : Q := rnd (x / y).
(** [float(z)] of an [int], as in [z / 1000.0] or [z * 0.05]. *)
Definition of_int (z : Z) : Q := rnd (inject_Z z).
(** A decimal literal of the source, such as [0.001]. *)
Definition lit (q : Q) : Q := rnd q.

End Ops.

(** ** The accuracy of [round] and [sqrt64] *)

Lemma two_power_pos (e : Z) : 0 < 2 ^ e.
Proof. apply Qpower_0_lt. reflexivity. Qed.

Lemma two_power_Z (e : Z) : (0 <= e)%Z -> inject_Z (2 ^ e) == 2 ^ e.
Proof. intros H. rewrite Zpower_Qpower by exact H. reflexivity. Qed.

Lemma two_power_cancel (e : Z) : 2 ^ (- e) * 2 ^ e == 1.
Proof.
  rewrite <- Qpower_plus by discriminate.
  replace (- e + e)%Z with 0%Z by lia. reflexivity.
Qed.

Lemma ldexp_spec (m e : Z) : ldexp m e == inject_Z m * 2 ^ e.
Proof.
  unfold ldexp. destruct (Z.leb_spec 0 e) as [He|He].
  - rewrite inject_Z_mult, two_power_Z by exact He. reflexivity.
  - assert (Hp : (0 < 2 ^ (- e))%Z) by (apply Z.pow_pos_nonneg; lia).
    rewrite Qmake_Qdiv, Z2Pos.id by exact Hp.
    rewrite two_power_Z by lia.
    pose proof (two_power_pos e) as H1.
    rewrite Qpower_opp. field. lra.
Qed.

(** [scaled a d e] is the fraction [a / d / 2^e]. *)
Lemma scaled_spec (a d e : Z) :
  (0 < d)%Z ->
  (0 < snd (scaled a d e))%Z
  /\ inject_Z (fst (scaled a d e)) * inject_Z d * 2 ^ e
     == inject_Z a * inject_Z (snd (scaled a d e)).
Proof.
  intros Hd. unfold scaled. destruct (Z.leb_spec 0 e) as [He|He]; simpl.
  - split; [apply Z.mul_pos_pos; [exact Hd|apply Z.pow_pos_nonneg; lia]|].
    rewrite inject_Z_mult, two_power_Z by exact He. ring.
  - split; [exact Hd|].
    rewrite inject_Z_mult, two_power_Z by lia.
    transitivity (inject_Z a * inject_Z d * (2 ^ (- e) * 2 ^ e)); [ring|].
    rewrite two_power_cancel. ring.
Qed.

(** The nearest integer is within a half of the quotient. *)
Lemma div_half_even_spec (n d : Z) :
  (0 < d)%Z ->
  (- d <= 2 * (div_half_even n d * d - n) <= d)%Z.
Proof.
  intros Hd. unfold div_half_even.
  pose proof (Z.div_mod n d ltac:(lia)) as Hdm.
  pose proof (Z.mod_pos_bound n d Hd) as Hr.
  destruct (Z.compare_spec (2 * (n mod d)) d) as [E|E|E];
    [destruct (Z.even (n / d))| |]; nia.
Qed.


(** [c <= a / d / 2^e] *)
Definition above (c a d e : Z) : Prop :=
  inject_Z c * inject_Z d * 2 ^ e <= inject_Z a.

Lemma Qmult_le_cancel_r (x y z : Q) : 0 < z -> x * z <= y * z -> x <= y.
Proof. intros Hz H. apply (Qmult_le_r x y z Hz). exact H. Qed.

Lemma inject_Z_pos (z : Z) : (0 < z)%Z -> 0 < inject_Z z.
Proof. intros H. change 0 with (inject_Z 0). rewrite <- Zlt_Qlt. exact H. Qed.

Lemma above_scaled (c a d e : Z) :
  (0 < d)%Z -> above c a d e ->
  (c * snd (scaled a d e) <= fst (scaled a d e))%Z.
Proof.
  intros Hd Hfit. destruct (scaled_spec a d e Hd) as [Hd' Heq].
  unfold above in Hfit.
  pose proof (two_power_pos e) as HP.
  pose proof (inject_Z_pos d Hd) as HD.
  pose proof (inject_Z_pos _ Hd') as HD'.
  rewrite Zle_Qle, inject_Z_mult.
  set (N := inject_Z (fst (scaled a d e))) in *.
  set (D' := inject_Z (snd (scaled a d e))) in *.
  set (D := inject_Z d) in *. set (A := inject_Z a) in *. set (P := 2 ^ e) in *.
  apply Qmult_le_cancel_r with (z := D * P).
  - apply Qmult_lt_0_compat; assumption.
  - assert (E1 : inject_Z c * D' * (D * P) == D' * (inject_Z c * D * P)) by ring.
    assert (E2 : N * (D * P) == D' * A) by (rewrite <- (Qmult_comm A), <- Heq; ring).
    rewrite E1, E2. apply Qmult_le_l; assumption.
Qed.

Lemma scaled_above (c a d e : Z) :
  (0 < d)%Z ->
  (c <= fst (scaled a d e) / snd (scaled a d e))%Z ->
  above c a d e.
Proof.
  intros Hd Hbig. destruct (scaled_spec a d e Hd) as [Hd' Heq].
  pose proof (Z.mul_div_le (fst (scaled a d e)) _ Hd') as Hle.
  assert (Hz : (c * snd (scaled a d e) <= fst (scaled a d e))%Z) by nia.
  rewrite Zle_Qle, inject_Z_mult in Hz.
  pose proof (two_power_pos e) as HP.
  pose proof (inject_Z_pos d Hd) as HD.
  pose proof (inject_Z_pos _ Hd') as HD'.
  unfold above.
  set (N := inject_Z (fst (scaled a d e))) in *.
  set (D' := inject_Z (snd (scaled a d e))) in *.
  set (D := inject_Z d) in *. set (A := inject_Z a) in *. set (P := 2 ^ e) in *.
  apply Qmult_le_cancel_r with (z := D').
  - exact HD'.
  - rewrite <- Heq.
    assert (E1 : inject_Z c * D * P * D' == inject_Z c * D' * (D * P)) by ring.
    assert (E2 : N * D * P == N * (D * P)) by ring.
    rewrite E1, E2. apply Qmult_le_compat_r; [exact Hz|].
    apply Qlt_le_weak, Qmult_lt_0_compat; assumption.
Qed.

(** Moving [k] binary places from the bound to the exponent. *)
Lemma above_shift (k j a d e : Z) :
  (0 <= j)%Z -> (0 <= k)%Z ->
  above (2 ^ (j + k)) a d e -> above (2 ^ j) a d (e + k).
Proof.
  unfold above. intros Hj Hk H.
  rewrite two_power_Z in H |- * by lia.
  rewrite Qpower_plus in H |- * by discriminate.
  assert (E : 2 ^ j * inject_Z d * (2 ^ e * 2 ^ k)
              == 2 ^ j * 2 ^ k * inject_Z d * 2 ^ e) by ring.
  rewrite E. exact H.
Qed.

Lemma log2_bounds (a : Z) :
  (0 < a)%Z ->
  2 ^ Z.log2 a <= inject_Z a /\ inject_Z a < 2 ^ (Z.log2 a + 1).
Proof.
  intros Ha. destruct (Z.log2_spec a Ha) as [H1 H2].
  pose proof (Z.log2_nonneg a) as H0.
  rewrite <- !two_power_Z by lia. rewrite <- Zle_Qle, <- Zlt_Qlt.
  unfold Z.succ in H2. lia.
Qed.

(** The estimate of the exponent from the bit lengths. *)
Lemma log2_above (j a d e : Z) :
  (0 < a)%Z -> (0 < d)%Z -> (0 <= j)%Z ->
  (j + (Z.log2 d + 1) + e <= Z.log2 a)%Z ->
  above (2 ^ j) a d e.
Proof.
  intros Ha Hd Hj He. unfold above.
  destruct (log2_bounds a Ha) as [Ha1 _].
  destruct (log2_bounds d Hd) as [_ Hd2].
  eapply Qle_trans; [|exact Ha1].
  pose proof (two_power_pos e) as HP.
  pose proof (two_power_pos j) as HJ.
  rewrite two_power_Z by exact Hj.
  apply Qle_trans with (2 ^ j * 2 ^ (Z.log2 d + 1) * 2 ^ e).
  - apply Qmult_le_compat_r; [|lra]. apply Qmult_le_l; [exact HJ|lra].
  - rewrite <- !Qpower_plus by discriminate.
    apply Qpower_le_compat_l; [exact He|discriminate].
Qed.

Lemma ulp_exponent_above (a d : Z) :
  (0 < a)%Z -> (0 < d)%Z ->
  2 ^ (-1021) * inject_Z d <= inject_Z a ->
  above (2 ^ 52) a d (ulp_exponent a d).
Proof.
  intros Ha Hd Hnormal. unfold ulp_exponent.
  set (e0 := (Z.log2 a - Z.log2 d - 53)%Z).
  assert (Hfit0 : above (2 ^ 52) a d e0)
    by (apply log2_above; unfold e0; lia).
  assert (He0 : (-1074 <= e0)%Z).
  { destruct (log2_bounds a Ha) as [_ Ha2].
    destruct (log2_bounds d Hd) as [Hd1 _].
    assert (Hlt : 2 ^ (-1021 + Z.log2 d) < 2 ^ (Z.log2 a + 1)).
    { eapply Qle_lt_trans; [|exact Ha2].
      eapply Qle_trans; [|exact Hnormal].
      rewrite Qpower_plus by discriminate.
      apply Qmult_le_l; [apply two_power_pos|exact Hd1]. }
    apply Qpower_lt_compat_l_inv in Hlt; [|reflexivity]. unfold e0. lia. }
  destruct (scaled a d e0) as [n0 d0] eqn:Es.
  destruct (n0 / d0 <? 2 ^ 53)%Z eqn:Et.
  - rewrite Z.max_l by lia. exact Hfit0.
  - rewrite Z.max_l by lia. apply Z.ltb_ge in Et.
    apply (above_shift 1 52); [lia|lia|].
    apply scaled_above; [exact Hd|]. rewrite Es. exact Et.
Qed.

Lemma round_zero (x : Q) : x == 0 -> round x == 0.
Proof.
  intros E. unfold round. rewrite (Qred_complete x 0 E). reflexivity.
Qed.

(** A positive fraction in lowest terms. *)
Lemma Qred_positive (x : Q) :
  0 < x ->
  (0 < Qnum (Qred x))%Z
  /\ x * inject_Z (Zpos (Qden (Qred x))) == inject_Z (Qnum (Qred x)).
Proof.
  intros Hx. pose proof (Qred_correct x) as Hq.
  destruct (Qred x) as [n p]. simpl.
  assert (Hn : (0 < n)%Z).
  { rewrite <- Hq in Hx. unfold Qlt in Hx. simpl in Hx. lia. }
  split; [exact Hn|]. rewrite <- Hq, Qmake_Qdiv. field.
  pose proof (inject_Z_pos (Zpos p) ltac:(lia)). lra.
Qed.

(** From the scaled integers back to the number. *)
Lemma scale_back (c x N D' M P D A : Q) :
  0 < D -> 0 < D' -> 0 < P ->
  x * D == A -> N * D * P == A * D' ->
  (c * N <= M * D' -> c * x <= M * P)
  /\ (M * D' <= c * N -> M * P <= c * x).
Proof.
  intros HD HD' HP Hx Heq.
  assert (E : N * P == x * D').
  { apply (Qmult_inj_r _ _ D); [lra|].
    transitivity (N * D * P); [ring|]. rewrite Heq, <- Hx. ring. }
  split; intros H; apply Qmult_le_cancel_r with (z := D'); try exact HD'.
  - assert (E1 : c * x * D' == c * N * P) by (rewrite <- Qmult_assoc, <- E; ring).
    assert (E2 : M * P * D' == M * D' * P) by ring.
    rewrite E1, E2. apply Qmult_le_compat_r; lra.
  - assert (E1 : c * x * D' == c * N * P) by (rewrite <- Qmult_assoc, <- E; ring).
    assert (E2 : M * P * D' == M * D' * P) by ring.
    rewrite E1, E2. apply Qmult_le_compat_r; lra.
Qed.

(** Rounding a number of the normal range changes it by at most [u] of
    itself. *)
Lemma round_near (x : Q) :
  2 ^ (-1021) <= x -> (1 - u) * x <= round x <= (1 + u) * x.
Proof.
  intros Hx.
  assert (Hpos : 0 < x)
    by (eapply Qlt_le_trans; [apply (two_power_pos (-1021))|exact Hx]).
  destruct (Qred_positive x Hpos) as [Hn Hq].
  unfold round.
  set (n := Qnum (Qred x)) in *. set (d := Zpos (Qden (Qred x))) in *.
  assert (Hd : (0 < d)%Z) by (unfold d; lia).
  destruct (Z.eqb_spec n 0) as [E|_]; [lia|].
  rewrite (Z.abs_eq n) by lia. rewrite (Z.sgn_pos n) by lia.
  assert (Hnormal : 2 ^ (-1021) * inject_Z d <= inject_Z n).
  { rewrite <- Hq. apply Qmult_le_compat_r; [exact Hx|].
    apply Qlt_le_weak, inject_Z_pos, Hd. }
  pose proof (ulp_exponent_above n d Hn Hd Hnormal) as Hfit.
  set (e := ulp_exponent n d) in *.
  pose proof (above_scaled _ n d e Hd Hfit) as Hbig.
  destruct (scaled_spec n d e Hd) as [Hd' Heq].
  destruct (scaled n d e) as [n' d'] eqn:Es. simpl in Hbig, Hd', Heq.
  pose proof (div_half_even_spec n' d' Hd') as Hm.
  set (m := div_half_even n' d') in *.
  rewrite Qred_correct, ldexp_spec.
  assert (E1 : inject_Z 1 * (inject_Z m * 2 ^ e) == inject_Z m * 2 ^ e)
    by (change (inject_Z 1) with 1; ring).
  rewrite E1.
  destruct (scale_back (1 - u) x (inject_Z n') (inject_Z d') (inject_Z m)
              (2 ^ e) (inject_Z d) (inject_Z n)) as [Hlow _];
    [apply inject_Z_pos, Hd|apply inject_Z_pos, Hd'|apply two_power_pos
    |exact Hq|exact Heq|].
  destruct (scale_back (1 + u) x (inject_Z n') (inject_Z d') (inject_Z m)
              (2 ^ e) (inject_Z d) (inject_Z n)) as [_ Hhigh];
    [apply inject_Z_pos, Hd|apply inject_Z_pos, Hd'|apply two_power_pos
    |exact Hq|exact Heq|].
  assert (Hb : (4503599627370496 * d' <= n')%Z) by exact Hbig.
  rewrite Zle_Qle, inject_Z_mult in Hb.
  assert (Hm1 : (2 * n' <= 2 * (m * d') + d')%Z) by lia.
  assert (Hm2 : (2 * (m * d') <= 2 * n' + d')%Z) by lia.
  rewrite Zle_Qle in Hm1, Hm2.
  rewrite !inject_Z_plus, !inject_Z_mult in Hm1, Hm2.
  change (inject_Z 4503599627370496) with 4503599627370496 in Hb.
  change (inject_Z 2) with 2 in Hm1, Hm2.
  split; [apply Hlow|apply Hhigh]; unfold u; lra.
Qed.


Lemma sqrt64_zero (x : Q) : x == 0 -> sqrt64 x == 0.
Proof.
  intros E. unfold sqrt64. rewrite (Qred_complete x 0 E). reflexivity.
Qed.

(** The integer square root of a quotient of at least [2^104], and its
    successor, are within [2^-52] of the square root. *)
Lemma sqrt_quotient (n d : Z) :
  (0 < d)%Z -> (2 ^ 104 * d <= n)%Z ->
  let r := Z.sqrt (n / d) in
  (2 ^ 52 <= r)%Z
  /\ (r * r * d <= n)%Z
  /\ (n < r * r * d + 2 * (r * d) + d)%Z.
Proof.
  intros Hd Hbig r.
  assert (Ht : (2 ^ 104 <= n / d)%Z)
    by (apply Z.div_le_lower_bound; [exact Hd|lia]).
  assert (Ht0 : (0 <= n / d)%Z) by lia.
  destruct (Z.sqrt_spec (n / d) Ht0) as [H1 H2]. fold r in H1, H2.
  pose proof (Z.mul_div_le n d Hd) as H3.
  pose proof (Z.mul_succ_div_gt n d Hd) as H4.
  assert (Hr : (2 ^ 52 <= r)%Z).
  { change (2 ^ 52)%Z with (Z.sqrt (2 ^ 52 * 2 ^ 52)).
    - apply Z.sqrt_le_mono. exact Ht. }
  split; [exact Hr|]. unfold Z.succ in *. split; nia.
Qed.

Lemma sqrt64_near (x : Q) :
  0 < x ->
  0 < sqrt64 x
  /\ (1 - 2 * u) * (1 - 2 * u) * x <= sqrt64 x * sqrt64 x
  /\ sqrt64 x * sqrt64 x <= (1 + 2 * u) * (1 + 2 * u) * x.
Proof.
  intros Hpos.
  destruct (Qred_positive x Hpos) as [Hn Hq].
  unfold sqrt64.
  set (n := Qnum (Qred x)) in *. set (d := Zpos (Qden (Qred x))) in *.
  assert (Hd : (0 < d)%Z) by (unfold d; lia).
  destruct (Z.leb_spec n 0) as [E|_]; [lia|].
  set (e0 := ((Z.log2 n - Z.log2 d - 105) / 2)%Z).
  set (e := if (fst (scaled n d (2 * e0)) / snd (scaled n d (2 * e0))
                <? 2 ^ 106)%Z then e0 else (e0 + 1)%Z).
  assert (Hfit : above (2 ^ 104) n d (2 * e)).
  { unfold e.
    destruct (Z.ltb_spec (fst (scaled n d (2 * e0)) / snd (scaled n d (2 * e0)))
                (2 ^ 106)) as [_|Hge].
    - apply log2_above; try lia.
      pose proof (Z.mul_div_le (Z.log2 n - Z.log2 d - 105) 2 ltac:(lia)).
      fold e0 in H. lia.
    - replace (2 * (e0 + 1))%Z with (2 * e0 + 2)%Z by lia.
      apply (above_shift 2 104); [lia|lia|].
      apply scaled_above; [exact Hd|exact Hge]. }
  pose proof (above_scaled _ n d (2 * e) Hd Hfit) as Hbig.
  destruct (scaled_spec n d (2 * e) Hd) as [Hd' Heq].
  destruct (scaled n d (2 * e)) as [n' d'] eqn:Es. simpl in Hbig, Hd', Heq.
  destruct (sqrt_quotient n' d' Hd' Hbig) as (Hr & Hlow & Hhigh).
  set (r := Z.sqrt (n' / d')) in *.
  set (m := match (4 * n' ?= d' * (4 * r * r + 4 * r + 1))%Z with
            | Gt => (r + 1)%Z
            | Lt => r
            | Eq => if Z.even r then r else (r + 1)%Z
            end).
  assert (Hm : m = r \/ m = (r + 1)%Z).
  { unfold m. destruct (_ ?= _)%Z; [destruct (Z.even r)| |]; auto. }
  rewrite Qred_correct, ldexp_spec.
  pose proof (two_power_pos e) as HP.
  assert (HM : 4503599627370496 <= inject_Z m).
  { change 4503599627370496 with (inject_Z (2 ^ 52)). rewrite <- Zle_Qle.
    destruct Hm; lia. }
  split; [apply Qmult_lt_0_compat; lra|].
  assert (E2 : 2 ^ (2 * e) == 2 ^ e * 2 ^ e).
  { replace (2 * e)%Z with (e + e)%Z by lia.
    apply Qpower_plus. discriminate. }
  rewrite E2 in Heq.
  assert (Esq : inject_Z m * 2 ^ e * (inject_Z m * 2 ^ e)
                == inject_Z (m * m) * (2 ^ e * 2 ^ e))
    by (rewrite inject_Z_mult; ring).
  rewrite Esq.
  assert (Hz1 : (4503599627370496 * d' <= r * d')%Z) by nia.
  assert (Hz2 : (4503599627370496 * (r * d') <= r * r * d')%Z) by nia.
  assert (Hmm : (m * m * d' = r * r * d'
                 \/ m * m * d' = r * r * d' + 2 * (r * d') + d')%Z).
  { destruct Hm as [-> | ->]; [left|right]; ring. }
  set (XD := (r * r * d')%Z) in *. set (RD := (r * d')%Z) in *.
  assert (Hlo : ((4503599627370496 - 1) * (4503599627370496 - 1) * n'
                 <= 4503599627370496 * 4503599627370496 * (m * m * d'))%Z)
    by (destruct Hmm as [-> | ->]; lia).
  assert (Hhi : (4503599627370496 * 4503599627370496 * (m * m * d')
                 <= (4503599627370496 + 1) * (4503599627370496 + 1) * n')%Z)
    by (destruct Hmm as [-> | ->]; lia).
  rewrite Zle_Qle in Hlo, Hhi.
  rewrite !inject_Z_mult in Hlo, Hhi.
  change (inject_Z (4503599627370496 - 1)) with 4503599627370495 in Hlo.
  change (inject_Z (4503599627370496 + 1)) with 4503599627370497 in Hhi.
  change (inject_Z 4503599627370496) with 4503599627370496 in Hlo, Hhi.
  rewrite <- !inject_Z_mult in Hlo, Hhi.
  destruct (scale_back ((1 - 2 * u) * (1 - 2 * u)) x (inject_Z n')
              (inject_Z d') (inject_Z (m * m)) (2 ^ e * 2 ^ e)
              (inject_Z d) (inject_Z n)) as [Hl _];
    [apply inject_Z_pos, Hd|apply inject_Z_pos, Hd'
    |apply Qmult_lt_0_compat; exact HP|exact Hq|exact Heq|].
  destruct (scale_back ((1 + 2 * u) * (1 + 2 * u)) x (inject_Z n')
              (inject_Z d') (inject_Z (m * m)) (2 ^ e * 2 ^ e)
              (inject_Z d) (inject_Z n)) as [_ Hh];
    [apply inject_Z_pos, Hd|apply inject_Z_pos, Hd'
    |apply Qmult_lt_0_compat; exact HP|exact Hq|exact Heq|].
  rewrite <- inject_Z_mult in Hl, Hh.
  split; [apply Hl|apply Hh]; unfold u; lra.
Qed.

End Binary64.

Module KeyManagerRounded.
Import KeyManager Binary64.
Local Open Scope Q_scope.

Section Clocked.
Variable rnd : Q -> Q.
(** [time n]: what the [n]-th call of [time.time()] returns, counted from the
    start of the method call. *)
Variable time : nat -> Q.

Definition estimated_cost_usd (self : KeyRecord) : Q :=
  fadd rnd
    (fmul rnd (fdiv rnd (of_int rnd (tokens_in self)) 1000)
       (cost_per_1k_input self))
    (fmul rnd (fdiv rnd (of_int rnd (tokens_out self)) 1000)
       (cost_per_1k_output self)).

Definition budget_remaining (self : KeyRecord) : Q :=
  Qmax 0 (fsub rnd (monthly_budget_usd self) (estimated_cost_usd self)).

(** [is_available n self]: the answer and the number of clock readings made
    so far, [n] having been made before the call.  The clock is read only
    for an active record. *)
Definition is_available (n : nat) (self : KeyRecord) : bool * nat :=
  if active self then
    (Qle_bool (cooldown_until self) (time n)
     && Qlt_bool (lit rnd (1 # 1000)) (budget_remaining self), S n)
  else (false, n).

(** [health_score] with the clock reading [now], which is used only when
    [last_used] is not 0. *)
Definition health_score_at (now : Q) (self : KeyRecord) : Q :=
  let error_penalty :=
    fmul rnd (of_int rnd (errors_429 self * 2 + errors_5xx self))
      (lit rnd (5 # 100)) in
  let budget_factor :=
    Qmin 1 (fdiv rnd (budget_remaining self)
              (Qmax (lit rnd (1 # 1000)) (monthly_budget_usd self))) in
  let recency_boost :=
    if Qeq_bool (last_used self) 0 then 0
    else Qmin (lit rnd (5 # 100))
           (fdiv rnd 1 (Qmax 1 (fsub rnd now (last_used self)))) in
  Qmax 0 (fadd rnd (fsub rnd budget_factor error_penalty) recency_boost).

Definition health_score (n : nat) (self : KeyRecord) : Q * nat :=
  (health_score_at (time n) self,
   if Qeq_bool (last_used self) 0 then n else S n).

(** [[k for k in self._keys if k.is_available()]] *)
Fixpoint available_from (n : nat) (keys : list KeyRecord)
  : list KeyRecord * nat :=
  match keys with
  | [] => ([], n)
  | k :: ks =>
      let (b, n1) := is_available n k in
      let (l, n2) := available_from n1 ks in
      (if b then k :: l else l, n2)
  end.

(** [[k.cooldown_until for k in self._keys
      if k.active and k.cooldown_until > time.time()]] *)
Fixpoint active_cooldowns_from (n : nat) (keys : list KeyRecord)
  : list Q * nat :=
  match keys with
  | [] => ([], n)
  | k :: ks =>
      if active k then
        let (l, n2) := active_cooldowns_from (S n) ks in
        (if Qlt_bool (time n) (cooldown_until k)
         then cooldown_until k :: l else l, n2)
      else active_cooldowns_from n ks
  end.

(** The keys of [max(available, key=...)]: one [health_score] call per
    credential, in order. *)
Fixpoint scored_from (n : nat) (keys : list KeyRecord)
  : list (KeyRecord * Q) :=
  match keys with
  | [] => []
  | k :: ks =>
      let (s, n1) := health_score n k in
      (k, s) :: scored_from n1 ks
  end.

Definition acquire (keys : list KeyRecord)
  : (AcquireError + KeyRecord) * list KeyRecord :=
  let (available, n1) := available_from 0 keys in
  match scored_from n1 available with
  | [] =>
      let (cooldowns, n2) := active_cooldowns_from n1 keys in
      match cooldowns with
      | c :: cs =>
          let wait_s := fsub rnd (py_min_Q c cs) (time n2) in
          (inl (Exhausted (Qmax 0 wait_s)), keys)
      | [] => (inl NoneAvailable, keys)
      end
  | ks :: kss => (inr (fst (max_from Qgt_bool snd ks kss)), keys)
  end.


(** The number of clock readings a scan of [l] makes: one per active
    record. *)
Definition readings (l : list KeyRecord) : nat :=
  length (List.filter active l).

(** The number of clock readings the scoring of [l] makes: one per record
    that has been used before. *)
Definition used (l : list KeyRecord) : nat :=
  length (List.filter (fun k => negb (Qeq_bool (last_used k) 0)) l).

(** [passes t k]: [k] is available when its test reads the clock at [t]. *)
Definition passes (t : Q) (k : KeyRecord) : Prop :=
  active k = true /\ cooldown_until k <= t
  /\ lit rnd (1 # 1000) < budget_remaining k.

(** [still_cooling t k]: [k] is active and its cooldown is not over at [t]. *)
Definition still_cooling (t : Q) (k : KeyRecord) : Prop :=
  active k = true /\ t < cooldown_until k.

Lemma is_available_passes (n : nat) (k : KeyRecord) :
  snd (is_available n k) = (n + readings [k])%nat
  /\ (fst (is_available n k) = true <-> passes (time n) k).
Proof.
  unfold is_available, readings, passes. simpl.
  destruct (active k); simpl.
  - split; [lia|].
    rewrite andb_true_iff, Qle_bool_iff, Qlt_bool_iff. tauto.
  - split; [lia|]. split; [discriminate|]. intros [H _]. discriminate H.
Qed.

Lemma readings_app (l1 l2 : list KeyRecord) :
  readings (l1 ++ l2) = (readings l1 + readings l2)%nat.
Proof. unfold readings. rewrite List.filter_app, length_app. reflexivity. Qed.

Lemma used_app (l1 l2 : list KeyRecord) :
  used (l1 ++ l2) = (used l1 + used l2)%nat.
Proof. unfold used. rewrite List.filter_app, length_app. reflexivity. Qed.

Lemma used_cons (x : KeyRecord) (l : list KeyRecord) :
  used (x :: l)
  = ((if Qeq_bool (last_used x) 0 then 0 else 1) + used l)%nat.
Proof.
  unfold used. simpl. destruct (Qeq_bool (last_used x) 0); reflexivity.
Qed.

Lemma available_from_count (keys : list KeyRecord) :
  forall n, snd (available_from n keys) = (n + readings keys)%nat.
Proof.
  induction keys as [|k ks IH]; intros n; simpl; [unfold readings; simpl; lia|].
  destruct (is_available_passes n k) as [Hn _].
  destruct (is_available n k) as [b n1]. simpl in Hn.
  specialize (IH n1). destruct (available_from n1 ks) as [l n2].
  simpl in *. subst.
  change (k :: ks) with ([k] ++ ks). rewrite readings_app. lia.
Qed.

Lemma available_from_In (keys : list KeyRecord) :
  forall n k,
    In k (fst (available_from n keys))
    <-> exists l1 l2, keys = l1 ++ k :: l2
                      /\ passes (time (n + readings l1)) k.
Proof.
  induction keys as [|x ks IH]; intros n k; simpl.
  - split; [intros []|]. intros (l1 & l2 & E & _). destruct l1; discriminate.
  - destruct (is_available_passes n x) as [Hn Hp].
    destruct (is_available n x) as [b n1]. simpl in Hn, Hp.
    specialize (IH n1 k). destruct (available_from n1 ks) as [l n2].
    simpl in IH. subst n1.
    assert (Hrest : In k l <->
              exists l1 l2, x :: ks = l1 ++ k :: l2 /\ l1 <> []
                            /\ passes (time (n + readings l1)) k).
    { rewrite IH. split.
      - intros (l1 & l2 & -> & H). exists (x :: l1), l2.
        split; [reflexivity|]. split; [discriminate|].
        change (x :: l1) with ([x] ++ l1). rewrite readings_app.
        rewrite Nat.add_assoc. exact H.
      - intros (l1 & l2 & E & Hne & H). destruct l1 as [|y l1]; [congruence|].
        injection E as <- ->. exists l1, l2. split; [reflexivity|].
        change (x :: l1) with ([x] ++ l1) in H. rewrite readings_app in H.
        rewrite Nat.add_assoc in H. exact H. }
    assert (Hhead : (b = true /\ k = x) <->
              exists l2, x :: ks = [] ++ k :: l2
                         /\ passes (time (n + readings [])) k).
    { unfold readings at 1. simpl. rewrite Nat.add_0_r. split.
      - intros [Hb ->]. exists ks. split; [reflexivity|]. apply Hp, Hb.
      - intros (l2 & E & H). injection E as <- _. split; [|reflexivity].
        apply Hp, H. }
    split.
    + intros Hin.
      assert (Hc : (b = true /\ k = x) \/ In k l).
      { destruct b; simpl in Hin; [|auto].
        destruct Hin as [<-|Hin]; auto. }
      destruct Hc as [Hc|Hc].
      * apply Hhead in Hc. destruct Hc as (l2 & E & H). exists [], l2. auto.
      * apply Hrest in Hc. destruct Hc as (l1 & l2 & E & _ & H). eauto.
    + intros (l1 & l2 & E & H).
      destruct l1 as [|y l1].
      * assert (Hc : b = true /\ k = x) by (apply Hhead; eauto).
        destruct Hc as [-> ->]. left. reflexivity.
      * assert (Hc : In k l).
        { apply Hrest. exists (y :: l1), l2. split; [exact E|].
          split; [discriminate|exact H]. }
        destruct b; [right|]; exact Hc.
Qed.

Lemma active_cooldowns_from_count (keys : list KeyRecord) :
  forall n, snd (active_cooldowns_from n keys) = (n + readings keys)%nat.
Proof.
  induction keys as [|k ks IH]; intros n; simpl; [unfold readings; simpl; lia|].
  change (k :: ks) with ([k] ++ ks). rewrite readings_app.
  unfold readings at 1. simpl.
  destruct (active k); simpl.
  - specialize (IH (S n)). destruct (active_cooldowns_from (S n) ks) as [l n2].
    simpl in *. lia.
  - rewrite IH. lia.
Qed.

Lemma readings_cons (x : KeyRecord) (l : list KeyRecord) :
  readings (x :: l) = ((if active x then 1 else 0) + readings l)%nat.
Proof. unfold readings. simpl. destruct (active x); reflexivity. Qed.

Lemma active_cooldowns_from_In (keys : list KeyRecord) :
  forall n c,
    In c (fst (active_cooldowns_from n keys))
    <-> exists l1 k l2, keys = l1 ++ k :: l2
          /\ still_cooling (time (n + readings l1)) k
          /\ c = cooldown_until k.
Proof.
  induction keys as [|x ks IH]; intros n c; simpl.
  - split; [intros []|]. intros (l1 & k & l2 & E & _). destruct l1; discriminate.
  - set (n' := (n + (if active x then 1 else 0))%nat).
    assert (Htail :
      (exists l1 k l2, ks = l1 ++ k :: l2
          /\ still_cooling (time (n' + readings l1)) k
          /\ c = cooldown_until k)
      <-> (exists l1 k l2, x :: ks = l1 ++ k :: l2 /\ l1 <> []
          /\ still_cooling (time (n + readings l1)) k
          /\ c = cooldown_until k)).
    { split.
      - intros (l1 & k & l2 & -> & H & Hc). exists (x :: l1), k, l2.
        split; [reflexivity|]. split; [discriminate|]. split; [|exact Hc].
        rewrite readings_cons, Nat.add_assoc. exact H.
      - intros (l1 & k & l2 & E & Hne & H & Hc).
        destruct l1 as [|y l1]; [congruence|].
        injection E as <- ->. exists l1, k, l2. split; [reflexivity|].
        split; [|exact Hc].
        rewrite readings_cons, Nat.add_assoc in H. exact H. }
    assert (Hhead :
      (active x = true /\ Qlt_bool (time n) (cooldown_until x) = true
       /\ c = cooldown_until x)
      <-> (exists k l2, x :: ks = [] ++ k :: l2
          /\ still_cooling (time (n + readings [])) k
          /\ c = cooldown_until k)).
    { unfold still_cooling, readings. simpl. rewrite Nat.add_0_r.
      rewrite Qlt_bool_iff. split.
      - intros (Ha & Hc & ->). exists x, ks. auto.
      - intros (k & l2 & E & [Ha Hc] & ->). injection E as <- _. auto. }
    assert (Hsplit :
      (exists l1 k l2, x :: ks = l1 ++ k :: l2
          /\ still_cooling (time (n + readings l1)) k
          /\ c = cooldown_until k)
      <-> ((active x = true /\ Qlt_bool (time n) (cooldown_until x) = true
            /\ c = cooldown_until x)
           \/ (exists l1 k l2, ks = l1 ++ k :: l2
                /\ still_cooling (time (n' + readings l1)) k
                /\ c = cooldown_until k))).
    { rewrite Hhead, Htail. split.
      - intros (l1 & k & l2 & E & H & Hc). destruct l1 as [|y l1].
        + left. eauto.
        + right. exists (y :: l1), k, l2. split; [exact E|].
          split; [discriminate|]. auto.
      - intros [(k & l2 & E & H & Hc)|(l1 & k & l2 & E & _ & H & Hc)];
          [exists [], k, l2|exists l1, k, l2]; auto. }
    rewrite Hsplit. subst n'.
    destruct (active x) eqn:Ea.
    + specialize (IH (S n) c).
      replace (n + 1)%nat with (S n) by lia.
      destruct (active_cooldowns_from (S n) ks) as [l n2]. simpl in IH.
      rewrite <- IH.
      destruct (Qlt_bool (time n) (cooldown_until x)); simpl.
      * split.
        -- intros [<-|H]; auto.
        -- intros [(_ & _ & ->)|H]; auto.
      * split; [auto|]. intros [(_ & H & _)|H]; [discriminate|exact H].
    + rewrite Nat.add_0_r, <- (IH n c). split; [auto|].
      intros [(H & _)|H]; [discriminate|exact H].
Qed.

Lemma py_min_Q_In (xs : list Q) :
  forall x, In (py_min_Q x xs) (x :: xs).
Proof.
  unfold py_min_Q. induction xs as [|y ys IH]; intros x; simpl; [auto|].
  destruct (IH (Qmin x y)) as [H|H]; [|auto].
  rewrite <- H. unfold Qmin, GenericMinMax.gmin.
  destruct (x ?= y); auto.
Qed.

Lemma scored_from_fst (l : list KeyRecord) :
  forall n, map fst (scored_from n l) = l.
Proof.
  induction l as [|k ks IH]; intros n; simpl; [reflexivity|].
  rewrite IH. reflexivity.
Qed.

Lemma scored_from_app (l1 : list KeyRecord) :
  forall n l2,
    scored_from n (l1 ++ l2)
    = scored_from n l1 ++ scored_from (n + used l1) l2.
Proof.
  induction l1 as [|k ks IH]; intros n l2; simpl.
  - unfold used. simpl. rewrite Nat.add_0_r. reflexivity.
  - rewrite IH. do 3 f_equal. unfold used. simpl.
    destruct (Qeq_bool (last_used k) 0); simpl; lia.
Qed.

Lemma scored_from_In (l : list KeyRecord) (n : nat) (x : KeyRecord) (s : Q) :
  In (x, s) (scored_from n l)
  <-> exists a1 a2, l = a1 ++ x :: a2
                    /\ s = health_score_at (time (n + used a1)) x.
Proof.
  split.
  - intros Hin. apply in_split in Hin. destruct Hin as (s1 & s2 & E).
    pose proof (scored_from_fst l n) as Hf. rewrite E in Hf.
    rewrite map_app in Hf. simpl in Hf.
    exists (map fst s1), (map fst s2). split; [symmetry; exact Hf|].
    rewrite <- Hf in E. rewrite scored_from_app in E. simpl in E.
    apply app_inj_1 in E.
    + destruct E as [_ E]. injection E as E _. symmetry. exact E.
    + rewrite <- (length_map fst (scored_from n (map fst s1))).
      rewrite scored_from_fst. apply length_map.
  - intros (a1 & a2 & -> & ->). rewrite scored_from_app. simpl.
    apply in_or_app. right. left. reflexivity.
Qed.


Lemma split_In {A : Type} (P : A -> Prop) (l : list A) (x : A) :
  (exists l1 l2, l = l1 ++ x :: l2 /\ P x) <-> In x l /\ P x.
Proof.
  split.
  - intros (l1 & l2 & -> & H). split; [apply in_elt|exact H].
  - intros [Hin H]. apply in_split in Hin. destruct Hin as (l1 & l2 & ->).
    eauto.
Qed.

Lemma acquire_keeps_pool (keys : list KeyRecord) :
  snd (acquire keys) = keys.
Proof.
  unfold acquire. destruct (available_from 0 keys) as [available n1].
  destruct (scored_from n1 available); [|reflexivity].
  destruct (active_cooldowns_from n1 keys) as [[|c cs] n2]; reflexivity.
Qed.

Lemma acquire_none_available (keys : list KeyRecord) :
  fst (available_from 0 keys) = [] ->
  fst (acquire keys)
  = match fst (active_cooldowns_from (readings keys) keys) with
    | c :: cs =>
        inl (Exhausted
               (Qmax 0 (fsub rnd (py_min_Q c cs)
                          (time (readings keys + readings keys)))))
    | [] => inl NoneAvailable
    end.
Proof.
  intros Hav. unfold acquire.
  pose proof (available_from_count keys 0) as Hn.
  destruct (available_from 0 keys) as [available n1]. simpl in Hav, Hn.
  subst. simpl.
  pose proof (active_cooldowns_from_count keys (readings keys)) as Hn2.
  destruct (active_cooldowns_from (readings keys) keys) as [[|c cs] n2];
    simpl in *; subst; reflexivity.
Qed.

Lemma acquire_some_available (keys : list KeyRecord) (a : KeyRecord)
  (l : list KeyRecord) :
  fst (available_from 0 keys) = a :: l ->
  exists l1 k l2,
    a :: l = l1 ++ k :: l2
    /\ fst (acquire keys) = inr k
    /\ let s := health_score_at (time (readings keys + used l1)) k in
       (forall a1 x a2, l1 = a1 ++ x :: a2 ->
          health_score_at (time (readings keys + used a1)) x < s)
       /\ (forall a1 x a2, l2 = a1 ++ x :: a2 ->
          ~ s < health_score_at
                  (time (readings keys + used (l1 ++ k :: a1))) x).
Proof.
  intros Hav. unfold acquire.
  pose proof (available_from_count keys 0) as Hn.
  destruct (available_from 0 keys) as [available n1]. simpl in Hav, Hn.
  subst available n1. simpl (0 + _)%nat.
  set (R1 := readings keys).
  destruct (scored_from R1 (a :: l)) as [|ks kss] eqn:Es; [discriminate|].
  destruct (py_max_first_max Qgt_bool snd Qlt Qgt_bool_lt Qlt_trans
              ltac:(intros x y z Hn Hlt; apply Qnot_lt_le in Hn;
                    eapply Qle_lt_trans; eauto) ks kss)
    as (r & Hr & s1 & s2 & E & H1 & H2).
  injection Hr as Hr. rewrite Hr. destruct r as [k s]. simpl.
  pose proof (scored_from_fst (a :: l) R1) as Hf.
  rewrite Es, E, map_app in Hf. simpl in Hf.
  exists (map fst s1), k, (map fst s2).
  split; [symmetry; exact Hf|]. split; [reflexivity|].
  rewrite <- Hf in Es. rewrite scored_from_app in Es. simpl in Es.
  rewrite E in Es. apply app_inj_1 in Es.
  2:{ rewrite <- (length_map fst (scored_from R1 (map fst s1))).
      rewrite scored_from_fst. apply length_map. }
  destruct Es as [Es1 Es2]. injection Es2 as Es2 Es3.
  fold R1. rewrite Es2. split.
  - intros a1 x a2 Ea. apply (H1 (x, health_score_at (time (R1 + used a1)) x)).
    rewrite <- Es1. apply scored_from_In. eauto.
  - intros a1 x a2 Ea.
    apply (H2 (x, health_score_at
                    (time (R1 + used (map fst s1 ++ k :: a1))) x)).
    rewrite <- Es3. apply scored_from_In. exists a1, a2. split; [exact Ea|].
    f_equal. f_equal. rewrite used_app, used_cons.
    destruct (Qeq_bool (last_used k) 0); simpl; lia.
Qed.

Lemma available_from_steady (now : Q) (keys : list KeyRecord) :
  (forall n, time n = now) ->
  forall n,
    fst (available_from n keys)
    = List.filter
        (fun k => active k && Qle_bool (cooldown_until k) now
                  && Qlt_bool (lit rnd (1 # 1000)) (budget_remaining k)) keys.
Proof.
  intros Ht. induction keys as [|k ks IH]; intros n; simpl; [reflexivity|].
  unfold is_available. rewrite Ht.
  destruct (active k); simpl.
  - specialize (IH (S n)). destruct (available_from (S n) ks) as [l n2].
    simpl in *. rewrite IH. reflexivity.
  - specialize (IH n). destruct (available_from n ks) as [l n2].
    simpl in *. exact IH.
Qed.

(** C3. [acquire], every float operation rounded by [rnd] and every reading
    of the clock kept apart; [readings l1] readings precede the test of the
    record that follows [l1] in the pool.
    - The pool is left as it was.
    - [passes t k]: [k] is active, its cooldown is over at [t] and more than
      0.001 of its budget is left; [still_cooling t k]: [k] is active and its
      cooldown is not over at [t].
    - The credentials kept are those that are active, past their cooldown at
      the reading made for them, and with more than 0.001 of budget left.
    - When none is kept, a second scan reads the clock again per active
      record: if it finds records still cooling, [acquire] fails with
      [Exhausted], reporting the least of their cooldowns minus one more
      reading (0 when that is negative); otherwise with [NoneAvailable].
    - When some are kept, [acquire] returns the first kept credential of
      greatest [health_score], each score taken at its own reading.
    - With a clock that stands still this is: keep the active credentials
      with elapsed cooldown and budget left; [Exhausted] with the least
      remaining cooldown if none is kept and one is cooling, [NoneAvailable]
      if none is cooling, else the first kept one of maximal score. *)
Theorem acquire_spec (keys : list KeyRecord) :
  let R1 := readings keys in
  let available := fst (available_from 0 keys) in
  snd (acquire keys) = keys
  /\ ((forall t k,
         passes t k
         <-> active k = true /\ cooldown_until k <= t
             /\ rnd (1 # 1000)
                < Qmax 0 (rnd (monthly_budget_usd k - estimated_cost_usd k)))
      /\ (forall t k,
            still_cooling t k <-> active k = true /\ t < cooldown_until k)
      /\ (forall l, readings l = length (List.filter active l)))
  /\ (forall k, In k available
        <-> exists l1 l2, keys = l1 ++ k :: l2
                          /\ passes (time (readings l1)) k)
  /\ (available = [] ->
      ((exists l1 k l2, keys = l1 ++ k :: l2
           /\ still_cooling (time (R1 + readings l1)) k) ->
       exists l1 k l2,
         keys = l1 ++ k :: l2
         /\ still_cooling (time (R1 + readings l1)) k
         /\ fst (acquire keys)
            = inl (Exhausted
                     (Qmax 0 (fsub rnd (cooldown_until k) (time (R1 + R1)))))
         /\ forall l1' k' l2',
              keys = l1' ++ k' :: l2' ->
              still_cooling (time (R1 + readings l1')) k' ->
              cooldown_until k <= cooldown_until k')
      /\ ((forall l1 k l2, keys = l1 ++ k :: l2 ->
             ~ still_cooling (time (R1 + readings l1)) k) ->
          fst (acquire keys) = inl NoneAvailable))
  /\ (available <> [] ->
      exists l1 k l2,
        available = l1 ++ k :: l2
        /\ fst (acquire keys) = inr k
        /\ let s := health_score_at (time (R1 + used l1)) k in
           (forall a1 x a2, l1 = a1 ++ x :: a2 ->
              health_score_at (time (R1 + used a1)) x < s)
           /\ (forall a1 x a2, l2 = a1 ++ x :: a2 ->
              ~ s < health_score_at (time (R1 + used (l1 ++ k :: a1))) x))
  /\ (forall now, (forall n, time n = now) ->
      (forall k, In k available <-> In k keys /\ passes now k)
      /\ (available = [] -> (exists k, In k keys /\ still_cooling now k) ->
          exists k,
            In k keys /\ still_cooling now k
            /\ fst (acquire keys)
               = inl (Exhausted (Qmax 0 (fsub rnd (cooldown_until k) now)))
            /\ forall k', In k' keys -> still_cooling now k' ->
                          cooldown_until k <= cooldown_until k')
      /\ (available = [] -> (forall k, In k keys -> ~ still_cooling now k) ->
          fst (acquire keys) = inl NoneAvailable)
      /\ (available <> [] ->
          exists k, fst (acquire keys) = inr k
            /\ first_max (health_score_at now) Qlt available k)).
Proof.
  intros R1 available.
  assert (Hmem : forall k, In k available
            <-> exists l1 l2, keys = l1 ++ k :: l2
                              /\ passes (time (readings l1)) k).
  { intros k. unfold available. rewrite available_from_In. reflexivity. }
  assert (Hex : available = [] ->
      (exists l1 k l2, keys = l1 ++ k :: l2
           /\ still_cooling (time (R1 + readings l1)) k) ->
       exists l1 k l2,
         keys = l1 ++ k :: l2
         /\ still_cooling (time (R1 + readings l1)) k
         /\ fst (acquire keys)
            = inl (Exhausted
                     (Qmax 0 (fsub rnd (cooldown_until k) (time (R1 + R1)))))
         /\ forall l1' k' l2',
              keys = l1' ++ k' :: l2' ->
              still_cooling (time (R1 + readings l1')) k' ->
              cooldown_until k <= cooldown_until k').
  { intros Hav (l0 & k0 & m0 & E0 & H0).
    rewrite (acquire_none_available keys Hav). fold R1.
    destruct (fst (active_cooldowns_from R1 keys)) as [|c cs] eqn:Ecs.
    - exfalso.
      assert (Hin : In (cooldown_until k0)
                      (fst (active_cooldowns_from R1 keys)))
        by (apply active_cooldowns_from_In; exists l0, k0, m0; auto).
      rewrite Ecs in Hin. exact Hin.
    - pose proof (py_min_Q_In cs c) as Hmin. rewrite <- Ecs in Hmin.
      apply active_cooldowns_from_In in Hmin.
      destruct Hmin as (l1 & k & l2 & E & Hc & Em).
      exists l1, k, l2. split; [exact E|]. split; [exact Hc|].
      split; [rewrite Em; reflexivity|].
      intros l1' k' l2' E' Hc'. rewrite <- Em.
      apply py_min_Q_lower. rewrite <- Ecs.
      apply active_cooldowns_from_In. exists l1', k', l2'. auto. }
  assert (Hnone : available = [] ->
      (forall l1 k l2, keys = l1 ++ k :: l2 ->
             ~ still_cooling (time (R1 + readings l1)) k) ->
      fst (acquire keys) = inl NoneAvailable).
  { intros Hav Hno. rewrite (acquire_none_available keys Hav). fold R1.
    destruct (fst (active_cooldowns_from R1 keys)) as [|c cs] eqn:Ecs;
      [reflexivity|].
    exfalso.
    assert (Hin : In c (fst (active_cooldowns_from R1 keys)))
      by (rewrite Ecs; left; reflexivity).
    apply active_cooldowns_from_In in Hin.
    destruct Hin as (l1 & k & l2 & E & Hc & _). exact (Hno l1 k l2 E Hc). }
  assert (Hsome : available <> [] ->
      exists l1 k l2,
        available = l1 ++ k :: l2
        /\ fst (acquire keys) = inr k
        /\ let s := health_score_at (time (R1 + used l1)) k in
           (forall a1 x a2, l1 = a1 ++ x :: a2 ->
              health_score_at (time (R1 + used a1)) x < s)
           /\ (forall a1 x a2, l2 = a1 ++ x :: a2 ->
              ~ s < health_score_at (time (R1 + used (l1 ++ k :: a1))) x)).
  { intros Hne. destruct available as [|a l] eqn:Eav; [congruence|].
    apply (acquire_some_available keys a l Eav). }
  split; [apply acquire_keeps_pool|].
  split.
  { split; [intros t k; reflexivity|].
    split; [intros t k; reflexivity|intros l; reflexivity]. }
  split; [exact Hmem|]. split; [auto|]. split; [exact Hsome|].
  intros now Ht.
  split; [|split; [|split]].
  - intros k. rewrite Hmem, <- (split_In (passes now)).
    split; intros (l1 & l2 & E & H); exists l1, l2; split; auto.
    + rewrite Ht in H. exact H.
    + rewrite Ht. exact H.
  - intros Hav (k0 & Hk0 & Hc0).
    apply in_split in Hk0. destruct Hk0 as (l0 & m0 & E0).
    destruct (Hex Hav) as (l1 & k & l2 & E & Hc & Hr & Hmin).
    { exists l0, k0, m0. rewrite Ht. auto. }
    rewrite !Ht in *. exists k. split; [rewrite E; apply in_elt|].
    split; [exact Hc|]. split; [exact Hr|].
    intros k' Hk' Hc'. apply in_split in Hk'.
    destruct Hk' as (l1' & l2' & E'). apply (Hmin l1' k' l2' E').
    rewrite Ht. exact Hc'.
  - intros Hav Hno. apply (Hnone Hav).
    intros l1 k l2 E. rewrite Ht. apply Hno. rewrite E. apply in_elt.
  - intros Hne. destruct (Hsome Hne) as (l1 & k & l2 & E & Hr & H1 & H2).
    exists k. split; [exact Hr|]. exists l1, l2. split; [exact E|].
    rewrite !Ht in *. split.
    + intros x Hx. apply in_split in Hx. destruct Hx as (a1 & a2 & Ea).
      specialize (H1 a1 x a2 Ea). rewrite Ht in H1. exact H1.
    + intros x Hx. apply in_split in Hx. destruct Hx as (a1 & a2 & Ea).
      specialize (H2 a1 x a2 Ea). rewrite Ht in H2. exact H2.
Qed.

End Clocked.

(** ** Concrete pools, in binary64 and in exact arithmetic *)

(** A record as [_load_from_env] builds it, its floats being binary64
    numbers. *)
Definition fresh_key (k a : string) (budget : Q) : KeyRecord :=
  mkKeyRecord k "anthropic" a (round budget) (round (15 # 1000))
    (round (75 # 1000)) 0 0 0 0 0 0 true.

Definition steady (now : Q) : nat -> Q := fun _ => now.

(** The clock of a list of readings; the last one is repeated. *)
Definition clock_of (readings : list Q) : nat -> Q :=
  fun n => List.nth n readings (List.last readings 0).

(** 66600 input tokens on a budget of 1.0: the cost is 0.999 exactly, which
    leaves 0.001, not above the threshold; in binary64 the cost is
    0.9989999999999999, and what is left is above the binary64 0.001. *)
Example budget_threshold_rounding :
  let k := set_tokens 66600 0 (fresh_key "sk" "primary" 1) in
  estimated_cost_usd round k == 4499096027743125 # 4503599627370496
  /\ budget_remaining round k == 4503599627371 # 4503599627370496
  /\ round (1 # 1000) < budget_remaining round k
  /\ fst (acquire round (steady 1000) [k]) = inr k
  /\ fst (acquire exact (steady 1000)
            [set_tokens 66600 0 (KeyManager.fresh_key "sk" "primary" 1)])
     = inl NoneAvailable.
Proof. vm_compute. repeat split; congruence. Qed.

(** Two credentials that have used the same share of their budgets: the
    scores are equal exactly, 0.97, and the first one wins; in binary64 the
    second one scores 0.9700000000000001 and wins. *)
Example health_tie_rounding :
  let a := set_tokens 2000 0 (fresh_key "sk-0" "primary" 1) in
  let b := set_tokens 6000 0 (fresh_key "sk-1" "key_1" 3) in
  health_score_at round 1000 a == 4368491638549381 # 4503599627370496
  /\ health_score_at round 1000 b == 8736983277098763 # 9007199254740992
  /\ fst (acquire round (steady 1000) [a; b]) = inr b
  /\ fst (acquire exact (steady 1000)
            [set_tokens 2000 0 (KeyManager.fresh_key "sk-0" "primary" 1);
             set_tokens 6000 0 (KeyManager.fresh_key "sk-1" "key_1" 3)])
     = inr (set_tokens 2000 0 (KeyManager.fresh_key "sk-0" "primary" 1)).
Proof. vm_compute. repeat split; congruence. Qed.

(** A credential cooling down until 1000.5.  If the clock passes 1000.5
    between the two scans, no cooldown is found and the failure is
    [NoneAvailable]; if it passes 1000.5 after the second scan, the wait
    is negative and 0 is reported. *)
Example acquire_between_readings :
  let k := set_cooldown_until (2001 # 2) (fresh_key "sk" "primary" 10) in
  fst (acquire round (clock_of [1000; 1001; 1002]) [k]) = inl NoneAvailable
  /\ fst (acquire round (clock_of [1000; 4001 # 4; 1001]) [k])
     = inl (Exhausted 0)
  /\ (exists w, fst (acquire round (steady 1000) [k]) = inl (Exhausted w)
                /\ w == 1 # 2).
Proof.
  vm_compute. split; [reflexivity|]. split; [reflexivity|].
  eexists. split; reflexivity.
Qed.

(** A credential used 100 seconds ago gets the recency boost 0.01. *)
Example recency_boost_example :
  let a := set_last_used 900 (fresh_key "sk-0" "primary" 10) in
  health_score_at round 1000 a == round (101 # 100)
  /\ fst (acquire round (steady 1000) [fresh_key "sk-1" "key_1" 10; a])
     = inr a.
Proof. vm_compute. repeat split; congruence. Qed.

Lemma max_from_scored {A : Type} (f : A -> Q) (l : list A) :
  forall best,
    max_from Qgt_bool snd (best, f best) (map (fun k => (k, f k)) l)
    = (max_from Qgt_bool f best l, f (max_from Qgt_bool f best l)).
Proof.
  induction l as [|x l IH]; intros best; simpl; [reflexivity|].
  destruct (Qgt_bool (f x) (f best)); apply IH.
Qed.

Lemma scored_from_steady (rnd : Q -> Q) (now : Q) (l : list KeyRecord) :
  forall n,
    scored_from rnd (steady now) n l
    = map (fun k => (k, health_score_at rnd now k)) l.
Proof.
  induction l as [|k ks IH]; intros n; simpl; [reflexivity|].
  rewrite IH. reflexivity.
Qed.

Lemma active_cooldowns_from_steady (now : Q) (keys : list KeyRecord) :
  forall n,
    fst (active_cooldowns_from (steady now) n keys)
    = KeyManager.active_cooldowns now keys.
Proof.
  unfold KeyManager.active_cooldowns.
  induction keys as [|k ks IH]; intros n; simpl; [reflexivity|].
  destruct (active k); simpl.
  - specialize (IH (S n)).
    destruct (active_cooldowns_from (steady now) (S n) ks) as [l n2].
    simpl in *. unfold steady at 1.
    destruct (Qlt_bool now (cooldown_until k)); simpl; rewrite IH; reflexivity.
  - apply IH.
Qed.

(** With exact arithmetic and a clock that stands still, this [acquire] is
    the one-reading [KeyManager.acquire] that the call layer is run on. *)
Lemma acquire_exact_steady (now : Q) (keys : list KeyRecord) :
  acquire exact (steady now) keys = KeyManager.acquire now keys.
Proof.
  unfold acquire, KeyManager.acquire.
  pose proof (available_from_steady exact (steady now) now keys
                (fun _ => eq_refl) 0%nat) as Hav.
  destruct (available_from exact (steady now) 0 keys) as [available n1].
  simpl in Hav. subst available.
  change (fun k => active k && Qle_bool (cooldown_until k) now
                   && Qlt_bool (lit exact (1 # 1000))
                        (budget_remaining exact k))
    with (KeyManager.is_available now).
  rewrite scored_from_steady.
  destruct (List.filter (KeyManager.is_available now) keys) as [|k ks]; simpl.
  - pose proof (active_cooldowns_from_steady now keys n1) as Hc.
    destruct (active_cooldowns_from (steady now) n1 keys) as [cooldowns n2].
    simpl in Hc. subst cooldowns.
    destruct (KeyManager.active_cooldowns now keys); reflexivity.
  - rewrite (max_from_scored (health_score_at exact now)). reflexivity.
Qed.

End KeyManagerRounded.

(** * core/llm_client.py *)

Module LLMClient.
Local Open Scope Q_scope.

Definition MODEL : string := "claude-sonnet-4-6".
Definition MAX_RETRIES : nat := 4.
Definition BASE_DELAY : Q := 12 # 10.

Record LLMResponse := mkLLMResponse {
  text : string;
  tokens_in : Z;
  tokens_out : Z;
  model : string;
  key_alias : string;
  latency_ms : Q
}.

(** Exceptions that no handler of [chat_full] catches: they leave the call
    as they are. *)
Inductive Uncaught :=
| UnicodeDecodeError   (* [raw.decode("utf-8")] on bytes that are not UTF-8 *)
| AttributeError       (* [.get] on a JSON value that is not an object *)
| TypeError            (* [int(None)], a loop over a number, [join] of a non-string *)
| ValueError           (* [int("abc")] *)
| OtherException (name : string).  (* from [urlopen] or [read]: socket.timeout,
                                      RemoteDisconnected, IncompleteRead, ... *)

(** The decoded JSON body of a 2xx answer, as far as [chat_full] reads it
    after the usage has been reported. *)

(** What [block["text"]] finds. *)
Inductive TextField :=
| NoText               (* no such key: KeyError *)
| Text (s : string)
| NotAString.          (* a value that is not a string *)

(** One item of the loop over [body.get("content", [])]. *)
Inductive ContentBlock :=
| Object (block_type : option string)  (* ["type"], when it is a string *)
         (block_text : TextField)
| NotAnObject.         (* [block.get] raises AttributeError *)

Inductive Content :=
| Blocks (blocks : list ContentBlock)  (* [[]] when the key is absent *)
| NotIterable.         (* the loop raises TypeError *)

Record Body := mkBody {
  input_tokens : Z;             (* int(usage.input_tokens), 0 when absent *)
  output_tokens : Z;            (* int(usage.output_tokens), 0 when absent *)
  content : Content;
  body_model : option string
}.

(** What the [try] block of one attempt meets before the usage is
    reported. *)
Inductive HttpOutcome :=
| Http2xx (body : option Body)               (* None: json.loads raises
                                                JSONDecodeError *)
| HTTPError (status : Z) (err_body : string) (* any non-2xx status *)
| URLError (reason : string)
| Raised (e : Uncaught).  (* any other exception of [urlopen], [read],
                             [decode] or the reading of the usage *)

(** The exception remembered in [last_error]. *)
Inductive LastError :=
| LastHTTPError (status : Z) (err_body : string)
| LastURLError (reason : string).

(** The exceptions that leave [chat_full]. *)
Inductive ChatError :=
| AcquireFailed (e : KeyManager.AcquireError)
| ApiError (status : Z) (err_body : string)     (* "API error {}: {}" *)
| UnexpectedFormat                             (* "Unexpected API response format" *)
| RetriesExhausted (attempts : nat) (last_error : option LastError)
| Escaped (e : Uncaught).

(** The state [chat_full] acts on: the credential pool, the wall clock, the
    sleeps performed so far (oldest first) and the number of requests sent. *)
Record World := mkWorld {
  pool : list KeyManager.KeyRecord;
  clock : Q;
  slept : list Q;
  sent : nat
}.

Definition sleep (wait : Q) (w : World) : World :=
  mkWorld (pool w) (clock w + wait) (slept w ++ [wait]) (sent w).

(** [block.get("type") == "text"] on an object. *)
Definition is_text (block_type : option string) : bool :=
  match block_type with
  | Some t => String.eqb t "text"
  | None => false
  end.

(** The exception that stops the list comprehension. *)
Inductive PartsError := KeyError | BlockAttributeError.

(** [[block["text"] for block in content if block.get("type") == "text"]];
    [None] in the list is a text that is not a string. *)
Fixpoint text_parts (blocks : list ContentBlock)
  : PartsError + list (option string) :=
  match blocks with
  | [] => inr []
  | NotAnObject :: _ => inl BlockAttributeError
  | Object ty txt :: bs =>
      if is_text ty then
        match txt with
        | NoText => inl KeyError
        | Text s =>
            match text_parts bs with
            | inl e => inl e
            | inr ts => inr (Some s :: ts)
            end
        | NotAString =>
            match text_parts bs with
            | inl e => inl e
            | inr ts => inr (None :: ts)
            end
        end
      else text_parts bs
  end.

(** The strings of [parts], or [None] when one of them is not a string and
    ["\n".join] raises TypeError. *)
Fixpoint all_strings (parts : list (option string)) : option (list string) :=
  match parts with
  | [] => Some []
  | None :: _ => None
  | Some s :: ps =>
      match all_strings ps with
      | None => None
      | Some ss => Some (s :: ss)
      end
  end.

(** [status in (429, 529) or status >= 500] *)
Definition is_transient (status : Z) : bool :=
  ((status =? 429) || (status =? 529) || (500 <=? status))%Z.

(** [2 ** attempt] for the loop index. *)
Definition pow2 (attempt : nat) : Q := inject_Z (2 ^ Z.of_nat attempt).

Inductive Step :=
| Continue (w : World) (e : LastError)
| Done (w : World) (r : ChatError + LLMResponse).

(** Sample pools, transports and jitter for the concrete runs. *)

Definition four_keys : list KeyManager.KeyRecord :=
  [KeyManager.fresh_key "sk-0" "primary" 10;
   KeyManager.fresh_key "sk-1" "key_1" 10;
   KeyManager.fresh_key "sk-2" "key_2" 10;
   KeyManager.fresh_key "sk-3" "key_3" 10].

Definition world_of (keys : list KeyManager.KeyRecord) : World :=
  mkWorld keys 1000 [] 0.

Definition always (status : Z) (err_body : string)
  : nat -> KeyManager.KeyRecord -> Q * HttpOutcome :=
  fun _ _ => (1 # 2, HTTPError status err_body).

Definition jitter_04 : nat -> Q := fun _ => 4 # 10.

Section Loop.
(** The network: the time the request of a given attempt takes with a given
    credential, and its outcome. *)
Variable transport : nat -> KeyManager.KeyRecord -> Q * HttpOutcome.
(** [random.uniform(0.0, 0.8)] as drawn in a given attempt. *)
Variable jitter : nat -> Q.

(** What follows [km.report_usage] in the [try] block. *)
Definition read_content (body : Body) (a : string) (elapsed : Q)
  : ChatError + LLMResponse :=
  match content body with
  | NotIterable => inl (Escaped TypeError)
  | Blocks blocks =>
      match text_parts blocks with
      | inl KeyError => inl UnexpectedFormat
      | inl BlockAttributeError => inl (Escaped AttributeError)
      | inr parts =>
          match all_strings parts with
          | None => inl (Escaped TypeError)
          | Some ss =>
              inr (mkLLMResponse
                     (PyStr.strip (PyStr.join PyStr.newline ss))
                     (input_tokens body) (output_tokens body)
                     (match body_model body with
                      | Some m => m
                      | None => MODEL
                      end)
                     a (elapsed * 1000))
          end
      end
  end.

(** One iteration of [for attempt in range(MAX_RETRIES)]. *)
Definition attempt_once (attempt : nat) (w : World) : Step :=
  match KeyManager.acquire (clock w) (pool w) with
  | (inl e, keys) =>
      Done (mkWorld keys (clock w) (slept w) (sent w)) (inl (AcquireFailed e))
  | (inr key_record, keys) =>
      let a := KeyManager.alias key_record in
      let (elapsed, outcome) := transport attempt key_record in
      let now := clock w + elapsed in
      let n := S (sent w) in
      match outcome with
      | Http2xx None =>
          Done (mkWorld keys now (slept w) n) (inl UnexpectedFormat)
      | Raised e =>
          Done (mkWorld keys now (slept w) n) (inl (Escaped e))
      | Http2xx (Some body) =>
          let ti := input_tokens body in
          let to := output_tokens body in
          let keys1 := KeyManager.report_usage now a ti to keys in
          Done (mkWorld keys1 now (slept w) n) (read_content body a elapsed)
      | HTTPError status err_body =>
          let keys1 := KeyManager.report_error now a status keys in
          let w1 := mkWorld keys1 now (slept w) n in
          if is_transient status then
            let wait := BASE_DELAY * pow2 attempt + jitter attempt in
            Continue (sleep wait w1) (LastHTTPError status err_body)
          else Done w1 (inl (ApiError status err_body))
      | URLError reason =>
          let keys1 := KeyManager.report_error now a 503 keys in
          let w1 := mkWorld keys1 now (slept w) n in
          Continue (sleep (BASE_DELAY * pow2 attempt) w1) (LastURLError reason)
      end
  end.

(** The loop with [remaining] iterations to go, then the final [raise]. *)
Fixpoint chat_loop (remaining attempt : nat) (last_error : option LastError)
  (w : World) : World * (ChatError + LLMResponse) :=
  match remaining with
  | O => (w, inl (RetriesExhausted MAX_RETRIES last_error))
  | S remaining' =>
      match attempt_once attempt w with
      | Done w' r => (w', r)
      | Continue w' e => chat_loop remaining' (S attempt) (Some e) w'
      end
  end.

Definition chat_full (w : World) : World * (ChatError + LLMResponse) :=
  chat_loop MAX_RETRIES 0 None w.

(** [chat] is [chat_full(...).text]. *)
Definition chat (w : World) : World * (ChatError + string) :=
  match chat_full w with
  | (w', inl e) => (w', inl e)
  | (w', inr r) => (w', inr (text r))
  end.

(** ** Properties of the retry loop *)

Lemma acquire_ok_pair (w : World) (k : KeyManager.KeyRecord) :
  fst (KeyManager.acquire (clock w) (pool w)) = inr k ->
  KeyManager.acquire (clock w) (pool w) = (inr k, pool w).
Proof.
  intros H. pose proof (KeyManager.acquire_pool_unchanged (clock w) (pool w)) as Hs.
  destruct (KeyManager.acquire (clock w) (pool w)) as [r keys].
  simpl in *. subst. reflexivity.
Qed.

Lemma is_transient_iff (status : Z) :
  is_transient status = true
  <-> status = 429%Z \/ status = 529%Z \/ (500 <= status)%Z.
Proof.
  unfold is_transient. rewrite !orb_true_iff, !Z.eqb_eq, Z.leb_le. tauto.
Qed.

Lemma record_error_fatal (now : Q) (status : Z) (k : KeyManager.KeyRecord) :
  is_transient status = false -> KeyManager.record_error now status k = k.
Proof.
  unfold is_transient, KeyManager.record_error. intros H.
  apply orb_false_iff in H. destruct H as [H ->]. rewrite H. reflexivity.
Qed.

(** After the usage is reported the call ends in a response,
    [UnexpectedFormat] or an escaping exception. *)
Lemma read_content_cases (body : Body) (a : string) (elapsed : Q) :
  (exists r, read_content body a elapsed = inr r
             /\ tokens_in r = input_tokens body
             /\ tokens_out r = output_tokens body /\ key_alias r = a)
  \/ read_content body a elapsed = inl UnexpectedFormat
  \/ exists e, read_content body a elapsed = inl (Escaped e).
Proof.
  unfold read_content.
  destruct (content body) as [blocks|]; [|right; right; eauto].
  destruct (text_parts blocks) as [[|]|parts]; [right; left; reflexivity
                                               |right; right; eauto|].
  destruct (all_strings parts); [|right; right; eauto].
  left. eexists. split; [reflexivity|]. simpl. auto.
Qed.

Lemma attempt_once_effects (attempt : nat) (w : World) :
  match attempt_once attempt w with
  | Continue w' _ =>
      sent w' = S (sent w) /\ exists wait, slept w' = slept w ++ [wait]
  | Done w' r =>
      (sent w' <= S (sent w))%nat /\ slept w' = slept w
      /\ forall n le, r <> inl (RetriesExhausted n le)
  end.
Proof.
  unfold attempt_once.
  destruct (KeyManager.acquire (clock w) (pool w)) as [[e|k] keys].
  - simpl. split; [lia|]. split; [reflexivity|]. discriminate.
  - destruct (transport attempt k)
      as [elapsed [[body|]|status err_body|reason|e]].
    + simpl. split; [lia|]. split; [reflexivity|]. intros n le.
      destruct (read_content_cases body (KeyManager.alias k) elapsed)
        as [(r & -> & _)|[->|(e & ->)]]; discriminate.
    + simpl. split; [lia|]. split; [reflexivity|]. discriminate.
    + destruct (is_transient status); simpl.
      * split; [reflexivity|]. eexists. reflexivity.
      * split; [lia|]. split; [reflexivity|]. discriminate.
    + simpl. split; [reflexivity|]. eexists. reflexivity.
    + simpl. split; [lia|]. split; [reflexivity|]. discriminate.
Qed.

(** A [continue] comes from a transient HTTP status or a transport failure,
    and remembers it. *)
Lemma attempt_once_continue (attempt : nat) (w w' : World) (e : LastError) :
  attempt_once attempt w = Continue w' e ->
  exists k elapsed,
    fst (KeyManager.acquire (clock w) (pool w)) = inr k
    /\ ((exists status err_body,
            transport attempt k = (elapsed, HTTPError status err_body)
            /\ is_transient status = true
            /\ e = LastHTTPError status err_body)
        \/ (exists reason,
            transport attempt k = (elapsed, URLError reason)
            /\ e = LastURLError reason)).
Proof.
  unfold attempt_once.
  destruct (KeyManager.acquire (clock w) (pool w)) as [[e0|k] keys];
    [discriminate|].
  destruct (transport attempt k) as [elapsed outcome] eqn:Etr.
  destruct outcome as [[body|]|status err_body|reason|e1].
  - discriminate.
  - discriminate.
  - destruct (is_transient status) eqn:Et; [|discriminate].
    intros H. injection H as _ <-. exists k, elapsed.
    split; [reflexivity|]. left. eauto.
  - intros H. injection H as _ <-. exists k, elapsed.
    split; [reflexivity|]. right. eauto.
  - discriminate.
Qed.

Lemma chat_loop_bounds (remaining : nat) :
  forall attempt last_error w,
    (sent (fst (chat_loop remaining attempt last_error w))
       <= sent w + remaining)%nat
    /\ (length (slept (fst (chat_loop remaining attempt last_error w)))
       <= length (slept w) + remaining)%nat.
Proof.
  induction remaining as [|n IH]; intros attempt last_error w; simpl.
  - lia.
  - pose proof (attempt_once_effects attempt w) as He.
    destruct (attempt_once attempt w) as [w' e|w' r].
    + destruct He as [Hs [wait Hw]].
      destruct (IH (S attempt) (Some e) w') as [H1 H2].
      rewrite Hs, Hw, length_app in *. simpl in *. lia.
    + destruct He as (Hs & Hw & _). simpl. rewrite Hw. lia.
Qed.

Lemma chat_loop_fatal (remaining attempt : nat) (last_error : option LastError)
  (w : World) (k : KeyManager.KeyRecord) (elapsed : Q) (status : Z)
  (err_body : string) :
  fst (KeyManager.acquire (clock w) (pool w)) = inr k ->
  transport attempt k = (elapsed, HTTPError status err_body) ->
  is_transient status = false ->
  chat_loop (S remaining) attempt last_error w
  = (mkWorld (pool w) (clock w + elapsed) (slept w) (S (sent w)),
     inl (ApiError status err_body)).
Proof.
  intros Hk Ht Hs. simpl. unfold attempt_once.
  rewrite (acquire_ok_pair w k Hk), Ht, Hs.
  unfold KeyManager.report_error.
  rewrite KeyManager.update_first_id; [reflexivity|].
  intros k' _. apply record_error_fatal, Hs.
Qed.

Lemma attempt_once_transient (attempt : nat) (w : World)
  (k : KeyManager.KeyRecord) (elapsed : Q) (status : Z) (err_body : string) :
  fst (KeyManager.acquire (clock w) (pool w)) = inr k ->
  transport attempt k = (elapsed, HTTPError status err_body) ->
  is_transient status = true ->
  attempt_once attempt w
  = Continue
      (mkWorld
         (KeyManager.report_error (clock w + elapsed) (KeyManager.alias k)
            status (pool w))
         (clock w + elapsed + (BASE_DELAY * pow2 attempt + jitter attempt))
         (slept w ++ [BASE_DELAY * pow2 attempt + jitter attempt])
         (S (sent w)))
      (LastHTTPError status err_body).
Proof.
  intros Hk Ht Hs. unfold attempt_once.
  rewrite (acquire_ok_pair w k Hk), Ht, Hs. reflexivity.
Qed.

Lemma chat_full_four_continues (w0 w1 w2 w3 w4 : World)
  (e0 e1 e2 e3 : LastError) :
  attempt_once 0 w0 = Continue w1 e0 ->
  attempt_once 1 w1 = Continue w2 e1 ->
  attempt_once 2 w2 = Continue w3 e2 ->
  attempt_once 3 w3 = Continue w4 e3 ->
  chat_full w0 = (w4, inl (RetriesExhausted 4 (Some e3))).
Proof.
  intros H0 H1 H2 H3. unfold chat_full, MAX_RETRIES. simpl.
  rewrite H0, H1, H2, H3. reflexivity.
Qed.

Lemma chat_full_exhausted_inv (w w' : World) (n : nat)
  (le : option LastError) :
  chat_full w = (w', inl (RetriesExhausted n le)) ->
  n = 4%nat
  /\ exists w1 w2 w3 e0 e1 e2 e3,
      attempt_once 0 w = Continue w1 e0
      /\ attempt_once 1 w1 = Continue w2 e1
      /\ attempt_once 2 w2 = Continue w3 e2
      /\ attempt_once 3 w3 = Continue w' e3
      /\ le = Some e3.
Proof.
  unfold chat_full, MAX_RETRIES. simpl.
  pose proof (attempt_once_effects 0 w) as E0.
  destruct (attempt_once 0 w) as [w1 e0|w1 r0] eqn:A0.
  2: { intros H. injection H as _ ->. destruct E0 as (_ & _ & E0).
       exfalso. eapply E0. reflexivity. }
  pose proof (attempt_once_effects 1 w1) as E1.
  destruct (attempt_once 1 w1) as [w2 e1|w2 r1] eqn:A1.
  2: { intros H. injection H as _ ->. destruct E1 as (_ & _ & E1).
       exfalso. eapply E1. reflexivity. }
  pose proof (attempt_once_effects 2 w2) as E2.
  destruct (attempt_once 2 w2) as [w3 e2|w3 r2] eqn:A2.
  2: { intros H. injection H as _ ->. destruct E2 as (_ & _ & E2).
       exfalso. eapply E2. reflexivity. }
  pose proof (attempt_once_effects 3 w3) as E3.
  destruct (attempt_once 3 w3) as [w4 e3|w4 r3] eqn:A3.
  2: { intros H. injection H as _ ->. destruct E3 as (_ & _ & E3).
       exfalso. eapply E3. reflexivity. }
  intros H. injection H as -> <- <-.
  split; [reflexivity|].
  exists w1, w2, w3, e0, e1, e2, e3. auto.
Qed.

Section Jitter.
Hypothesis jitter_range : forall attempt, 0 <= jitter attempt <= 8 # 10.

(** C4. In [chat_full], for a request answered by an HTTP error:
    - status 429, 529 or at least 500: the error is reported to the pool, the
      layer sleeps [BASE_DELAY * 2^attempt + jitter] with the jitter in
      [0, 0.8], and the loop goes on with the next attempt; before the
      jitter the delay doubles from one attempt to the next: 1.2, 2.4, 4.8
      and 9.6 seconds;
    - any other status: the call fails at once with [ApiError] carrying the
      status and the body, with no sleep and no further attempt, the pool
      untouched.
    No run sends more than 4 requests or sleeps more than 4 times.  Four
    attempts that all end in [continue] give [RetriesExhausted] with the
    cause of the fourth, and [RetriesExhausted] arises in no other way. *)
Theorem chat_full_retry_policy :
  (forall attempt w k elapsed status err_body,
      fst (KeyManager.acquire (clock w) (pool w)) = inr k ->
      transport attempt k = (elapsed, HTTPError status err_body) ->
      status = 429%Z \/ status = 529%Z \/ (500 <= status)%Z ->
      exists wait,
        wait = BASE_DELAY * inject_Z (2 ^ Z.of_nat attempt) + jitter attempt
        /\ BASE_DELAY * inject_Z (2 ^ Z.of_nat attempt) <= wait
        /\ wait <= BASE_DELAY * inject_Z (2 ^ Z.of_nat attempt) + (8 # 10)
        /\ let w' :=
             mkWorld
               (KeyManager.report_error (clock w + elapsed)
                  (KeyManager.alias k) status (pool w))
               (clock w + elapsed + wait) (slept w ++ [wait]) (S (sent w)) in
           attempt_once attempt w = Continue w' (LastHTTPError status err_body)
           /\ forall remaining last_error,
               chat_loop (S remaining) attempt last_error w
               = chat_loop remaining (S attempt)
                   (Some (LastHTTPError status err_body)) w')
  /\ (BASE_DELAY * inject_Z (2 ^ 0) == 12 # 10
      /\ BASE_DELAY * inject_Z (2 ^ 1) == 24 # 10
      /\ BASE_DELAY * inject_Z (2 ^ 2) == 48 # 10
      /\ BASE_DELAY * inject_Z (2 ^ 3) == 96 # 10)
  /\ (forall remaining attempt last_error w k elapsed status err_body,
      fst (KeyManager.acquire (clock w) (pool w)) = inr k ->
      transport attempt k = (elapsed, HTTPError status err_body) ->
      status <> 429%Z -> status <> 529%Z -> (status < 500)%Z ->
      chat_loop (S remaining) attempt last_error w
      = (mkWorld (pool w) (clock w + elapsed) (slept w) (S (sent w)),
         inl (ApiError status err_body)))
  /\ (forall w,
      (sent (fst (chat_full w)) <= sent w + 4)%nat
      /\ (length (slept (fst (chat_full w))) <= length (slept w) + 4)%nat)
  /\ (forall w0 w1 w2 w3 w4 e0 e1 e2 e3,
      attempt_once 0 w0 = Continue w1 e0 ->
      attempt_once 1 w1 = Continue w2 e1 ->
      attempt_once 2 w2 = Continue w3 e2 ->
      attempt_once 3 w3 = Continue w4 e3 ->
      chat_full w0 = (w4, inl (RetriesExhausted 4 (Some e3))))
  /\ (forall w w' n le,
      chat_full w = (w', inl (RetriesExhausted n le)) ->
      n = 4%nat
      /\ exists w1 w2 w3 e0 e1 e2 e3,
          attempt_once 0 w = Continue w1 e0
          /\ attempt_once 1 w1 = Continue w2 e1
          /\ attempt_once 2 w2 = Continue w3 e2
          /\ attempt_once 3 w3 = Continue w' e3
          /\ le = Some e3).
Proof.
  split; [|split; [|split; [|split; [|split]]]].
  - intros attempt w k elapsed status err_body Hk Ht Hs.
    apply is_transient_iff in Hs.
    exists (BASE_DELAY * inject_Z (2 ^ Z.of_nat attempt) + jitter attempt).
    destruct (jitter_range attempt) as [Hj0 Hj1].
    split; [reflexivity|]. split; [lra|]. split; [lra|].
    pose proof (attempt_once_transient attempt w k elapsed status err_body
                  Hk Ht Hs) as Hstep.
    split; [exact Hstep|].
    intros remaining last_error. simpl. rewrite Hstep. reflexivity.
  - repeat split.
  - intros remaining attempt last_error w k elapsed status err_body
      Hk Ht H429 H529 H500.
    apply (chat_loop_fatal remaining attempt last_error w k elapsed status
             err_body Hk Ht).
    destruct (is_transient status) eqn:E; [|reflexivity].
    apply is_transient_iff in E. lia.
  - intros w. apply (chat_loop_bounds MAX_RETRIES 0 None w).
  - exact chat_full_four_continues.
  - exact chat_full_exhausted_inv.
Qed.

End Jitter.

End Loop.

(** ** Concrete runs *)

Example overloaded_four_keys :
  let r := chat_full (always 500 "overloaded") jitter_04 (world_of four_keys) in
  snd r = inl (RetriesExhausted 4 (Some (LastHTTPError 500 "overloaded")))
  /\ sent (fst r) = 4%nat
  /\ map Qred (slept (fst r)) = [8 # 5; 14 # 5; 26 # 5; 10].
Proof. vm_compute. auto. Qed.

(** With one credential the retry of a 429 finds the pool cooling down:
    the second [acquire] raises and that exception leaves [chat_full]. *)
Example rate_limited_single_key :
  let r := chat_full (always 429 "slow down") jitter_04
             (world_of [KeyManager.fresh_key "sk-0" "primary" 10]) in
  (exists wait, snd r = inl (AcquireFailed (KeyManager.Exhausted wait))
                /\ Qred wait = 292 # 5)
  /\ sent (fst r) = 1%nat
  /\ map Qred (slept (fst r)) = [8 # 5].
Proof. vm_compute. split; [eexists; split; reflexivity|auto]. Qed.

Example unauthorized_is_fatal :
  let r := chat_full (always 401 "bad key") jitter_04 (world_of four_keys) in
  snd r = inl (ApiError 401 "bad key")
  /\ sent (fst r) = 1%nat /\ slept (fst r) = []
  /\ pool (fst r) = four_keys.
Proof. vm_compute. auto. Qed.

Lemma chat_full_retry_policy_witness :
  (forall attempt, 0 <= jitter_04 attempt <= 8 # 10)
  /\ (sent (fst (chat_full (always 500 "overloaded") jitter_04
                   (world_of four_keys)))
      <= sent (world_of four_keys) + 4)%nat.
Proof.
  assert (H : forall attempt, 0 <= jitter_04 attempt <= 8 # 10)
    by (intros attempt; split; intro Hc; discriminate Hc).
  split; [exact H|].
  exact (proj1 (proj1 (proj2 (proj2 (proj2
           (chat_full_retry_policy (always 500 "overloaded") jitter_04 H))))
           (world_of four_keys))).
Defined.

(** ** Further properties of the retry loop *)

(** [sum(waits)] *)
Definition total_wait (waits : list Q) : Q := fold_right Qplus 0 waits.

(** The longest the remaining attempts can sleep, from attempt [attempt] on. *)
Fixpoint max_wait (remaining attempt : nat) : Q :=
  match remaining with
  | O => 0
  | S n => BASE_DELAY * pow2 attempt + (8 # 10) + max_wait n (S attempt)
  end.

(** What [chat_full] never changes in a pool: which credentials it holds, in
    which order, their aliases, budgets, rates and activation. *)
Definition shape (k : KeyManager.KeyRecord)
  : string * string * Q * Q * Q * bool :=
  (KeyManager.key k, KeyManager.alias k, KeyManager.monthly_budget_usd k,
   KeyManager.cost_per_1k_input k, KeyManager.cost_per_1k_output k,
   KeyManager.active k).

(** The aliases and token counters of a pool. *)
Definition counters (keys : list KeyManager.KeyRecord)
  : list (string * Z * Z) :=
  map (fun k => (KeyManager.alias k, KeyManager.tokens_in k,
                 KeyManager.tokens_out k)) keys.

(** The exception with which a block stops the list comprehension, if it
    does. *)
Definition offends (b : ContentBlock) : option PartsError :=
  match b with
  | NotAnObject => Some BlockAttributeError
  | Object ty NoText => if is_text ty then Some KeyError else None
  | Object _ _ => None
  end.

(** What a block adds to the list when it does not stop the loop. *)
Definition contributes (b : ContentBlock) : list (option string) :=
  match b with
  | Object ty (Text s) => if is_text ty then [Some s] else []
  | Object ty NotAString => if is_text ty then [None] else []
  | _ => []
  end.

(** The sleeps of a run in which every request fails in transport. *)
Fixpoint url_waits (remaining attempt : nat) : list Q :=
  match remaining with
  | O => []
  | S n =>
      BASE_DELAY * inject_Z (2 ^ Z.of_nat attempt) :: url_waits n (S attempt)
  end.

Section MoreLoop.
Variable transport : nat -> KeyManager.KeyRecord -> Q * HttpOutcome.
Variable jitter : nat -> Q.

Lemma total_wait_snoc (l : list Q) (x : Q) :
  total_wait (l ++ [x]) == total_wait l + x.
Proof.
  unfold total_wait. induction l as [|y l IH]; simpl; [lra|].
  rewrite IH. lra.
Qed.

Lemma pow2_pos (attempt : nat) : 0 < pow2 attempt.
Proof.
  unfold pow2. change 0 with (inject_Z 0). rewrite <- Zlt_Qlt.
  apply Z.pow_pos_nonneg; lia.
Qed.

Lemma attempt_once_wait (attempt : nat) (w : World) :
  (forall a, 0 <= jitter a <= 8 # 10) ->
  match attempt_once transport jitter attempt w with
  | Continue w' _ =>
      exists wait, slept w' = slept w ++ [wait]
        /\ 0 < wait /\ wait <= BASE_DELAY * pow2 attempt + (8 # 10)
  | Done w' _ => slept w' = slept w
  end.
Proof.
  intros Hj. unfold attempt_once.
  destruct (KeyManager.acquire (clock w) (pool w)) as [[e|k] keys];
    [reflexivity|].
  destruct (transport attempt k)
    as [elapsed [[body|]|status err_body|reason|e]].
  - reflexivity.
  - reflexivity.
  - pose proof (pow2_pos attempt) as Hp. destruct (Hj attempt) as [J0 J1].
    assert (0 < BASE_DELAY * pow2 attempt)
      by (apply Qmult_lt_0_compat; [reflexivity|exact Hp]).
    destruct (is_transient status); simpl; [|reflexivity].
    eexists. split; [reflexivity|]. split; lra.
  - pose proof (pow2_pos attempt) as Hp.
    assert (0 < BASE_DELAY * pow2 attempt)
      by (apply Qmult_lt_0_compat; [reflexivity|exact Hp]).
    simpl. eexists. split; [reflexivity|]. split; lra.
  - reflexivity.
Qed.

Lemma chat_loop_total_wait (remaining : nat) :
  (forall a, 0 <= jitter a <= 8 # 10) ->
  forall attempt last_error w,
    let w' := fst (chat_loop transport jitter remaining attempt last_error w) in
    total_wait (slept w) <= total_wait (slept w')
    /\ total_wait (slept w')
       <= total_wait (slept w) + max_wait remaining attempt.
Proof.
  intros Hj. induction remaining as [|n IH]; intros attempt last_error w; simpl.
  - lra.
  - pose proof (attempt_once_wait attempt w Hj) as Hw.
    destruct (attempt_once transport jitter attempt w) as [w1 e|w1 r].
    + destruct Hw as (wait & Hs & H0 & H1).
      destruct (IH (S attempt) (Some e) w1) as [L U].
      rewrite Hs, total_wait_snoc in L, U. split; lra.
    + simpl. rewrite Hw.
      assert (0 <= max_wait n (S attempt)).
      { clear. generalize (S attempt). induction n as [|n IHn]; intros a;
          simpl; [lra|].
        pose proof (pow2_pos a) as Hp. specialize (IHn (S a)).
        assert (0 < BASE_DELAY * pow2 a)
          by (apply Qmult_lt_0_compat; [reflexivity|exact Hp]).
        lra. }
      pose proof (pow2_pos attempt) as Hp.
      assert (0 < BASE_DELAY * pow2 attempt)
        by (apply Qmult_lt_0_compat; [reflexivity|exact Hp]).
      split; lra.
Qed.

(** X7. With the jitter in [0, 0.8], one [chat_full] call sleeps for at most
    21.2 seconds in total (1.2 * (1 + 2 + 4 + 8) plus four jitters), and the
    time slept never goes down. *)
Theorem chat_full_total_wait (w : World) :
  (forall a, 0 <= jitter a <= 8 # 10) ->
  let w' := fst (chat_full transport jitter w) in
  total_wait (slept w') <= total_wait (slept w) + (106 # 5)
  /\ total_wait (slept w) <= total_wait (slept w').
Proof.
  intros Hj w'.
  destruct (chat_loop_total_wait MAX_RETRIES Hj 0 None w) as [L U].
  fold (chat_full transport jitter w) in L, U. fold w' in L, U.
  assert (E : max_wait MAX_RETRIES 0 == 106 # 5) by reflexivity.
  rewrite E in U. split; assumption.
Qed.

Lemma record_error_shape (now : Q) (status : Z) (k : KeyManager.KeyRecord) :
  shape (KeyManager.record_error now status k) = shape k.
Proof.
  unfold KeyManager.record_error.
  destruct ((status =? 429) || (status =? 529))%Z; [reflexivity|].
  destruct (500 <=? status)%Z; reflexivity.
Qed.

Lemma attempt_once_shape (attempt : nat) (w : World) :
  match attempt_once transport jitter attempt w with
  | Continue w' _ | Done w' _ => map shape (pool w') = map shape (pool w)
  end.
Proof.
  unfold attempt_once.
  pose proof (KeyManager.acquire_pool_unchanged (clock w) (pool w)) as Hp.
  destruct (KeyManager.acquire (clock w) (pool w)) as [[e|k] keys];
    simpl in Hp; subst keys; [reflexivity|].
  destruct (transport attempt k)
    as [elapsed [[body|]|status err_body|reason|e]].
  - simpl. apply KeyManager.update_first_map. reflexivity.
  - reflexivity.
  - destruct (is_transient status); simpl;
      apply KeyManager.update_first_map; intros; apply record_error_shape.
  - simpl. apply KeyManager.update_first_map. intros. apply record_error_shape.
  - reflexivity.
Qed.

(** X8. [chat_full] never adds, removes, reorders, renames, re-prices or
    deactivates a credential: the keys, aliases, budgets, rates and [active]
    flags of the pool are the same after the call, whatever its outcome. *)
Theorem chat_full_keeps_pool_shape (w : World) :
  map shape (pool (fst (chat_full transport jitter w))) = map shape (pool w).
Proof.
  unfold chat_full. generalize MAX_RETRIES, 0%nat, (@None LastError).
  intros n. revert w. induction n as [|n IH]; intros w attempt last; simpl.
  - reflexivity.
  - pose proof (attempt_once_shape attempt w) as Hs.
    destruct (attempt_once transport jitter attempt w) as [w1 e|w1 r].
    + rewrite IH. exact Hs.
    + exact Hs.
Qed.

Lemma counters_totals (keys keys' : list KeyManager.KeyRecord) :
  counters keys' = counters keys ->
  KeyManager.pool_tokens_in keys' = KeyManager.pool_tokens_in keys
  /\ KeyManager.pool_tokens_out keys' = KeyManager.pool_tokens_out keys
  /\ map KeyManager.alias keys' = map KeyManager.alias keys
  /\ map KeyManager.tokens_in keys' = map KeyManager.tokens_in keys
  /\ map KeyManager.tokens_out keys' = map KeyManager.tokens_out keys.
Proof.
  unfold counters, KeyManager.pool_tokens_in, KeyManager.pool_tokens_out.
  revert keys'. induction keys as [|k ks IH]; intros [|k' ks']; simpl;
    try discriminate; [auto|].
  intros H. injection H as Ha Hi Ho Ht.
  destruct (IH ks' Ht) as (H1 & H2 & H3 & H4 & H5).
  rewrite Ha, Hi, Ho, H1, H2, H3, H4, H5. auto.
Qed.

Lemma report_error_counters (now : Q) (a : string) (status : Z)
  (keys : list KeyManager.KeyRecord) :
  counters (KeyManager.report_error now a status keys) = counters keys.
Proof.
  unfold counters, KeyManager.report_error.
  apply KeyManager.update_first_map. intros k.
  unfold KeyManager.record_error.
  destruct ((status =? 429) || (status =? 529))%Z; [reflexivity|].
  destruct (500 <=? status)%Z; reflexivity.
Qed.

(** What one attempt does to the token counters, by its outcome. *)
Definition tokens_after (w w' : World) (r : ChatError + LLMResponse) : Prop :=
  match r with
  | inr resp =>
      In (key_alias resp) (map KeyManager.alias (pool w))
      /\ KeyManager.pool_tokens_in (pool w')
         = (KeyManager.pool_tokens_in (pool w) + tokens_in resp)%Z
      /\ KeyManager.pool_tokens_out (pool w')
         = (KeyManager.pool_tokens_out (pool w) + tokens_out resp)%Z
  | inl (AcquireFailed _) | inl (ApiError _ _) | inl (RetriesExhausted _ _) =>
      counters (pool w') = counters (pool w)
  | inl _ => True
  end.

Lemma attempt_once_tokens (attempt : nat) (w : World) :
  match attempt_once transport jitter attempt w with
  | Continue w' _ => counters (pool w') = counters (pool w)
  | Done w' r => tokens_after w w' r
  end.
Proof.
  unfold attempt_once.
  pose proof (KeyManager.acquire_pool_unchanged (clock w) (pool w)) as Hp.
  pose proof (KeyManager.acquire_inr_available (clock w) (pool w)) as Hin.
  destruct (KeyManager.acquire (clock w) (pool w)) as [[e|k] keys];
    simpl in Hp; subst keys; [reflexivity|].
  destruct (Hin k eq_refl) as [Hk _]. clear Hin.
  assert (Ha : In (KeyManager.alias k) (map KeyManager.alias (pool w)))
    by (apply in_map; exact Hk).
  destruct (transport attempt k)
    as [elapsed [[body|]|status err_body|reason|e]].
  - destruct (read_content_cases body (KeyManager.alias k) elapsed)
      as [(r & -> & Hi & Ho & Hal)|[->|(e & ->)]]; simpl; [|exact I|exact I].
    rewrite Hi, Ho, Hal. split; [exact Ha|].
    apply KeyManager.report_usage_tokens. exact Ha.
  - exact I.
  - destruct (is_transient status); simpl; apply report_error_counters.
  - simpl. apply report_error_counters.
  - exact I.
Qed.

Lemma chat_loop_tokens (remaining : nat) :
  forall attempt last_error w,
    tokens_after w
      (fst (chat_loop transport jitter remaining attempt last_error w))
      (snd (chat_loop transport jitter remaining attempt last_error w)).
Proof.
  induction remaining as [|n IH]; intros attempt last_error w; simpl;
    [reflexivity|].
  pose proof (attempt_once_tokens attempt w) as Hc.
  destruct (attempt_once transport jitter attempt w) as [w1 e|w1 r1];
    [|exact Hc].
  specialize (IH (S attempt) (Some e) w1).
  destruct (counters_totals _ _ Hc) as (Hi & Ho & Ha & _).
  destruct (chat_loop transport jitter n (S attempt) (Some e) w1)
    as [w' [[e0|s b| |m le|e0]|r]]; simpl in *; try exact I;
    try (rewrite IH; exact Hc).
  rewrite <- Hi, <- Ho, <- Ha. exact IH.
Qed.

(** X9. Token accounting of a call.  A [chat_full] call that returns a
    response has added exactly the response's input and output tokens to
    the pool's totals, on a credential whose alias is the response's; the
    attempts retried before it added none.  A call that fails in [acquire],
    on a fatal status or by exhausting its attempts leaves every token
    counter as it was. *)
Theorem chat_full_token_accounting :
  (forall w w' r,
      chat_full transport jitter w = (w', inr r) ->
      In (key_alias r) (map KeyManager.alias (pool w))
      /\ KeyManager.pool_tokens_in (pool w')
         = (KeyManager.pool_tokens_in (pool w) + tokens_in r)%Z
      /\ KeyManager.pool_tokens_out (pool w')
         = (KeyManager.pool_tokens_out (pool w) + tokens_out r)%Z)
  /\ (forall w w' e,
      chat_full transport jitter w = (w', inl e) ->
      (exists a, e = AcquireFailed a) \/ (exists s b, e = ApiError s b)
      \/ (exists n le, e = RetriesExhausted n le) ->
      map KeyManager.tokens_in (pool w') = map KeyManager.tokens_in (pool w)
      /\ map KeyManager.tokens_out (pool w')
         = map KeyManager.tokens_out (pool w)).
Proof.
  split.
  - intros w w' r H.
    pose proof (chat_loop_tokens MAX_RETRIES 0 None w) as Hc.
    fold (chat_full transport jitter w) in Hc. rewrite H in Hc. exact Hc.
  - intros w w' e H He.
    pose proof (chat_loop_tokens MAX_RETRIES 0 None w) as Hc.
    fold (chat_full transport jitter w) in Hc. rewrite H in Hc. simpl in Hc.
    assert (Hcnt : counters (pool w') = counters (pool w)).
    { destruct He as [[a ->]|[(s & b & ->)|(n & le & ->)]]; exact Hc. }
    destruct (counters_totals _ _ Hcnt) as (_ & _ & _ & H1 & H2). auto.
Qed.

Lemma text_parts_first_offender (blocks : list ContentBlock) :
  (forall l1 b l2 e,
      blocks = l1 ++ b :: l2 ->
      (forall x, In x l1 -> offends x = None) -> offends b = Some e ->
      text_parts blocks = inl e)
  /\ ((forall x, In x blocks -> offends x = None) ->
      text_parts blocks = inr (concat (map contributes blocks))).
Proof.
  induction blocks as [|x bs [IH1 IH2]]; simpl.
  - split; [|reflexivity]. intros l1 b l2 e E. destruct l1; discriminate.
  - split.
    + intros l1 b l2 e E Hl1 Hb. destruct l1 as [|y l1].
      * injection E as <- <-. destruct x as [ty [|s|]|]; simpl in Hb.
        -- destruct (is_text ty); [|discriminate]. congruence.
        -- discriminate.
        -- discriminate.
        -- congruence.
      * injection E as <- E.
        assert (Hy : offends x = None) by (apply Hl1; left; reflexivity).
        assert (Hrest : text_parts bs = inl e).
        { apply (IH1 l1 b l2 e E); [|exact Hb].
          intros z Hz. apply Hl1. right. exact Hz. }
        destruct x as [ty [|s|]|]; simpl in Hy; try discriminate.
        -- destruct (is_text ty); [discriminate|exact Hrest].
        -- destruct (is_text ty); rewrite Hrest; reflexivity.
        -- destruct (is_text ty); rewrite Hrest; reflexivity.
    + intros Hall.
      assert (Hx : offends x = None) by (apply Hall; left; reflexivity).
      assert (Hrest : text_parts bs = inr (concat (map contributes bs)))
        by (apply IH2; intros z Hz; apply Hall; right; exact Hz).
      destruct x as [ty [|s|]|]; simpl in Hx; try discriminate; simpl.
      * destruct (is_text ty); [discriminate|exact Hrest].
      * destruct (is_text ty); rewrite Hrest; reflexivity.
      * destruct (is_text ty); rewrite Hrest; reflexivity.
Qed.

Lemma all_strings_spec (parts : list (option string)) :
  (In None parts -> all_strings parts = None)
  /\ (forall ss, parts = map Some ss -> all_strings parts = Some ss).
Proof.
  induction parts as [|p ps [IH1 IH2]]; simpl.
  - split; [intros []|]. intros [|s ss] E; [reflexivity|discriminate].
  - split.
    + intros [->|H]; [reflexivity|].
      destruct p; [rewrite (IH1 H)|]; reflexivity.
    + intros [|s ss] E; [discriminate|]. injection E as -> ->.
      rewrite (IH2 ss eq_refl). reflexivity.
Qed.

(** X10. What [chat_full] does with a 2xx answer, at any attempt, without a
    sleep or a further attempt.  If [json.loads] fails, the call fails with
    [UnexpectedFormat]; any other exception raised before the usage is
    reported leaves the call as it is; in both cases the pool is untouched.
    Otherwise the usage is reported first.  Then a content that cannot be
    looped over escapes as TypeError; the first block that is not an object
    or is a text block without text stops the loop, with AttributeError
    escaping or with [UnexpectedFormat]; with no such block, a text that is
    not a string escapes as TypeError, and else the call returns the
    stripped, newline-joined texts of the text blocks, in order. *)
Theorem chat_2xx_outcomes (remaining attempt : nat)
  (last_error : option LastError) (w : World) (k : KeyManager.KeyRecord)
  (elapsed : Q) :
  let run := chat_loop transport jitter (S remaining) attempt last_error w in
  let untouched :=
    mkWorld (pool w) (clock w + elapsed) (slept w) (S (sent w)) in
  (fst (KeyManager.acquire (clock w) (pool w)) = inr k ->
   transport attempt k = (elapsed, Http2xx None) ->
   run = (untouched, inl UnexpectedFormat))
  /\ (forall e,
      fst (KeyManager.acquire (clock w) (pool w)) = inr k ->
      transport attempt k = (elapsed, Raised e) ->
      run = (untouched, inl (Escaped e)))
  /\ (forall body,
      fst (KeyManager.acquire (clock w) (pool w)) = inr k ->
      transport attempt k = (elapsed, Http2xx (Some body)) ->
      exists res,
        run
        = (mkWorld
             (KeyManager.report_usage (clock w + elapsed) (KeyManager.alias k)
                (input_tokens body) (output_tokens body) (pool w))
             (clock w + elapsed) (slept w) (S (sent w)), res)
        /\ (content body = NotIterable -> res = inl (Escaped TypeError))
        /\ (forall blocks l1 b l2,
              content body = Blocks blocks -> blocks = l1 ++ b :: l2 ->
              (forall x, In x l1 -> offends x = None) ->
              (offends b = Some KeyError -> res = inl UnexpectedFormat)
              /\ (offends b = Some BlockAttributeError ->
                  res = inl (Escaped AttributeError)))
        /\ (forall blocks,
              content body = Blocks blocks ->
              (forall x, In x blocks -> offends x = None) ->
              (In None (concat (map contributes blocks)) ->
               res = inl (Escaped TypeError))
              /\ (forall ss,
                    concat (map contributes blocks) = map Some ss ->
                    exists r,
                      res = inr r
                      /\ text r = PyStr.strip (PyStr.join PyStr.newline ss)
                      /\ tokens_in r = input_tokens body
                      /\ tokens_out r = output_tokens body
                      /\ key_alias r = KeyManager.alias k))).
Proof.
  intros run untouched. subst run untouched.
  split; [|split].
  - intros Hk Ht. simpl. unfold attempt_once.
    rewrite (acquire_ok_pair w k Hk), Ht. reflexivity.
  - intros e Hk Ht. simpl. unfold attempt_once.
    rewrite (acquire_ok_pair w k Hk), Ht. reflexivity.
  - intros body Hk Ht.
    exists (read_content body (KeyManager.alias k) elapsed).
    split.
    { simpl. unfold attempt_once.
      rewrite (acquire_ok_pair w k Hk), Ht. reflexivity. }
    unfold read_content. split; [intros ->; reflexivity|]. split.
    + intros blocks l1 b l2 -> E Hl1.
      destruct (text_parts_first_offender blocks) as [Hfirst _].
      split; intros Hb; rewrite (Hfirst l1 b l2 _ E Hl1 Hb); reflexivity.
    + intros blocks -> Hall.
      destruct (text_parts_first_offender blocks) as [_ Hnone].
      rewrite (Hnone Hall).
      destruct (all_strings_spec (concat (map contributes blocks)))
        as [Hbad Hgood].
      split.
      * intros Hin. rewrite (Hbad Hin). reflexivity.
      * intros ss Hss. rewrite (Hgood ss Hss). eexists. split; [reflexivity|].
        simpl. auto.
Qed.

Lemma chat_loop_url_errors (remaining : nat) :
  (forall a k, exists elapsed reason,
      transport a k = (elapsed, URLError reason)) ->
  forall attempt last_error w,
    let r := chat_loop transport jitter remaining attempt last_error w in
    (exists e, snd r = inl (AcquireFailed e))
    \/ (slept (fst r) = slept w ++ url_waits remaining attempt
        /\ sent (fst r) = (sent w + remaining)%nat
        /\ exists le, snd r = inl (RetriesExhausted MAX_RETRIES le)
             /\ (remaining <> 0%nat -> exists reason,
                   le = Some (LastURLError reason))
             /\ (remaining = 0%nat -> le = last_error)).
Proof.
  intros Hall. induction remaining as [|n IH]; intros attempt last_error w.
  - right. simpl. rewrite app_nil_r. split; [reflexivity|].
    split; [lia|]. exists last_error. split; [reflexivity|].
    split; [congruence|auto].
  - simpl. unfold attempt_once.
    destruct (KeyManager.acquire (clock w) (pool w)) as [[e|k] keys] eqn:Ea.
    + left. simpl. eauto.
    + destruct (Hall attempt k) as (elapsed & reason & Ht). rewrite Ht.
      match goal with
      | |- context [chat_loop transport jitter n (S attempt) ?le ?w1] =>
          destruct (IH (S attempt) le w1) as [Hl|(Hs & Hn & le' & Hr & H1 & H0)]
      end.
      * left. exact Hl.
      * right. rewrite Hs, Hn. simpl. rewrite <- app_assoc. simpl.
        split; [reflexivity|]. split; [lia|].
        exists le'. split; [exact Hr|]. split; [|discriminate].
        intros _. destruct n as [|n'].
        -- rewrite (H0 eq_refl). eauto.
        -- apply H1. discriminate.
Qed.

(** X11. A transport failure ([URLError]) is handled like a 503: it is
    reported to the pool as status 503, the layer sleeps exactly
    [BASE_DELAY * 2^attempt] (no jitter) and the loop goes on.  A call whose
    every request fails in transport ends either in the failure of an
    [acquire] or, after four requests and sleeps of 1.2, 2.4, 4.8 and 9.6
    seconds, in [RetriesExhausted] naming the last transport failure. *)
Theorem transport_failure_retried :
  (forall remaining attempt last_error w k elapsed reason,
      fst (KeyManager.acquire (clock w) (pool w)) = inr k ->
      transport attempt k = (elapsed, URLError reason) ->
      let wait := BASE_DELAY * inject_Z (2 ^ Z.of_nat attempt) in
      let w' :=
        mkWorld
          (KeyManager.report_error (clock w + elapsed) (KeyManager.alias k)
             503 (pool w))
          (clock w + elapsed + wait) (slept w ++ [wait]) (S (sent w)) in
      chat_loop transport jitter (S remaining) attempt last_error w
      = chat_loop transport jitter remaining (S attempt)
          (Some (LastURLError reason)) w')
  /\ (forall w,
      (forall a k, exists elapsed reason,
          transport a k = (elapsed, URLError reason)) ->
      let r := chat_full transport jitter w in
      (exists e, snd r = inl (AcquireFailed e))
      \/ (exists reason w0 w1 w2 w3,
            snd r = inl (RetriesExhausted 4 (Some (LastURLError reason)))
            /\ sent (fst r) = (sent w + 4)%nat
            /\ slept (fst r) = slept w ++ [w0; w1; w2; w3]
            /\ w0 == 12 # 10 /\ w1 == 24 # 10 /\ w2 == 48 # 10
            /\ w3 == 96 # 10)).
Proof.
  split.
  - intros remaining attempt last_error w k elapsed reason Hk Ht wait w'.
    simpl. unfold attempt_once at 1.
    rewrite (acquire_ok_pair w k Hk), Ht. reflexivity.
  - intros w Hall r.
    destruct (chat_loop_url_errors MAX_RETRIES Hall 0 None w)
      as [Hl|(Hs & Hn & le & Hr & H1 & _)].
    + left. exact Hl.
    + right. destruct (H1 ltac:(discriminate)) as [reason ->].
      exists reason. do 4 eexists.
      split; [exact Hr|]. split; [exact Hn|]. split; [exact Hs|].
      repeat split.
Qed.

End MoreLoop.

Definition text_body : Body :=
  mkBody 100 20
    (Blocks
       [Object (Some "thinking"%string) NoText;
        Object (Some "text"%string) (Text "  I strike first. ");
        Object (Some "text"%string) (Text "ACTION: attack")])
    None.

Definition answers (body : Body)
  : nat -> KeyManager.KeyRecord -> Q * HttpOutcome :=
  fun _ _ => (1 # 2, Http2xx (Some body)).

Definition success_world : World :=
  fst (chat_full (answers text_body) jitter_04 (world_of four_keys)).

Definition success_response : LLMResponse :=
  match snd (chat_full (answers text_body) jitter_04 (world_of four_keys)) with
  | inr r => r
  | inl _ => mkLLMResponse "" 0 0 "" "" 0
  end.

Example success_run :
  text success_response
  = ("I strike first. " +:+ PyStr.newline +:+ "ACTION: attack")%string
  /\ key_alias success_response = "primary"%string
  /\ model success_response = MODEL
  /\ sent success_world = 1%nat /\ slept success_world = []
  /\ map KeyManager.tokens_in (pool success_world) = [100; 0; 0; 0]%Z
  /\ map KeyManager.tokens_out (pool success_world) = [20; 0; 0; 0]%Z.
Proof. vm_compute. repeat split. Qed.

(** The usage is charged before the content is read: a body whose text
    block has no text fails the call, and its tokens stay counted. *)
Example charged_then_failed :
  let body := mkBody 100 20 (Blocks [Object (Some "text"%string) NoText]) None in
  let r := chat_full (answers body) jitter_04 (world_of four_keys) in
  snd r = inl UnexpectedFormat
  /\ map KeyManager.tokens_in (pool (fst r)) = [100; 0; 0; 0]%Z
  /\ sent (fst r) = 1%nat.
Proof. vm_compute. repeat split. Qed.

(** A body that is not an object, a text that is a number, a block that is
    not an object. *)
Example malformed_bodies :
  snd (chat_full (fun _ _ => (1 # 2, Raised AttributeError)) jitter_04
         (world_of four_keys))
  = inl (Escaped AttributeError)
  /\ snd (chat_full
            (answers (mkBody 1 1
                        (Blocks [Object (Some "text"%string) NotAString]) None))
            jitter_04 (world_of four_keys))
     = inl (Escaped TypeError)
  /\ snd (chat_full (answers (mkBody 1 1 (Blocks [NotAnObject]) None))
            jitter_04 (world_of four_keys))
     = inl (Escaped AttributeError).
Proof. vm_compute. repeat split. Qed.

(** Every request fails in transport: with four credentials to rotate
    through the call uses up its attempts, with one it fails in [acquire]. *)
Example transport_down :
  let down : nat -> KeyManager.KeyRecord -> Q * HttpOutcome :=
    fun _ _ => (1 # 2, URLError "unreachable") in
  snd (chat_full down jitter_04 (world_of four_keys))
  = inl (RetriesExhausted 4 (Some (LastURLError "unreachable")))
  /\ map Qred (slept (fst (chat_full down jitter_04 (world_of four_keys))))
     = [6 # 5; 12 # 5; 24 # 5; 48 # 5]
  /\ exists wait,
      snd (chat_full down jitter_04
             (world_of [KeyManager.fresh_key "sk-0" "primary" 10]))
      = inl (AcquireFailed (KeyManager.Exhausted wait)).
Proof. vm_compute. split; [reflexivity|]. split; [reflexivity|]. eauto. Qed.

Lemma chat_full_total_wait_witness :
  (forall a, 0 <= jitter_04 a <= 8 # 10)
  /\ total_wait (slept (fst (chat_full (always 500 "overloaded") jitter_04
                                (world_of four_keys))))
     <= total_wait (slept (world_of four_keys)) + (106 # 5).
Proof.
  assert (H : forall a, 0 <= jitter_04 a <= 8 # 10)
    by (intros a; split; intro Hc; discriminate Hc).
  split; [exact H|].
  exact (proj1 (chat_full_total_wait (always 500 "overloaded") jitter_04
                  (world_of four_keys) H)).
Defined.

End LLMClient.

(** * core/memory.py *)

Module Memory.
Local Open Scope Q_scope.

(** One entry of [ucb_stats]: [{"total": float, "plays": int}]; [plays] is a
    counter, raised by one per [update_ucb]. *)
Record UcbStat := mkUcbStat {
  total : Q;
  plays : nat
}.

Record AgentMemory := mkAgentMemory {
  agent_id : string;
  name : string;
  char_class : string;
  level : Z;
  wins : nat;
  losses : nat;
  dmg_dealt : Z;
  dmg_taken : Z;
  pref_actions : gmap string Q;
  opp_models : gmap string (gmap string Z);
  ucb_stats : gmap string UcbStat
}.

Definition set_ucb_stats (m : gmap string UcbStat) (self : AgentMemory)
  : AgentMemory :=
  mkAgentMemory (agent_id self) (name self) (char_class self) (level self)
    (wins self) (losses self) (dmg_dealt self) (dmg_taken self)
    (pref_actions self) (opp_models self) m.

(** [self.ucb_stats.get(action, {"total": 0.0, "plays": 0})] *)
Definition stats_of (m : gmap string UcbStat) (action : string) : UcbStat :=
  default (mkUcbStat 0 0) (m !! action).

Definition update_ucb (action : string) (reward : Q) (self : AgentMemory)
  : AgentMemory :=
  let st := stats_of (ucb_stats self) action in
  set_ucb_stats
    (<[action := mkUcbStat (total st + reward) (S (plays st))]> (ucb_stats self))
    self.

(** [sum(v["plays"] for v in self.ucb_stats.values())] *)
Definition total_plays (m : gmap string UcbStat) : nat :=
  map_fold (fun _ v acc => (plays v + acc)%nat) 0%nat m.

Section Ucb.
(** [math.sqrt] and [math.log] on the values they are given. *)
Variables (sqrt log : Q -> Q).

Definition ucb_score (st : UcbStat) (total_plays : nat) : Q :=
  let avg := total st / inject_Z (Z.of_nat (plays st)) in
  avg + sqrt (2 * log (inject_Z (Z.max 1 (Z.of_nat total_plays)))
              / inject_Z (Z.of_nat (plays st))).

(** The [for action in candidates] loop, with its two accumulators. *)
Fixpoint best_from (m : gmap string UcbStat) (total_plays : nat)
  (best_score : Q) (best_action : option string) (candidates : list string)
  : option string :=
  match candidates with
  | [] => best_action
  | action :: rest =>
      let st := stats_of m action in
      if (plays st =? 0)%nat then Some action
      else
        let score := ucb_score st total_plays in
        if Qlt_bool best_score score
        then best_from m total_plays score (Some action) rest
        else best_from m total_plays best_score best_action rest
  end.

Definition ucb_best_action (candidates : list string) (self : AgentMemory)
  : option string :=
  if (size (ucb_stats self) =? 0)%nat then None
  else best_from (ucb_stats self) (total_plays (ucb_stats self)) (-1) None
         candidates.

End Ucb.

(** A memory as [AgentMemory(agent_id, name, char_class)] builds it. *)
Definition fresh_memory (id n c : string) : AgentMemory :=
  mkAgentMemory id n c 1 0 0 0 0 ∅ ∅ ∅.

(** [action] has no recorded play: it is missing from the table, or its
    entry counts zero plays. *)
Definition unseen (m : gmap string UcbStat) (action : string) : Prop :=
  plays (stats_of m action) = 0%nat.

Definition attack_once : AgentMemory :=
  update_ucb "attack" 1 (fresh_memory "a1" "Kael" "warrior").

(** ** Properties of [ucb_best_action] *)

Lemma absent_unseen (m : gmap string UcbStat) (action : string) :
  m !! action = None -> unseen m action.
Proof. intros H. unfold unseen, stats_of. rewrite H. reflexivity. Qed.

Lemma stats_empty_iff (self : AgentMemory) :
  (size (ucb_stats self) =? 0)%nat = true <-> ucb_stats self = ∅.
Proof. rewrite Nat.eqb_eq. apply map_size_empty_iff. Qed.

Lemma best_from_first_unseen (sqrt log : Q -> Q) (m : gmap string UcbStat)
  (total_plays : nat) (candidates : list string) :
  forall best_score best_action,
    (exists a, In a candidates /\ unseen m a) ->
    exists l1 a l2,
      candidates = l1 ++ a :: l2
      /\ (forall x, In x l1 -> ~ unseen m x)
      /\ unseen m a
      /\ best_from sqrt log m total_plays best_score best_action candidates
         = Some a.
Proof.
  induction candidates as [|c cs IH]; intros best_score best_action Hex.
  - destruct Hex as (a & [] & _).
  - simpl. destruct (plays (stats_of m c) =? 0)%nat eqn:E.
    + apply Nat.eqb_eq in E. exists [], c, cs. simpl.
      repeat split; auto.
    + apply Nat.eqb_neq in E.
      assert (Hcs : exists a, In a cs /\ unseen m a).
      { destruct Hex as (a & [<-|Ha] & Hu); [contradiction|eauto]. }
      destruct (Qlt_bool best_score (ucb_score sqrt log (stats_of m c) total_plays)).
      * destruct (IH (ucb_score sqrt log (stats_of m c) total_plays) (Some c) Hcs)
          as (l1 & a & l2 & -> & H1 & Ha & Hr).
        exists (c :: l1), a, l2. repeat split; auto.
        intros x [<-|Hx]; auto.
      * destruct (IH best_score best_action Hcs)
          as (l1 & a & l2 & -> & H1 & Ha & Hr).
        exists (c :: l1), a, l2. repeat split; auto.
        intros x [<-|Hx]; auto.
Qed.

(** C2, as the code has it.  For a candidate list that holds an action
    without recorded plays: when the bandit table is empty the answer is
    [None]; when it is not, the answer is the first candidate without
    recorded plays; so over such lists [None] is answered exactly when the
    table is empty. *)
Theorem ucb_best_action_forced_exploration (sqrt log : Q -> Q)
  (candidates : list string) (self : AgentMemory) :
  (exists a, In a candidates /\ unseen (ucb_stats self) a) ->
  (ucb_stats self = ∅ -> ucb_best_action sqrt log candidates self = None)
  /\ (ucb_stats self <> ∅ ->
      exists l1 a l2,
        candidates = l1 ++ a :: l2
        /\ (forall x, In x l1 -> ~ unseen (ucb_stats self) x)
        /\ unseen (ucb_stats self) a
        /\ ucb_best_action sqrt log candidates self = Some a)
  /\ (ucb_best_action sqrt log candidates self = None
      <-> ucb_stats self = ∅).
Proof.
  intros Hex. unfold ucb_best_action.
  destruct (size (ucb_stats self) =? 0)%nat eqn:E.
  - apply stats_empty_iff in E.
    split; [reflexivity|]. split; [contradiction|]. tauto.
  - assert (Hne : ucb_stats self <> ∅).
    { intro H. apply stats_empty_iff in H. congruence. }
    destruct (best_from_first_unseen sqrt log (ucb_stats self)
                (total_plays (ucb_stats self)) candidates (-1) None Hex)
      as (l1 & a & l2 & Hc & H1 & Ha & Hr).
    split; [contradiction|].
    split; [intros _; exists l1, a, l2; auto|].
    rewrite Hr. split; [discriminate|contradiction].
Qed.

Lemma ucb_best_action_forced_exploration_witness :
  (exists a, In a ["attack"; "defend"; "heal"]%string
             /\ unseen (ucb_stats attack_once) a)
  /\ (ucb_best_action (fun x => x) (fun x => x)
        ["attack"; "defend"; "heal"]%string attack_once = None
      <-> ucb_stats attack_once = ∅).
Proof.
  assert (H : exists a, In a ["attack"; "defend"; "heal"]%string
                        /\ unseen (ucb_stats attack_once) a).
  { exists "defend"%string. split; [right; left; reflexivity|reflexivity]. }
  split; [exact H|].
  exact (proj2 (proj2 (ucb_best_action_forced_exploration
                         (fun x => x) (fun x => x)
                         ["attack"; "defend"; "heal"]%string attack_once H))).
Defined.

Example forced_exploration_example (sqrt log : Q -> Q) :
  ucb_best_action sqrt log ["attack"; "defend"; "heal"]%string attack_once
  = Some "defend"%string.
Proof.
  assert (E0 : (size (ucb_stats attack_once) =? 0)%nat = false)
    by (vm_compute; reflexivity).
  assert (E1 : (plays (stats_of (ucb_stats attack_once) "attack") =? 0)%nat = false)
    by (vm_compute; reflexivity).
  assert (E2 : (plays (stats_of (ucb_stats attack_once) "defend") =? 0)%nat = true)
    by (vm_compute; reflexivity).
  unfold ucb_best_action, best_from. rewrite E0, E1, E2.
  destruct (Qlt_bool _ _); reflexivity.
Qed.

(** C2 as stated fails on a memory without bandit statistics: the candidate
    is absent from the table, and the answer is [None], not that candidate.
    [None] is also answered with statistics present, on an empty candidate
    list. *)
Lemma ucb_best_action_counterexample :
  (ucb_stats (fresh_memory "a1" "Kael" "warrior") !! "attack"%string = None
   /\ forall sqrt log,
       ucb_best_action sqrt log ["attack"%string]
         (fresh_memory "a1" "Kael" "warrior") = None)
  /\ (ucb_stats attack_once <> ∅
      /\ forall sqrt log, ucb_best_action sqrt log [] attack_once = None).
Proof.
  split; split.
  - reflexivity.
  - intros sqrt log. reflexivity.
  - intro H. apply stats_empty_iff in H. vm_compute in H. discriminate H.
  - intros sqrt log. vm_compute. reflexivity.
Qed.

(** ** Further operations of [AgentMemory] *)

Definition win_rate (self : AgentMemory) : Q :=
  let total := (wins self + losses self)%nat in
  if (0 <? total)%nat
  then inject_Z (Z.of_nat (wins self)) / inject_Z (Z.of_nat total)
  else 0.

Definition set_pref_actions (p : gmap string Q) (self : AgentMemory)
  : AgentMemory :=
  mkAgentMemory (agent_id self) (name self) (char_class self) (level self)
    (wins self) (losses self) (dmg_dealt self) (dmg_taken self)
    p (opp_models self) (ucb_stats self).

Definition set_opp_models (o : gmap string (gmap string Z))
  (self : AgentMemory) : AgentMemory :=
  mkAgentMemory (agent_id self) (name self) (char_class self) (level self)
    (wins self) (losses self) (dmg_dealt self) (dmg_taken self)
    (pref_actions self) o (ucb_stats self).

(** The preference an action has, 0.5 when it was never recorded. *)
Definition preference (p : gmap string Q) (action : string) : Q :=
  default (1 # 2) (p !! action).

Definition record_action_outcome (action : string) (success : bool)
  (self : AgentMemory) : AgentMemory :=
  let cur := preference (pref_actions self) action in
  set_pref_actions
    (<[action := cur * (85 # 100) + (if success then 1 else 0) * (15 # 100)]>
       (pref_actions self))
    self.

(** [opp_models[opp_id]["tendencies"]]: the record keeps, per opponent, the
    tendencies table itself. *)
Definition tendencies (o : gmap string (gmap string Z)) (opp_id : string)
  : gmap string Z :=
  default ∅ (o !! opp_id).

(** [tend.get(action, 0)] *)
Definition tally (o : gmap string (gmap string Z)) (opp_id action : string)
  : Z :=
  default 0%Z (tendencies o opp_id !! action).

Definition update_opp_model (opp_id action : string) (effective : bool)
  (self : AgentMemory) : AgentMemory :=
  let tend := tendencies (opp_models self) opp_id in
  set_opp_models
    (<[opp_id :=
         <[action := (default 0 (tend !! action)
                      + (if effective then 1 else -1))%Z]> tend]>
       (opp_models self))
    self.

(** ** Properties of the bandit table *)

Lemma plays_fold_comm (z1 z2 : UcbStat) (y : nat) :
  (plays z1 + (plays z2 + y) = plays z2 + (plays z1 + y))%nat.
Proof. lia. Qed.

Lemma total_plays_insert (m : gmap string UcbStat) (a : string)
  (st : UcbStat) :
  (total_plays (<[a := st]> m) + plays (stats_of m a)
   = plays st + total_plays m)%nat.
Proof.
  unfold total_plays, stats_of.
  destruct (m !! a) as [old|] eqn:E; simpl.
  - rewrite <- (insert_delete_eq m a st).
    rewrite (map_fold_insert_L _ _ a st (delete a m));
      [|intros; apply plays_fold_comm|apply lookup_delete_eq].
    rewrite (map_fold_delete_L _ _ a old m);
      [|intros; apply plays_fold_comm|exact E].
    lia.
  - rewrite (map_fold_insert_L _ _ a st m);
      [|intros; apply plays_fold_comm|exact E].
    lia.
Qed.

(** X12. [update_ucb] adds the reward to the action's total and one to its
    plays, leaves the entry of every other action as it was, and raises the
    number of plays summed over the table by exactly one; afterwards the
    table is not empty and the action is no longer without plays. *)
Theorem update_ucb_spec (action : string) (reward : Q) (self : AgentMemory) :
  let self' := update_ucb action reward self in
  stats_of (ucb_stats self') action
  = mkUcbStat (total (stats_of (ucb_stats self) action) + reward)
      (S (plays (stats_of (ucb_stats self) action)))
  /\ (forall other, other <> action ->
        ucb_stats self' !! other = ucb_stats self !! other)
  /\ total_plays (ucb_stats self') = S (total_plays (ucb_stats self))
  /\ ucb_stats self' <> ∅
  /\ ~ unseen (ucb_stats self') action
  /\ pref_actions self' = pref_actions self
  /\ opp_models self' = opp_models self.
Proof.
  intros self'. unfold self', update_ucb. simpl.
  split; [|split; [|split; [|split; [|split]]]].
  - unfold stats_of at 1. rewrite lookup_insert_eq. reflexivity.
  - intros other Hne. apply lookup_insert_ne. congruence.
  - pose proof (total_plays_insert (ucb_stats self) action
                  (mkUcbStat (total (stats_of (ucb_stats self) action) + reward)
                     (S (plays (stats_of (ucb_stats self) action))))) as H.
    simpl in H. lia.
  - apply insert_non_empty.
  - unfold unseen, stats_of. rewrite lookup_insert_eq. simpl. discriminate.
  - split; reflexivity.
Qed.

Lemma best_from_In (sqrt log : Q -> Q) (m : gmap string UcbStat)
  (total_plays : nat) (candidates : list string) :
  forall best_score best_action a,
    best_from sqrt log m total_plays best_score best_action candidates = Some a ->
    best_action = Some a \/ In a candidates.
Proof.
  induction candidates as [|c cs IH]; intros bs ba a; simpl.
  - auto.
  - destruct (plays (stats_of m c) =? 0)%nat.
    + intros H. injection H as <-. auto.
    + destruct (Qlt_bool bs _); intros H; apply IH in H.
      * destruct H as [H|H]; [injection H as <-|]; auto.
      * destruct H; auto.
Qed.

(** X13. [ucb_best_action] never invents an action: an answer other than
    [None] is one of the candidates it was given, whatever the state of the
    table. *)
Theorem ucb_best_action_is_candidate (sqrt log : Q -> Q)
  (candidates : list string) (self : AgentMemory) (a : string) :
  ucb_best_action sqrt log candidates self = Some a -> In a candidates.
Proof.
  unfold ucb_best_action.
  destruct (size (ucb_stats self) =? 0)%nat; [discriminate|].
  intros H. apply best_from_In in H. destruct H as [H|H]; [discriminate|exact H].
Qed.

Lemma ucb_best_action_is_candidate_witness :
  ucb_best_action (fun x => x) (fun x => x)
    ["attack"; "defend"; "heal"]%string attack_once = Some "defend"%string
  /\ In "defend"%string ["attack"; "defend"; "heal"]%string.
Proof.
  assert (H : ucb_best_action (fun x => x) (fun x => x)
                ["attack"; "defend"; "heal"]%string attack_once
              = Some "defend"%string)
    by (vm_compute; reflexivity).
  split; [exact H|].
  exact (ucb_best_action_is_candidate (fun x => x) (fun x => x)
           ["attack"; "defend"; "heal"]%string attack_once "defend" H).
Defined.



Definition two_actions : AgentMemory :=
  update_ucb "defend" (1 # 4) (update_ucb "attack" 1 (fresh_memory "a1" "Kael" "warrior")).


Example argmax_example :
  ucb_best_action (fun x => x) (fun x => x)
    ["defend"; "attack"]%string two_actions = Some "attack"%string.
Proof. vm_compute. reflexivity. Qed.

(** X15. Forced exploration after a recorded play: once [update_ucb] has
    counted a play for an action, [ucb_best_action] on candidates that hold
    an action still without plays answers such an action, different from
    the one just played. *)
Theorem explore_after_update (sqrt log : Q -> Q) (action : string)
  (reward : Q) (candidates : list string) (self : AgentMemory) :
  let self' := update_ucb action reward self in
  (exists c, In c candidates /\ unseen (ucb_stats self') c) ->
  exists c, ucb_best_action sqrt log candidates self' = Some c
            /\ In c candidates /\ c <> action
            /\ unseen (ucb_stats self') c.
Proof.
  intros self' Hex. unfold ucb_best_action.
  assert (Hne : (size (ucb_stats self') =? 0)%nat = false).
  { destruct (size (ucb_stats self') =? 0)%nat eqn:E; [|reflexivity].
    apply stats_empty_iff in E. unfold self', update_ucb in E. simpl in E.
    exfalso. exact (insert_non_empty _ _ _ E). }
  rewrite Hne.
  destruct (best_from_first_unseen sqrt log (ucb_stats self')
              (total_plays (ucb_stats self')) candidates (-1) None Hex)
    as (l1 & c & l2 & E & _ & Hc & Hr).
  exists c. split; [exact Hr|]. split; [rewrite E; apply in_elt|].
  split; [|exact Hc].
  intros ->. revert Hc. unfold self', update_ucb, unseen, stats_of. simpl.
  rewrite lookup_insert_eq. simpl. discriminate.
Qed.

Lemma explore_after_update_witness :
  (exists c, In c ["attack"; "defend"]%string
             /\ unseen (ucb_stats attack_once) c)
  /\ exists c, ucb_best_action (fun x => x) (fun x => x)
                 ["attack"; "defend"]%string attack_once = Some c
               /\ In c ["attack"; "defend"]%string /\ c <> "attack"%string
               /\ unseen (ucb_stats attack_once) c.
Proof.
  assert (H : exists c, In c ["attack"; "defend"]%string
                        /\ unseen (ucb_stats attack_once) c).
  { exists "defend"%string. split; [right; left; reflexivity|reflexivity]. }
  split; [exact H|].
  exact (explore_after_update (fun x => x) (fun x => x) "attack" 1
           ["attack"; "defend"]%string (fresh_memory "a1" "Kael" "warrior") H).
Defined.

(** ** Properties of preferences, win rate and opponent tallies *)

(** Every recorded preference lies in [0, 1]. *)
Definition prefs_in_range (p : gmap string Q) : Prop :=
  map_Forall (fun _ v => 0 <= v /\ v <= 1) p.

(** X16. [record_action_outcome] keeps every preference in [0, 1] if they
    all were; it moves the action's preference (0.5 if new) to
    [0.85 * cur + 0.15] on success and [0.85 * cur] on failure, so never
    down on success and never up on failure; other actions keep theirs. *)
Theorem record_action_outcome_spec (action : string) (success : bool)
  (self : AgentMemory) :
  let p := pref_actions self in
  let p' := pref_actions (record_action_outcome action success self) in
  (prefs_in_range p -> prefs_in_range p')
  /\ preference p' action
     == (85 # 100) * preference p action + (if success then 15 # 100 else 0)
  /\ (prefs_in_range p ->
      if success then preference p action <= preference p' action
      else preference p' action <= preference p action)
  /\ (forall other, other <> action -> p' !! other = p !! other)
  /\ ucb_stats (record_action_outcome action success self) = ucb_stats self.
Proof.
  intros p p'. unfold p', record_action_outcome. simpl. fold p.
  assert (Hcur : prefs_in_range p ->
                 0 <= preference p action /\ preference p action <= 1).
  { intros Hr. unfold preference. destruct (p !! action) as [v|] eqn:E; simpl.
    - exact (Hr action v E).
    - split; discriminate. }
  assert (Hnew : preference
                   (<[action := preference p action * (85 # 100)
                                + (if success then 1 else 0) * (15 # 100)]> p)
                   action
                 = preference p action * (85 # 100)
                   + (if success then 1 else 0) * (15 # 100)).
  { unfold preference at 1. rewrite lookup_insert_eq. reflexivity. }
  split; [|split; [|split; [|split]]].
  - intros Hr. apply map_Forall_insert_2; [|exact Hr].
    destruct (Hcur Hr) as [H0 H1]. destruct success; split; lra.
  - rewrite Hnew. destruct success; lra.
  - intros Hr. rewrite Hnew. destruct (Hcur Hr) as [H0 H1].
    destruct success; lra.
  - intros other Hne. apply lookup_insert_ne. congruence.
  - reflexivity.
Qed.

Lemma win_rate_range (self : AgentMemory) :
  0 <= win_rate self /\ win_rate self <= 1.
Proof.
  unfold win_rate.
  destruct (0 <? wins self + losses self)%nat eqn:E; [|split; discriminate].
  apply Nat.ltb_lt in E.
  assert (Hd : 0 < inject_Z (Z.of_nat (wins self + losses self))).
  { change 0 with (inject_Z 0). rewrite <- Zlt_Qlt. lia. }
  split.
  - apply Qle_shift_div_l; [exact Hd|]. rewrite Qmult_0_l.
    change 0 with (inject_Z 0). rewrite <- Zle_Qle. lia.
  - apply Qle_shift_div_r; [exact Hd|]. rewrite Qmult_1_l.
    rewrite <- Zle_Qle. lia.
Qed.

(** X17. [AgentMemory.win_rate] is a fraction in [0, 1]; it is 0 when no
    game was played, 1 when games were played and none lost, and
    [wins / (wins + losses)] otherwise. *)
Theorem agent_win_rate_spec (self : AgentMemory) :
  0 <= win_rate self /\ win_rate self <= 1
  /\ ((wins self + losses self = 0)%nat -> win_rate self = 0)
  /\ ((0 < wins self)%nat -> losses self = 0%nat -> win_rate self == 1)
  /\ ((0 < wins self + losses self)%nat ->
      win_rate self * inject_Z (Z.of_nat (wins self + losses self))
      == inject_Z (Z.of_nat (wins self))).
Proof.
  destruct (win_rate_range self) as [H0 H1].
  split; [exact H0|]. split; [exact H1|].
  unfold win_rate. split; [|split].
  - intros ->. reflexivity.
  - intros Hw Hl. rewrite Hl, Nat.add_0_r.
    destruct (0 <? wins self)%nat eqn:E; [|apply Nat.ltb_ge in E; lia].
    field. intro Hz.
    assert (Hp : 0 < inject_Z (Z.of_nat (wins self)))
      by (change 0 with (inject_Z 0); rewrite <- Zlt_Qlt; lia).
    rewrite Hz in Hp. discriminate Hp.
  - intros Hpos.
    destruct (0 <? wins self + losses self)%nat eqn:E;
      [|apply Nat.ltb_ge in E; lia].
    field. intro Hz.
    assert (Hp : 0 < inject_Z (Z.of_nat (wins self + losses self)))
      by (change 0 with (inject_Z 0); rewrite <- Zlt_Qlt; lia).
    rewrite Hz in Hp. discriminate Hp.
Qed.

Lemma tally_update (opp_id action : string) (effective : bool)
  (self : AgentMemory) (o a : string) :
  tally (opp_models (update_opp_model opp_id action effective self)) o a
  = if bool_decide (o = opp_id /\ a = action)
    then (tally (opp_models self) o a + (if effective then 1 else -1))%Z
    else tally (opp_models self) o a.
Proof.
  unfold update_opp_model, tally, tendencies. simpl.
  destruct (decide (o = opp_id)) as [->|Ho].
  - rewrite lookup_insert_eq. simpl.
    destruct (decide (a = action)) as [->|Ha].
    + rewrite lookup_insert_eq. simpl.
      rewrite bool_decide_eq_true_2 by auto. reflexivity.
    + rewrite lookup_insert_ne by congruence.
      rewrite bool_decide_eq_false_2 by (intros [_ H]; contradiction).
      reflexivity.
  - rewrite lookup_insert_ne by congruence.
    rewrite bool_decide_eq_false_2 by (intros [H _]; contradiction).
    reflexivity.
Qed.

(** X18. [update_opp_model] moves the tally of the given opponent and action
    by +1 when the action was effective and by -1 when it was not (from 0
    for a first record), and no other tally; so a hit followed by a miss on
    the same opponent and action leaves every tally where it was. *)
Theorem update_opp_model_tally (opp_id action : string) (self : AgentMemory) :
  (forall effective,
      tally (opp_models (update_opp_model opp_id action effective self))
        opp_id action
      = (tally (opp_models self) opp_id action
         + (if effective then 1 else -1))%Z)
  /\ (forall effective o a,
      (o, a) <> (opp_id, action) ->
      tally (opp_models (update_opp_model opp_id action effective self)) o a
      = tally (opp_models self) o a)
  /\ (forall o a,
      tally (opp_models (update_opp_model opp_id action false
                           (update_opp_model opp_id action true self))) o a
      = tally (opp_models self) o a).
Proof.
  split; [|split].
  - intros effective. rewrite tally_update.
    rewrite bool_decide_eq_true_2 by auto. reflexivity.
  - intros effective o a Hne. rewrite tally_update.
    rewrite bool_decide_eq_false_2; [reflexivity|].
    intros [-> ->]. contradiction.
  - intros o a. rewrite !tally_update.
    destruct (bool_decide (o = opp_id /\ a = action)); lia.
Qed.

End Memory.

(** * ape/controller.py *)

Module Controller.
Local Open Scope Q_scope.

Definition APE_EVAL_EVERY : nat := 5.
Definition APE_CANDIDATES : nat := 3.
Definition APE_MIN_GAMES : nat := 3.
Definition APE_MAX_POOL : nat := 12.

(** [wins] and [losses] are counters: 0 at creation, raised by one per game. *)
Record PromptCandidate := mkPromptCandidate {
  prompt_id : string;
  agent_id : string;
  text : string;
  wins : nat;
  losses : nat;
  avg_dmg : Q;
  avg_rounds : Q;
  generation : Z;
  created_at : Q
}.

(** [wins + losses], the number of evaluations. *)
Definition evals (c : PromptCandidate) : nat := (wins c + losses c)%nat.

Definition win_rate (self : PromptCandidate) : Q :=
  let total := (wins self + losses self)%nat in
  if (0 <? total)%nat
  then inject_Z (Z.of_nat (wins self)) / inject_Z (Z.of_nat total)
  else 1 # 2.

(** A UCB score: a finite float or [float("inf")]. *)
Inductive Score :=
| Finite (q : Q)
| Infinity.

(** [a > b] on scores. *)
Definition score_gt (a b : Score) : bool :=
  match a, b with
  | Finite x, Finite y => Qlt_bool y x
  | Infinity, Finite _ => true
  | _, Infinity => false
  end.

Definition score_lt (a b : Score) : Prop :=
  match a, b with
  | Finite x, Finite y => x < y
  | Finite _, Infinity => True
  | Infinity, _ => False
  end.

Section Ucb.
(** [math.sqrt] and [math.log] on the values they are given. *)
Variables (sqrt log : Q -> Q).

Definition ucb_score (total_evals : nat) (self : PromptCandidate) : Score :=
  let total := (wins self + losses self)%nat in
  if (total =? 0)%nat then Infinity
  else
    let exploit := win_rate self in
    let explore :=
      sqrt (2 * log (inject_Z (Z.max 1 (Z.of_nat total_evals)))
            / inject_Z (Z.of_nat total)) in
    let dmg_bonus := Qmin (15 # 100) (avg_dmg self / 600) in
    Finite (exploit + explore + dmg_bonus).

(** [sum(c.wins + c.losses for c in candidates)] *)
Definition total_evals (candidates : list PromptCandidate) : nat :=
  list_sum (map evals candidates).

Inductive SelectError := NoCandidates.  (* ValueError("No prompt candidates available") *)

Definition _select_ucb1 (candidates : list PromptCandidate)
  : SelectError + PromptCandidate :=
  match py_max score_gt (ucb_score (total_evals candidates)) candidates with
  | None => inl NoCandidates
  | Some c => inr c
  end.

End Ucb.

(** ** The variant blocks of a model answer *)

(** [find_sub needle s]: the text before and after the first occurrence of
    [needle] in [s]. *)
Fixpoint find_sub (needle s : string) : option (string * string) :=
  if String.prefix needle s
  then Some (EmptyString,
             String.substring (String.length needle)
               (String.length s - String.length needle) s)
  else
    match s with
    | EmptyString => None
    | String c s' =>
        match find_sub needle s' with
        | None => None
        | Some (before, after) => Some (String c before, after)
        end
    end.

(** [re.findall(r"<VARIANT>(.*?)</VARIANT>", resp, re.DOTALL)]: from left to
    right, the shortest text between an opening tag and the next closing
    tag.  [fuel] bounds the number of matches. *)
Fixpoint findall_from (fuel : nat) (resp : string) : list string :=
  match fuel with
  | O => []
  | S fuel' =>
      match find_sub "<VARIANT>" resp with
      | None => []
      | Some (_, rest) =>
          match find_sub "</VARIANT>" rest with
          | None => []
          | Some (body, rest') => body :: findall_from fuel' rest'
          end
      end
  end.

Definition re_findall_variant (resp : string) : list string :=
  findall_from (String.length resp) resp.

(** [[p.strip() for p in parts if len(p.strip()) > 80][:n]] *)
Definition accept_variants (parts : list string) (n : nat) : list string :=
  take n
    (List.filter (fun p => (80 <? String.length p)%nat)
       (map PyStr.strip parts)).

(** [resp] is what [chat] answers; [None] stands for any exception raised
    inside the [try]. *)
Definition _generate_variants (resp : option string) (n : nat) : list string :=
  match resp with
  | Some r => accept_variants (re_findall_variant r) n
  | None => []
  end.

(** ** The durable store: table [prompt_candidates], keyed by [prompt_id] *)

(** [INSERT ... ON CONFLICT(prompt_id) DO UPDATE SET wins, losses, avg_dmg,
    avg_rounds]: a new row is written whole; an existing row keeps its text,
    generation and creation time. *)
Definition _save_candidate (c : PromptCandidate)
  (db : gmap string PromptCandidate) : gmap string PromptCandidate :=
  match db !! prompt_id c with
  | None => <[prompt_id c := c]> db
  | Some row =>
      <[prompt_id c :=
          mkPromptCandidate (prompt_id row) (agent_id row) (text row)
            (wins c) (losses c) (avg_dmg c) (avg_rounds c)
            (generation row) (created_at row)]> db
  end.

(** [DELETE FROM prompt_candidates WHERE prompt_id = ? AND wins + losses < 2] *)
Definition delete_unproven (id : string) (db : gmap string PromptCandidate)
  : gmap string PromptCandidate :=
  match db !! id with
  | Some row => if (wins row + losses row <? 2)%nat then delete id db else db
  | None => db
  end.

(** ** class APEController *)

Record APEController := mkAPEController {
  self_agent_id : string;
  agent_name : string;
  char_class : string;
  _candidates : list PromptCandidate;
  _games_since_ape : nat
}.

Definition set_candidates (cs : list PromptCandidate) (self : APEController)
  : APEController :=
  mkAPEController (self_agent_id self) (agent_name self) (char_class self)
    cs (_games_since_ape self).

(** [int(x)] of a float: truncation towards zero. *)
Definition py_int (x : Q) : Z := Z.quot (Qnum x) (Zpos (Qden x)).

(** ["ape_{}_{}_{:d}".format(agent_id, int(time.time()), i)] *)
Definition ape_id (agent : string) (now : Q) (i : nat) : string :=
  "ape_" +:+ agent +:+ "_" +:+ pretty (py_int now) +:+ "_" +:+ pretty i.

Definition new_candidate (agent : string) (now : Q) (current_gen : Z)
  (i : nat) (vtext : string) : PromptCandidate :=
  mkPromptCandidate (ape_id agent now i) agent vtext 0 0 0 0
    (current_gen + 1)%Z now.

(** The [for i, vtext in enumerate(variants)] loop of [_evolve], from index
    [i] on: each candidate is saved, then appended to the pool. *)
Fixpoint append_variants (agent : string) (now : Q) (current_gen : Z)
  (i : nat) (variants : list string)
  (cands : list PromptCandidate) (db : gmap string PromptCandidate)
  : list PromptCandidate * gmap string PromptCandidate :=
  match variants with
  | [] => (cands, db)
  | vtext :: rest =>
      let c := new_candidate agent now current_gen i vtext in
      append_variants agent now current_gen (S i) rest
        (cands ++ [c]) (_save_candidate c db)
  end.

(** The candidates that loop creates, in order. *)
Fixpoint new_candidates (agent : string) (now : Q) (current_gen : Z)
  (i : nat) (variants : list string) : list PromptCandidate :=
  match variants with
  | [] => []
  | vtext :: rest =>
      new_candidate agent now current_gen i vtext
      :: new_candidates agent now current_gen (S i) rest
  end.

(** [max(c.generation for c in candidates)] of a non-empty pool. *)
Definition max_generation (c0 : PromptCandidate) (cs : list PromptCandidate)
  : Z :=
  fold_left Z.max (map generation cs) (generation c0).

(** [best = max(self._candidates, key=lambda c: c.win_rate())] *)
Definition evolve_best (candidates : list PromptCandidate)
  : option PromptCandidate :=
  py_max Qgt_bool win_rate candidates.

Section Evolve.
Variables (sqrt log : Q -> Q).
(** The answer of [chat] to the rewriting request built from the seed
    candidate and the battle feedback; [None] when the call raises. *)
Variable chat : PromptCandidate -> string -> option string.

(** [list.sort(key=..., reverse=True)]: stable, greatest score first. *)
Fixpoint insert_desc (total_e : nat) (x : PromptCandidate)
  (l : list PromptCandidate) : list PromptCandidate :=
  match l with
  | [] => [x]
  | y :: l' =>
      if score_gt (ucb_score sqrt log total_e x) (ucb_score sqrt log total_e y)
      then x :: y :: l'
      else y :: insert_desc total_e x l'
  end.

Definition sort_desc (total_e : nat) (l : list PromptCandidate)
  : list PromptCandidate :=
  fold_left (fun acc x => insert_desc total_e x acc) l [].

(** The pruning step at the end of [_evolve]. *)
Definition prune (cands : list PromptCandidate)
  (db : gmap string PromptCandidate)
  : list PromptCandidate * gmap string PromptCandidate :=
  if (APE_MAX_POOL <? length cands)%nat then
    let total_e := total_evals cands in
    let sorted := sort_desc total_e cands in
    let to_prune := drop (APE_MAX_POOL - 2) sorted in
    (take (APE_MAX_POOL - 2) sorted,
     fold_left (fun d c => delete_unproven (prompt_id c) d) to_prune db)
  else (cands, db).

(** The pool and the store after the loop that adds the new candidates,
    before pruning. *)
Definition evolve_grow (now : Q) (feedback : string) (self : APEController)
  (db : gmap string PromptCandidate)
  : list PromptCandidate * gmap string PromptCandidate :=
  match _candidates self with
  | [] => ([], db)
  | c0 :: cs =>
      let best := max_from Qgt_bool win_rate c0 cs in
      let current_gen := max_generation c0 cs in
      let variants := _generate_variants (chat best feedback) APE_CANDIDATES in
      append_variants (self_agent_id self) now current_gen 0 variants
        (c0 :: cs) db
  end.

Definition _evolve (now : Q) (feedback : string) (self : APEController)
  (db : gmap string PromptCandidate)
  : APEController * gmap string PromptCandidate :=
  match _candidates self with
  | [] => (self, db)
  | _ :: _ =>
      let (cands, db1) := evolve_grow now feedback self db in
      let (kept, db2) := prune cands db1 in
      (set_candidates kept self, db2)
  end.

End Evolve.

(** ** Sample data and predicates used in the statements *)

Definition losing_candidate : PromptCandidate :=
  mkPromptCandidate "seed_a1" "a1" "You are Kael." 1 3 20 5 0 1000.

Definition untried_candidate : PromptCandidate :=
  mkPromptCandidate "ape_a1_1000_0" "a1" "You are Kael, calm." 0 0 0 0 1 1000.

(** ["x" * n] *)
Fixpoint repeat_char (c : ascii) (n : nat) : string :=
  match n with
  | O => EmptyString
  | S n' => String c (repeat_char c n')
  end.

Definition block_80 : string := repeat_char "x" 80.
Definition block_81 : string := repeat_char "y" 81.

(** A row of the store holds a saved candidate without evaluations. *)
Definition saved_unevaluated (db : gmap string PromptCandidate) (id : string)
  : Prop :=
  exists row, db !! id = Some row /\ wins row = 0%nat /\ losses row = 0%nat.

(** Rows that [db0] did not have carry generation [g]. *)
Definition fresh_rows_at (db0 db : gmap string PromptCandidate) (g : Z)
  : Prop :=
  forall id row, db0 !! id = None -> db !! id = Some row -> generation row = g.

Definition two_candidates : APEController :=
  mkAPEController "a1" "Kael" "warrior"
    [losing_candidate; untried_candidate] 0.

Definition answer_three_blocks : string :=
  "<VARIANT>" +:+ block_81 +:+ "</VARIANT> <VARIANT>" +:+ block_80
  +:+ "</VARIANT><VARIANT>  " +:+ block_81 +:+ "  </VARIANT>".

(** ** Selection *)

Lemma score_gt_lt (a b : Score) : score_gt a b = true <-> score_lt b a.
Proof.
  destruct a as [x|], b as [y|]; simpl;
    try (split; [discriminate|contradiction]); try tauto.
  apply Qlt_bool_iff.
Qed.

Lemma score_lt_trans (a b c : Score) :
  score_lt a b -> score_lt b c -> score_lt a c.
Proof.
  destruct a as [x|], b as [y|], c as [z|]; simpl; try tauto.
  apply Qlt_trans.
Qed.

Lemma score_nlt_lt_trans (a b c : Score) :
  ~ score_lt b a -> score_lt b c -> score_lt a c.
Proof.
  destruct a as [x|], b as [y|], c as [z|]; simpl; try tauto.
  intros Hn Hlt. apply Qnot_lt_le in Hn. eapply Qle_lt_trans; eauto.
Qed.

Lemma ucb_score_zero_evals (sqrt log : Q -> Q) (T : nat) (c : PromptCandidate) :
  evals c = 0%nat -> ucb_score sqrt log T c = Infinity.
Proof.
  unfold evals, ucb_score. intros ->. reflexivity.
Qed.

Lemma ucb_score_evaluated (sqrt log : Q -> Q) (T : nat) (c : PromptCandidate) :
  evals c <> 0%nat -> exists q, ucb_score sqrt log T c = Finite q.
Proof.
  unfold evals, ucb_score. intros H.
  destruct (wins c + losses c =? 0)%nat eqn:E.
  - apply Nat.eqb_eq in E. contradiction.
  - eexists. reflexivity.
Qed.

Lemma ucb_score_infinity_iff (sqrt log : Q -> Q) (T : nat) (c : PromptCandidate) :
  ucb_score sqrt log T c = Infinity <-> evals c = 0%nat.
Proof.
  split; [|apply ucb_score_zero_evals].
  intros H. destruct (Nat.eq_dec (evals c) 0%nat) as [E|E]; [exact E|].
  destruct (ucb_score_evaluated sqrt log T c E) as [q Hq]. congruence.
Qed.


(** The scenario of three candidates, the first with one recorded win: the
    next selection is the first untried one. *)
Example select_after_one_result (sqrt log : Q -> Q) :
  let a := mkPromptCandidate "seed_a1" "a1" "A" 1 0 6 (3 # 2) 0 1000 in
  let b := mkPromptCandidate "ape_a1_1000_0" "a1" "B" 0 0 0 0 1 1000 in
  let c := mkPromptCandidate "ape_a1_1000_1" "a1" "C" 0 0 0 0 1 1000 in
  _select_ucb1 sqrt log [a; b; c] = inr b
  /\ _select_ucb1 sqrt log [b; a; c] = inr b
  /\ _select_ucb1 sqrt log [] = inl NoCandidates.
Proof. repeat split. Qed.

(** ** The seed of an evolution round *)

Lemma win_rate_zero_evals (c : PromptCandidate) :
  evals c = 0%nat -> win_rate c = 1 # 2.
Proof.
  unfold evals, win_rate. intros ->. reflexivity.
Qed.

Lemma evolve_best_first_max (c0 : PromptCandidate) (cs : list PromptCandidate) :
  exists b, evolve_best (c0 :: cs) = Some b
            /\ first_max win_rate Qlt (c0 :: cs) b.
Proof.
  apply py_max_first_max.
  - intros a b. unfold Qgt_bool. apply Qlt_bool_iff.
  - intros a b c. apply Qlt_trans.
  - intros a b c Hn Hlt. apply Qnot_lt_le in Hn.
    eapply Qle_lt_trans; eauto.
Qed.

(** C10. [win_rate] is 0.5 for a candidate without evaluations.  Hence, in
    a pool that holds such a candidate and whose evaluated candidates all
    have a win rate below 0.5, the seed picked by [_evolve] is a candidate
    without evaluations; e.g. a fresh candidate is preferred to one with one
    win in four games. *)
Theorem win_rate_unevaluated_seed :
  (forall c, evals c = 0%nat -> win_rate c = 1 # 2)
  /\ (forall pool,
      (exists z, In z pool /\ evals z = 0%nat) ->
      (forall c, In c pool -> evals c <> 0%nat -> win_rate c < 1 # 2) ->
      exists b, evolve_best pool = Some b /\ In b pool /\ evals b = 0%nat)
  /\ (evals losing_candidate = 4%nat
      /\ win_rate losing_candidate < 1 # 2
      /\ evals untried_candidate = 0%nat
      /\ evolve_best [losing_candidate; untried_candidate]
         = Some untried_candidate).
Proof.
  split; [exact win_rate_zero_evals|]. split.
  - intros pool (z & Hz & Ez) Hlow.
    destruct pool as [|c0 cs]; [destruct Hz|].
    destruct (evolve_best_first_max c0 cs) as (b & Hb & l1 & l2 & E & H1 & H2).
    exists b. split; [exact Hb|].
    assert (Hin : In b (c0 :: cs)) by (rewrite E; apply in_elt).
    split; [exact Hin|].
    destruct (Nat.eq_dec (evals b) 0%nat) as [Eb|Eb]; [exact Eb|].
    exfalso. pose proof (Hlow b Hin Eb) as Hb_low.
    pose proof (win_rate_zero_evals z Ez) as Hz_rate.
    rewrite E in Hz. apply in_app_or in Hz. destruct Hz as [Hz|[Hz|Hz]].
    + specialize (H1 z Hz). rewrite Hz_rate in H1. lra.
    + subst z. contradiction.
    + apply (H2 z Hz). rewrite Hz_rate. exact Hb_low.
  - repeat split.
Qed.

(** ** Evolution *)

Lemma In_take {A : Type} (n : nat) (l : list A) (x : A) :
  In x (take n l) -> In x l.
Proof.
  revert l. induction n as [|n IH]; intros [|y l]; simpl; try tauto.
  intros [H|H]; auto.
Qed.

Lemma accept_variants_In (parts : list string) (n : nat) (v : string) :
  In v (accept_variants parts n) ->
  (80 < String.length v)%nat /\ exists p, In p parts /\ v = PyStr.strip p.
Proof.
  unfold accept_variants. intros H. apply In_take in H.
  apply filter_In in H. destruct H as [Hin Hlen].
  apply Nat.ltb_lt in Hlen. split; [exact Hlen|].
  apply in_map_iff in Hin. destruct Hin as (p & <- & Hp). eauto.
Qed.

Lemma accept_variants_length (parts : list string) (n : nat) :
  (length (accept_variants parts n) <= n)%nat.
Proof. unfold accept_variants. apply firstn_le_length. Qed.

Lemma generate_variants_length (resp : option string) (n : nat) :
  (length (_generate_variants resp n) <= n)%nat.
Proof.
  destruct resp as [r|]; simpl; [apply accept_variants_length|lia].
Qed.

Lemma append_variants_eq (agent : string) (now : Q) (g : Z)
  (variants : list string) :
  forall i cands db,
    append_variants agent now g i variants cands db
    = (cands ++ new_candidates agent now g i variants,
       fold_left (fun d c => _save_candidate c d)
         (new_candidates agent now g i variants) db).
Proof.
  induction variants as [|v vs IH]; intros i cands db; simpl.
  - rewrite app_nil_r. reflexivity.
  - rewrite IH, <- app_assoc. reflexivity.
Qed.

Lemma new_candidates_text (agent : string) (now : Q) (g : Z)
  (variants : list string) :
  forall i, map text (new_candidates agent now g i variants) = variants.
Proof.
  induction variants as [|v vs IH]; intros i; simpl; [reflexivity|].
  rewrite IH. reflexivity.
Qed.

Lemma new_candidates_fields (agent : string) (now : Q) (g : Z)
  (variants : list string) :
  forall i c, In c (new_candidates agent now g i variants) ->
    generation c = (g + 1)%Z /\ wins c = 0%nat /\ losses c = 0%nat.
Proof.
  induction variants as [|v vs IH]; intros i c; simpl; [tauto|].
  intros [<-|H]; [auto|eauto].
Qed.

Lemma max_generation_init (gs : list Z) :
  forall g0, (g0 <= fold_left Z.max gs g0)%Z.
Proof.
  induction gs as [|g gs IH]; intros g0; simpl; [lia|].
  specialize (IH (Z.max g0 g)). lia.
Qed.

Lemma fold_max_upper (gs : list Z) :
  forall g0 x, x = g0 \/ In x gs -> (x <= fold_left Z.max gs g0)%Z.
Proof.
  induction gs as [|g gs IH]; intros g0 x Hx; simpl.
  - destruct Hx as [->|[]]. lia.
  - destruct Hx as [->|[<-|Hx]].
    + pose proof (max_generation_init gs (Z.max g0 g)). lia.
    + pose proof (max_generation_init gs (Z.max g0 g)). lia.
    + apply IH. right. exact Hx.
Qed.

Lemma max_generation_upper (c0 : PromptCandidate) (cs : list PromptCandidate) :
  forall old, In old (c0 :: cs) ->
    (generation old <= max_generation c0 cs)%Z.
Proof.
  intros old H. unfold max_generation. apply fold_max_upper.
  destruct H as [<-|H]; [left; reflexivity|].
  right. apply in_map. exact H.
Qed.

Lemma save_candidate_lookup (c : PromptCandidate)
  (db : gmap string PromptCandidate) :
  exists row, _save_candidate c db !! prompt_id c = Some row
    /\ wins row = wins c /\ losses row = losses c
    /\ (db !! prompt_id c = None -> row = c).
Proof.
  unfold _save_candidate. destruct (db !! prompt_id c) as [old|] eqn:E.
  - eexists. rewrite lookup_insert_eq. split; [reflexivity|].
    simpl. repeat split; auto. discriminate.
  - exists c. rewrite lookup_insert_eq. auto.
Qed.

Lemma save_candidate_other (c : PromptCandidate)
  (db : gmap string PromptCandidate) (id : string) :
  id <> prompt_id c -> _save_candidate c db !! id = db !! id.
Proof.
  intros Hne. unfold _save_candidate.
  destruct (db !! prompt_id c); apply lookup_insert_ne; congruence.
Qed.

Lemma save_keeps_unevaluated (c : PromptCandidate)
  (db : gmap string PromptCandidate) (id : string) :
  wins c = 0%nat -> losses c = 0%nat ->
  saved_unevaluated db id -> saved_unevaluated (_save_candidate c db) id.
Proof.
  intros Hw Hl (row & Hrow & Hrw & Hrl).
  destruct (String.eqb_spec id (prompt_id c)) as [->|Hne].
  - destruct (save_candidate_lookup c db) as (row' & H' & Hw' & Hl' & _).
    exists row'. split; [exact H'|]. split; congruence.
  - exists row. rewrite save_candidate_other; auto.
Qed.

Lemma save_keeps_fresh_rows (db0 db : gmap string PromptCandidate) (g : Z)
  (c : PromptCandidate) :
  generation c = g ->
  fresh_rows_at db0 db g -> fresh_rows_at db0 (_save_candidate c db) g.
Proof.
  intros Hg Hf id row H0 Hrow.
  destruct (String.eqb_spec id (prompt_id c)) as [->|Hne].
  - unfold _save_candidate in Hrow.
    destruct (db !! prompt_id c) as [old|] eqn:E.
    + rewrite lookup_insert_eq in Hrow. injection Hrow as <-. simpl.
      apply (Hf (prompt_id c) old H0 E).
    + rewrite lookup_insert_eq in Hrow. injection Hrow as <-. exact Hg.
  - rewrite save_candidate_other in Hrow by exact Hne.
    apply (Hf id row H0 Hrow).
Qed.

Lemma saves_persist (db0 : gmap string PromptCandidate) (g : Z)
  (news : list PromptCandidate) :
  (forall c, In c news ->
     generation c = g /\ wins c = 0%nat /\ losses c = 0%nat) ->
  forall db,
    fresh_rows_at db0 db g ->
    let db' := fold_left (fun d c => _save_candidate c d) news db in
    fresh_rows_at db0 db' g
    /\ (forall id, saved_unevaluated db id -> saved_unevaluated db' id)
    /\ (forall c, In c news -> saved_unevaluated db' (prompt_id c)).
Proof.
  induction news as [|n ns IH]; intros Hall db Hf; simpl.
  - split; [exact Hf|]. split; [auto|]. intros c [].
  - destruct (Hall n (or_introl eq_refl)) as (Hg & Hw & Hl).
    assert (Hall' : forall c, In c ns ->
              generation c = g /\ wins c = 0%nat /\ losses c = 0%nat)
      by (intros c Hc; apply Hall; right; exact Hc).
    destruct (IH Hall' (_save_candidate n db)
                (save_keeps_fresh_rows db0 db g n Hg Hf))
      as (Hf' & Hkeep & Hnew).
    split; [exact Hf'|]. split.
    + intros id Hid. apply Hkeep, save_keeps_unevaluated; assumption.
    + intros c [<-|Hc]; [|apply Hnew, Hc].
      apply Hkeep.
      destruct (save_candidate_lookup n db) as (row & Hrow & Hrw & Hrl & _).
      exists row. split; [exact Hrow|]. split; congruence.
Qed.

Lemma insert_desc_In (sqrt log : Q -> Q) (total_e : nat)
  (x y : PromptCandidate) (l : list PromptCandidate) :
  In y (insert_desc sqrt log total_e x l) -> y = x \/ In y l.
Proof.
  induction l as [|z l IH]; simpl.
  - intros [<-|[]]. left. reflexivity.
  - destruct (score_gt _ _); simpl.
    + intros [<-|[<-|H]]; auto.
    + intros [<-|H]; auto. destruct (IH H); auto.
Qed.

Lemma sort_desc_In (sqrt log : Q -> Q) (total_e : nat)
  (l : list PromptCandidate) :
  forall acc y,
    In y (fold_left (fun acc x => insert_desc sqrt log total_e x acc) l acc) ->
    In y l \/ In y acc.
Proof.
  induction l as [|x l IH]; intros acc y; simpl; [auto|].
  intros H. destruct (IH _ _ H) as [H'|H']; [auto|].
  apply insert_desc_In in H'. destruct H' as [->|H']; auto.
Qed.

Lemma prune_In (sqrt log : Q -> Q) (cands : list PromptCandidate)
  (db : gmap string PromptCandidate) (c : PromptCandidate) :
  In c (fst (prune sqrt log cands db)) -> In c cands.
Proof.
  unfold prune. destruct (APE_MAX_POOL <? length cands)%nat; simpl; [|auto].
  intros H. apply In_take in H. unfold sort_desc in H.
  apply sort_desc_In in H. destruct H as [H|[]]. exact H.
Qed.

Example findall_example :
  re_findall_variant
    "Here: <VARIANT> one </VARIANT> noise <VARIANT>two<VARIANT>x</VARIANT> <VARIANT>open"
  = [" one "; "two<VARIANT>x"]%string.
Proof. reflexivity. Qed.

Example accept_example :
  accept_variants ["short"%string; block_81; block_80; block_81; block_81;
                   block_81] 3
  = [block_81; block_81; block_81].
Proof. reflexivity. Qed.

(** ** The parse of the model's answer *)

Lemma string_app_length (a b : string) :
  String.length (a +:+ b) = (String.length a + String.length b)%nat.
Proof. induction a as [|c a IH]; simpl; [reflexivity|]. rewrite IH. reflexivity. Qed.

Lemma substring_all (s : string) : String.substring 0 (String.length s) s = s.
Proof. induction s as [|c s IH]; simpl; [reflexivity|]. rewrite IH. reflexivity. Qed.

Lemma prefix_split (n : string) :
  forall s, String.prefix n s = true ->
    s = n +:+ String.substring (String.length n)
                (String.length s - String.length n) s.
Proof.
  induction n as [|c n IH]; intros s.
  - intros _. simpl. rewrite Nat.sub_0_r, substring_all. reflexivity.
  - destruct s as [|c' s]; simpl; [discriminate|].
    destruct (ascii_dec c c') as [->|]; [|discriminate].
    intros H. rewrite (IH s H) at 1. reflexivity.
Qed.

Lemma prefix_app (n : string) : forall b, String.prefix n (n +:+ b) = true.
Proof.
  induction n as [|c n IH]; intros b; simpl; [destruct b; reflexivity|].
  destruct (ascii_dec c c); [apply IH|congruence].
Qed.

Lemma prefix_false (n s : string) :
  String.prefix n s = false -> forall b, s <> n +:+ b.
Proof.
  intros H b ->. rewrite prefix_app in H. discriminate.
Qed.

Lemma find_sub_sound (n : string) :
  forall s a b, find_sub n s = Some (a, b) -> s = a +:+ n +:+ b.
Proof.
  induction s as [|c s IH]; intros a b; cbn [find_sub].
  - destruct (String.prefix n "") eqn:E; [|discriminate].
    intros H. injection H as <- <-. apply (prefix_split n "" E).
  - destruct (String.prefix n (String c s)) eqn:E.
    + intros H. injection H as <- <-. simpl. apply (prefix_split n _ E).
    + destruct (find_sub n s) as [[a' b']|] eqn:F; [|discriminate].
      intros H. injection H as <- <-. simpl. rewrite (IH a' b' eq_refl) at 1.
      reflexivity.
Qed.

Lemma find_sub_first (n : string) :
  forall s a b, find_sub n s = Some (a, b) ->
    forall a' b', s = a' +:+ n +:+ b' ->
      (String.length a <= String.length a')%nat.
Proof.
  induction s as [|c s IH]; intros a b; cbn [find_sub].
  - destruct (String.prefix n ""); [|discriminate].
    intros H. injection H as <- <-. simpl. lia.
  - destruct (String.prefix n (String c s)) eqn:E.
    + intros H. injection H as <- <-. simpl. lia.
    + destruct (find_sub n s) as [[a0 b0]|] eqn:F; [|discriminate].
      intros H. injection H as <- <-. intros a' b' Es.
      destruct a' as [|c' a'].
      * simpl in Es. exfalso. exact (prefix_false _ _ E b' Es).
      * simpl in Es. injection Es as _ Es. simpl.
        specialize (IH a0 b0 eq_refl a' b' Es). lia.
Qed.

Lemma find_sub_none (n : string) :
  forall s, find_sub n s = None -> forall a b, s <> a +:+ n +:+ b.
Proof.
  induction s as [|c s IH]; cbn [find_sub].
  - destruct (String.prefix n "") eqn:E; [discriminate|].
    intros _ a b Es. destruct a; simpl in Es.
    + exact (prefix_false _ _ E b Es).
    + discriminate.
  - destruct (String.prefix n (String c s)) eqn:E; [discriminate|].
    destruct (find_sub n s) as [[a0 b0]|] eqn:F; [discriminate|].
    intros _ a b Es. destruct a as [|c' a]; simpl in Es.
    + exact (prefix_false _ _ E b Es).
    + injection Es as _ Es. exact (IH eq_refl a b Es).
Qed.

Lemma find_sub_shorter (n s a b : string) :
  find_sub n s = Some (a, b) ->
  (String.length b + String.length n <= String.length s)%nat.
Proof.
  intros H. apply find_sub_sound in H. subst s.
  rewrite !string_app_length. lia.
Qed.

Lemma findall_from_fuel (fuel : nat) :
  forall fuel' resp,
    (String.length resp <= fuel)%nat -> (String.length resp <= fuel')%nat ->
    findall_from fuel resp = findall_from fuel' resp.
Proof.
  induction fuel as [|fuel IH]; intros fuel' resp H H'.
  - destruct resp; [|simpl in H; lia].
    destruct fuel'; reflexivity.
  - destruct fuel' as [|fuel'].
    + destruct resp; [reflexivity|simpl in H'; lia].
    + simpl.
      destruct (find_sub "<VARIANT>" resp) as [[pre rest]|] eqn:F1;
        [|reflexivity].
      destruct (find_sub "</VARIANT>" rest) as [[body rest']|] eqn:F2;
        [|reflexivity].
      apply find_sub_shorter in F1. apply find_sub_shorter in F2.
      simpl in F1, F2. f_equal. apply IH; lia.
Qed.

(** The matches, without the fuel. *)
Lemma re_findall_variant_eq (resp : string) :
  re_findall_variant resp
  = match find_sub "<VARIANT>" resp with
    | None => []
    | Some (_, rest) =>
        match find_sub "</VARIANT>" rest with
        | None => []
        | Some (body, rest') => body :: re_findall_variant rest'
        end
    end.
Proof.
  unfold re_findall_variant.
  destruct resp as [|c resp]; [reflexivity|].
  change (String.length (String c resp)) with (S (String.length resp)).
  cbn [findall_from].
  destruct (find_sub "<VARIANT>" (String c resp)) as [[pre rest]|] eqn:F1;
    [|reflexivity].
  destruct (find_sub "</VARIANT>" rest) as [[body rest']|] eqn:F2;
    [|reflexivity].
  apply find_sub_shorter in F1. apply find_sub_shorter in F2.
  simpl in F1, F2. f_equal. apply findall_from_fuel; lia.
Qed.

(** C7 as stated fails at the boundary: a block of exactly 80 characters is
    not below 80 characters, and it is discarded. *)
Lemma accept_variants_counterexample :
  String.length (PyStr.strip block_80) = 80%nat
  /\ accept_variants [block_80] 3 = []
  /\ _generate_variants (Some ("<VARIANT>" +:+ block_80 +:+ "</VARIANT>")) 3
     = [].
Proof. repeat split. Qed.

Lemma max_generation_attained (c0 : PromptCandidate)
  (cs : list PromptCandidate) :
  exists old, In old (c0 :: cs) /\ generation old = max_generation c0 cs.
Proof.
  unfold max_generation.
  assert (H : forall gs g0,
            fold_left Z.max gs g0 = g0 \/ In (fold_left Z.max gs g0) gs).
  { induction gs as [|g gs IH]; intros g0; simpl; [auto|].
    destruct (IH (Z.max g0 g)) as [H|H]; [|auto].
    rewrite H. destruct (Z.max_spec g0 g) as [[_ ->]|[_ ->]]; auto. }
  destruct (H (map generation cs) (generation c0)) as [E|E].
  - exists c0. split; [left; reflexivity|symmetry; exact E].
  - apply in_map_iff in E. destruct E as (old & E & Hin).
    exists old. split; [right; exact Hin|exact E].
Qed.

(** C7, as the code has it.
    - The variant blocks are parsed from left to right: the text between
      the first opening tag and the first closing tag after it, then the
      same from behind that closing tag on.
    - A block is accepted only if its stripped text is longer than 80
      characters; the accepted variants are the first 3 such stripped
      blocks, in order, and none when the call to the model raises.
    - In [_evolve] on a non-empty pool each accepted variant becomes one new
      candidate, appended to the pool in order, with the variant as its
      text, generation one above the greatest generation found in the pool,
      and no wins or losses; it is saved to the store as it is created,
      where its row shows no evaluations (and the new generation, if the id
      was not in the store).
    - Every candidate of the old pool has a generation below that of every
      new candidate, and the pool left by [_evolve] holds only candidates
      of the old pool and new ones. *)
Theorem evolve_variants_spec (sqrt log : Q -> Q)
  (chat : PromptCandidate -> string -> option string)
  (now : Q) (feedback : string) (self : APEController)
  (db : gmap string PromptCandidate) :
  (forall resp,
      re_findall_variant resp
      = match find_sub "<VARIANT>" resp with
        | None => []
        | Some (_, rest) =>
            match find_sub "</VARIANT>" rest with
            | None => []
            | Some (body, rest') => body :: re_findall_variant rest'
            end
        end)
  /\ (forall needle s,
      match find_sub needle s with
      | Some (a, b) =>
          s = a +:+ needle +:+ b
          /\ forall a' b', s = a' +:+ needle +:+ b' ->
                           (String.length a <= String.length a')%nat
      | None => forall a b, s <> a +:+ needle +:+ b
      end)
  /\ (forall resp n,
      _generate_variants (Some resp) n
      = take n (List.filter (fun p => (80 <? String.length p)%nat)
                  (map PyStr.strip (re_findall_variant resp)))
      /\ _generate_variants None n = [])
  /\ (forall resp n v,
      In v (_generate_variants (Some resp) n) ->
      (80 < String.length v)%nat
      /\ exists p, In p (re_findall_variant resp) /\ v = PyStr.strip p)
  /\ (forall c0 cs,
      _candidates self = c0 :: cs ->
      let variants :=
        match chat (max_from Qgt_bool win_rate c0 cs) feedback with
        | Some resp =>
            take 3 (List.filter (fun p => (80 <? String.length p)%nat)
                      (map PyStr.strip (re_findall_variant resp)))
        | None => []
        end in
      let grown := evolve_grow chat now feedback self db in
      exists g news,
        (exists old, In old (c0 :: cs) /\ generation old = g)
        /\ (forall old, In old (c0 :: cs) -> (generation old <= g)%Z)
        /\ (length news <= 3)%nat
        /\ fst grown = (c0 :: cs) ++ news
        /\ snd grown = fold_left (fun d c => _save_candidate c d) news db
        /\ map text news = variants
        /\ (forall c, In c news ->
              generation c = (g + 1)%Z /\ wins c = 0%nat /\ losses c = 0%nat)
        /\ (forall c, In c news ->
              exists row, snd grown !! prompt_id c = Some row
                /\ wins row = 0%nat /\ losses row = 0%nat
                /\ (db !! prompt_id c = None -> generation row = (g + 1)%Z))
        /\ (forall c old, In c news -> In old (c0 :: cs) ->
              (generation old < generation c)%Z)
        /\ (forall c,
              In c (_candidates (fst (_evolve sqrt log chat now feedback self db))) ->
              In c (c0 :: cs) \/ In c news)).
Proof.
  split; [exact re_findall_variant_eq|].
  split.
  { intros needle s. destruct (find_sub needle s) as [[a b]|] eqn:F.
    - split; [apply (find_sub_sound needle s a b F)|].
      apply (find_sub_first needle s a b F).
    - apply (find_sub_none needle s F). }
  split; [intros resp n; split; reflexivity|].
  split; [intros resp n v; apply accept_variants_In|].
  intros c0 cs Hpool variants grown.
  set (g := max_generation c0 cs).
  set (news := new_candidates (self_agent_id self) now g 0 variants).
  assert (Hvar : variants
            = _generate_variants
                (chat (max_from Qgt_bool win_rate c0 cs) feedback)
                APE_CANDIDATES).
  { unfold variants. destruct (chat _ feedback); reflexivity. }
  assert (Hgrown : grown
            = ((c0 :: cs) ++ news,
               fold_left (fun d c => _save_candidate c d) news db)).
  { unfold grown, evolve_grow. rewrite Hpool. fold g. rewrite <- Hvar.
    apply append_variants_eq. }
  assert (Hfields : forall c, In c news ->
            generation c = (g + 1)%Z /\ wins c = 0%nat /\ losses c = 0%nat)
    by (intros c; apply new_candidates_fields).
  assert (Htext : map text news = variants) by apply new_candidates_text.
  exists g, news.
  split; [apply max_generation_attained|].
  split; [apply max_generation_upper|].
  split.
  { rewrite <- (length_map text news), Htext, Hvar.
    apply generate_variants_length. }
  split; [rewrite Hgrown; reflexivity|].
  split; [rewrite Hgrown; reflexivity|].
  split; [exact Htext|].
  split; [exact Hfields|].
  split.
  - intros c Hc. rewrite Hgrown. simpl.
    assert (Hf0 : fresh_rows_at db db (g + 1)%Z)
      by (intros id row H0 H1; congruence).
    destruct (saves_persist db (g + 1)%Z news Hfields db Hf0)
      as (Hf & _ & Hnew).
    destruct (Hnew c Hc) as (row & Hrow & Hw & Hl).
    exists row. repeat split; auto.
    intros Hnone. apply (Hf (prompt_id c) row Hnone Hrow).
  - split.
    + intros c old Hc Hold. destruct (Hfields c Hc) as (-> & _).
      pose proof (max_generation_upper c0 cs old Hold). fold g in H. lia.
    + intros c. unfold _evolve. rewrite Hpool. fold grown. rewrite Hgrown.
      destruct (prune sqrt log ((c0 :: cs) ++ news)
                  (fold_left (fun d c => _save_candidate c d) news db))
        as [kept db2] eqn:Ep.
      simpl. intros Hc.
      assert (Hk : In c (fst (prune sqrt log ((c0 :: cs) ++ news)
                  (fold_left (fun d c => _save_candidate c d) news db))))
        by (rewrite Ep; exact Hc).
      apply prune_In in Hk. apply in_app_or in Hk. exact Hk.
Qed.

Example evolve_example (sqrt log : Q -> Q) :
  let r := _evolve sqrt log (fun _ _ => Some answer_three_blocks) 2000
             "lost to the mage" two_candidates ∅ in
  map prompt_id (_candidates (fst r))
  = ["seed_a1"; "ape_a1_1000_0"; "ape_a1_2000_0"; "ape_a1_2000_1"]%string
  /\ map generation (_candidates (fst r)) = [0; 1; 2; 2]%Z
  /\ map evals (_candidates (fst r)) = [4; 0; 0; 0]%nat
  /\ map text (drop 2 (_candidates (fst r))) = [block_81; block_81]
  /\ size (snd r) = 2%nat.
Proof. vm_compute. repeat split. Qed.

(** ** Recording results in the store *)

(** [_update_candidate_result]: the [UPDATE] of the row with the given id,
    with smoothing factor 0.3; nothing happens when there is no such row. *)
Definition _update_candidate_result (pid : string) (won : bool)
  (dmg rounds : Z) (db : gmap string PromptCandidate)
  : gmap string PromptCandidate :=
  match db !! pid with
  | Some row =>
      let alpha := 3 # 10 in
      let new_dmg := avg_dmg row * (1 - alpha) + inject_Z dmg * alpha in
      let new_rnd := avg_rounds row * (1 - alpha) + inject_Z rounds * alpha in
      <[pid :=
          mkPromptCandidate (prompt_id row) (agent_id row) (text row)
            (wins row + (if won then 1 else 0))
            (losses row + (if won then 0 else 1))
            new_dmg new_rnd (generation row) (created_at row)]> db
  | None => db
  end.

Lemma candidate_eta (c : PromptCandidate) :
  mkPromptCandidate (prompt_id c) (agent_id c) (text c) (wins c) (losses c)
    (avg_dmg c) (avg_rounds c) (generation c) (created_at c) = c.
Proof. destruct c. reflexivity. Qed.

(** X19. [_save_candidate] is an upsert.  A candidate whose id is new is
    stored as it is.  For an id already in the store, the row keeps its
    text, generation, owner and creation time and takes the candidate's
    wins, losses and averages.  Rows under other ids are not touched, and
    saving the same candidate twice is the same as saving it once. *)
Theorem save_candidate_upsert (c : PromptCandidate)
  (db : gmap string PromptCandidate) :
  (db !! prompt_id c = None -> _save_candidate c db !! prompt_id c = Some c)
  /\ (forall row,
      db !! prompt_id c = Some row ->
      exists row',
        _save_candidate c db !! prompt_id c = Some row'
        /\ text row' = text row /\ generation row' = generation row
        /\ agent_id row' = agent_id row /\ created_at row' = created_at row
        /\ wins row' = wins c /\ losses row' = losses c
        /\ avg_dmg row' = avg_dmg c /\ avg_rounds row' = avg_rounds c)
  /\ (forall id, id <> prompt_id c -> _save_candidate c db !! id = db !! id)
  /\ _save_candidate c (_save_candidate c db) = _save_candidate c db.
Proof.
  split; [|split; [|split]].
  - intros H. unfold _save_candidate. rewrite H. apply lookup_insert_eq.
  - intros row H. unfold _save_candidate. rewrite H.
    eexists. rewrite lookup_insert_eq. split; [reflexivity|].
    simpl. repeat split.
  - intros id Hne. apply save_candidate_other. exact Hne.
  - unfold _save_candidate at 1.
    destruct (_save_candidate c db !! prompt_id c) as [row1|] eqn:E1.
    + unfold _save_candidate in E1 |- *.
      destruct (db !! prompt_id c) as [row|] eqn:E.
      * rewrite lookup_insert_eq in E1. injection E1 as <-. simpl.
        apply insert_insert_eq.
      * rewrite lookup_insert_eq in E1. injection E1 as <-.
        rewrite candidate_eta. apply insert_insert_eq.
    + exfalso. unfold _save_candidate in E1.
      destruct (db !! prompt_id c); rewrite lookup_insert_eq in E1;
        discriminate E1.
Qed.

(** ** The controller with its [_current] selection *)

(** [_current] refers to a candidate of the pool; only its [prompt_id] and
    [text], which never change, are read through it. *)
Record Session := mkSession {
  controller : APEController;
  _current : option PromptCandidate
}.

Definition has_candidates (s : Session) : bool :=
  (0 <? length (_candidates (controller s)))%nat.

Definition seed_initial (now : Q) (base_prompt : string) (s : Session)
  (db : gmap string PromptCandidate)
  : Session * gmap string PromptCandidate :=
  let c :=
    mkPromptCandidate ("seed_" +:+ self_agent_id (controller s))
      (self_agent_id (controller s)) base_prompt 0 0 0 0 0 now in
  (mkSession (set_candidates [c] (controller s)) (_current s),
   _save_candidate c db).

(** The [for c in self._candidates: if c.prompt_id == ...: ...; break] loop
    of [record_game_result]. *)
Fixpoint bump_first (pid : string) (won : bool)
  (cands : list PromptCandidate) : list PromptCandidate :=
  match cands with
  | [] => []
  | c :: cs =>
      if String.eqb (prompt_id c) pid then
        mkPromptCandidate (prompt_id c) (agent_id c) (text c)
          (if won then S (wins c) else wins c)
          (if won then losses c else S (losses c))
          (avg_dmg c) (avg_rounds c) (generation c) (created_at c) :: cs
      else c :: bump_first pid won cs
  end.

Definition set_games (n : nat) (self : APEController) : APEController :=
  mkAPEController (self_agent_id self) (agent_name self) (char_class self)
    (_candidates self) n.

Section Session.
Variables (sqrt log : Q -> Q).
Variable chat : PromptCandidate -> string -> option string.

Definition get_active_prompt (s : Session)
  : Session * (SelectError + option string) :=
  match _candidates (controller s) with
  | [] => (s, inr None)
  | _ :: _ =>
      match _select_ucb1 sqrt log (_candidates (controller s)) with
      | inl e => (s, inl e)
      | inr c => (mkSession (controller s) (Some c), inr (Some (text c)))
      end
  end.

(** The [if self._current:] block of [record_game_result]. *)
Definition record_current (won : bool) (dmg_dealt rounds_survived : Z)
  (s : Session) (db : gmap string PromptCandidate)
  : Session * gmap string PromptCandidate :=
  match _current s with
  | Some cur =>
      (mkSession
         (set_candidates
            (bump_first (prompt_id cur) won (_candidates (controller s)))
            (controller s))
         (_current s),
       _update_candidate_result (prompt_id cur) won dmg_dealt rounds_survived db)
  | None => (s, db)
  end.

Definition record_game_result (now : Q) (won : bool)
  (dmg_dealt rounds_survived : Z) (battle_summary : string)
  (s : Session) (db : gmap string PromptCandidate)
  : Session * gmap string PromptCandidate :=
  let (s1, db1) := record_current won dmg_dealt rounds_survived s db in
  let games := S (_games_since_ape (controller s1)) in
  let total := total_evals (_candidates (controller s1)) in
  if (APE_EVAL_EVERY <=? games)%nat && (APE_MIN_GAMES <=? total)%nat then
    let (ctl, db2) :=
      _evolve sqrt log chat now battle_summary
        (set_games 0 (controller s1)) db1 in
    (mkSession ctl (_current s1), db2)
  else (mkSession (set_games games (controller s1)) (_current s1), db1).

End Session.

(** The pool mirrors the store: every candidate of the pool has a row with
    the same wins and losses. *)
Definition in_sync (cands : list PromptCandidate)
  (db : gmap string PromptCandidate) : Prop :=
  forall c, In c cands ->
    exists row, db !! prompt_id c = Some row
                /\ wins row = wins c /\ losses row = losses c.

(** ** Properties of the session operations *)

Lemma select_ucb1_member (sqrt log : Q -> Q) (c0 : PromptCandidate)
  (cs : list PromptCandidate) :
  exists c, _select_ucb1 sqrt log (c0 :: cs) = inr c
    /\ In c (c0 :: cs)
    /\ ((exists z, In z (c0 :: cs) /\ evals z = 0%nat) -> evals c = 0%nat).
Proof.
  set (score := ucb_score sqrt log (total_evals (c0 :: cs))).
  destruct (py_max_first_max score_gt score score_lt score_gt_lt
              score_lt_trans score_nlt_lt_trans c0 cs)
    as (c & Hc & l1 & l2 & E & H1 & H2).
  exists c. unfold _select_ucb1. fold score. rewrite Hc.
  split; [reflexivity|]. split; [rewrite E; apply in_elt|].
  intros (z & Hz & Ez).
  assert (Hzs : score z = Infinity) by (apply ucb_score_zero_evals, Ez).
  apply (ucb_score_infinity_iff sqrt log (total_evals (c0 :: cs))).
  fold score. rewrite E in Hz. apply in_app_or in Hz.
  destruct Hz as [Hz|[<-|Hz]].
  - specialize (H1 z Hz). rewrite Hzs in H1. contradiction.
  - exact Hzs.
  - specialize (H2 z Hz). rewrite Hzs in H2.
    destruct (score c); [exfalso; apply H2; exact I|reflexivity].
Qed.

(** X21. [get_active_prompt] never raises: on an empty pool it answers
    [None] and changes nothing; otherwise it answers the text of a candidate
    of the pool, which becomes [_current], an unevaluated one whenever the
    pool holds any.  The pool itself is never changed. *)
Theorem get_active_prompt_spec (sqrt log : Q -> Q) (s : Session) :
  let s' := fst (get_active_prompt sqrt log s) in
  let r := snd (get_active_prompt sqrt log s) in
  controller s' = controller s
  /\ (forall e, r <> inl e)
  /\ (_candidates (controller s) = [] -> r = inr None /\ s' = s)
  /\ (_candidates (controller s) <> [] ->
      exists c, r = inr (Some (text c))
        /\ In c (_candidates (controller s))
        /\ _current s' = Some c
        /\ ((exists z, In z (_candidates (controller s)) /\ evals z = 0%nat)
            -> evals c = 0%nat)).
Proof.
  intros s' r. unfold s', r, get_active_prompt.
  destruct (_candidates (controller s)) as [|c0 cs] eqn:E.
  - simpl. split; [reflexivity|]. split; [discriminate|].
    split; [auto|congruence].
  - destruct (select_ucb1_member sqrt log c0 cs) as (c & -> & Hin & Hz).
    simpl. split; [reflexivity|]. split; [discriminate|].
    split; [discriminate|]. intros _. exists c. auto.
Qed.

(** X22. After [seed_initial] the pool is the single seed candidate, of
    generation 0 and without evaluations, carrying the base prompt; the store
    has a row for it with no wins or losses (the candidate itself when its id
    was new), and [get_active_prompt] answers the base prompt. *)
Theorem seed_initial_spec (sqrt log : Q -> Q) (now : Q)
  (base_prompt : string) (s : Session) (db : gmap string PromptCandidate) :
  let s1 := fst (seed_initial now base_prompt s db) in
  let db1 := snd (seed_initial now base_prompt s db) in
  exists c,
    _candidates (controller s1) = [c]
    /\ prompt_id c = "seed_" +:+ self_agent_id (controller s)
    /\ text c = base_prompt /\ generation c = 0%Z /\ evals c = 0%nat
    /\ in_sync [c] db1
    /\ (db !! prompt_id c = None -> db1 !! prompt_id c = Some c)
    /\ snd (get_active_prompt sqrt log s1) = inr (Some base_prompt)
    /\ has_candidates s1 = true.
Proof.
  intros s1 db1. unfold s1, db1, seed_initial. simpl.
  eexists. split; [reflexivity|]. simpl.
  repeat split.
  - intros c [<-|[]].
    destruct (save_candidate_lookup
                (mkPromptCandidate ("seed_" +:+ self_agent_id (controller s))
                   (self_agent_id (controller s)) base_prompt 0 0 0 0 0 now) db)
      as (row & Hrow & Hw & Hl & _).
    exists row. auto.
  - intros Hnone. unfold _save_candidate. simpl. rewrite Hnone.
    apply lookup_insert_eq.
Qed.

(** The candidate after its win or loss was counted. *)
Definition bumped (won : bool) (c : PromptCandidate) : PromptCandidate :=
  mkPromptCandidate (prompt_id c) (agent_id c) (text c)
    (if won then S (wins c) else wins c)
    (if won then losses c else S (losses c))
    (avg_dmg c) (avg_rounds c) (generation c) (created_at c).

(** Some candidate of the pool carries the id. *)
Definition has_id (pid : string) (cands : list PromptCandidate) : bool :=
  existsb (fun c => String.eqb (prompt_id c) pid) cands.

Lemma bump_first_total (pid : string) (won : bool)
  (cands : list PromptCandidate) :
  total_evals (bump_first pid won cands)
  = (total_evals cands + (if has_id pid cands then 1 else 0))%nat.
Proof.
  unfold total_evals, has_id. induction cands as [|c cs IH]; simpl.
  - reflexivity.
  - destruct (String.eqb (prompt_id c) pid); simpl.
    + unfold evals. simpl. destruct won; lia.
    + rewrite IH. lia.
Qed.

Lemma bump_first_In (pid : string) (won : bool)
  (cands : list PromptCandidate) (c' : PromptCandidate) :
  List.NoDup (map prompt_id cands) ->
  In c' (bump_first pid won cands) ->
  (In c' cands /\ prompt_id c' <> pid)
  \/ (exists c, In c cands /\ prompt_id c = pid /\ c' = bumped won c).
Proof.
  induction cands as [|c cs IH]; simpl; intros Hnd Hin; [contradiction|].
  apply List.NoDup_cons_iff in Hnd. destruct Hnd as [Hc Hnd].
  destruct (String.eqb_spec (prompt_id c) pid) as [E|E].
  - destruct Hin as [<-|Hin].
    + right. exists c. auto.
    + left. split; [auto|]. intros Heq. apply Hc.
      rewrite E, <- Heq. apply in_map. exact Hin.
  - destruct Hin as [<-|Hin]; [left; auto|].
    destruct (IH Hnd Hin) as [[H1 H2]|(x & Hx & Hp & ->)].
    + left. auto.
    + right. exists x. auto.
Qed.

Lemma bump_first_fields (pid : string) (won : bool)
  (cands : list PromptCandidate) :
  map (fun c => (prompt_id c, text c, avg_dmg c, avg_rounds c, generation c))
    (bump_first pid won cands)
  = map (fun c => (prompt_id c, text c, avg_dmg c, avg_rounds c, generation c))
      cands.
Proof.
  induction cands as [|c cs IH]; simpl; [reflexivity|].
  destruct (String.eqb (prompt_id c) pid); simpl; [reflexivity|].
  rewrite IH. reflexivity.
Qed.

(** X23. The result block of [record_game_result] keeps pool and store in
    step: if the ids of the pool are pairwise distinct and every candidate
    has a row with its wins and losses, the same holds afterwards.  The
    pool gains exactly one evaluation when [_current] is set and its id is in
    the pool, and none otherwise; ids, texts, generations and the averages
    held in memory are not changed. *)
Theorem record_current_in_sync (won : bool) (dmg_dealt rounds_survived : Z)
  (s : Session) (db : gmap string PromptCandidate) :
  let cands := _candidates (controller s) in
  let s' := fst (record_current won dmg_dealt rounds_survived s db) in
  let db' := snd (record_current won dmg_dealt rounds_survived s db) in
  let cands' := _candidates (controller s') in
  List.NoDup (map prompt_id cands) ->
  in_sync cands db ->
  in_sync cands' db'
  /\ total_evals cands'
     = (total_evals cands
        + match _current s with
          | Some cur => if has_id (prompt_id cur) cands then 1 else 0
          | None => 0
          end)%nat
  /\ map (fun c => (prompt_id c, text c, avg_dmg c, avg_rounds c, generation c))
       cands'
     = map (fun c => (prompt_id c, text c, avg_dmg c, avg_rounds c, generation c))
         cands
  /\ _current s' = _current s.
Proof.
  intros cands s' db' cands' Hnd Hsync.
  unfold cands', s', db', record_current.
  destruct (_current s) as [cur|] eqn:Ec; simpl.
  2: { fold cands. split; [exact Hsync|]. split; [lia|].
       split; [reflexivity|first [reflexivity|exact Ec]]. }
  fold cands.
  split; [|split; [apply bump_first_total|split;
                   [apply bump_first_fields|first [reflexivity|exact Ec]]]].
  intros c' Hc'.
  destruct (bump_first_In (prompt_id cur) won cands c' Hnd Hc')
    as [[Hin Hne]|(c & Hin & Hp & ->)].
  - destruct (Hsync c' Hin) as (row & Hrow & Hw & Hl).
    exists row. split; [|auto].
    unfold _update_candidate_result.
    destruct (db !! prompt_id cur); [|exact Hrow].
    rewrite lookup_insert_ne by congruence. exact Hrow.
  - destruct (Hsync c Hin) as (row & Hrow & Hw & Hl).
    simpl. rewrite Hp in Hrow.
    unfold _update_candidate_result. rewrite Hrow.
    eexists. rewrite Hp, lookup_insert_eq. split; [reflexivity|].
    simpl. destruct won; split; lia.
Qed.

Definition seeded_session : Session * gmap string PromptCandidate :=
  seed_initial 1000 "You are Kael."
    (mkSession (mkAPEController "a1" "Kael" "warrior" [] 0) None) ∅.

Definition playing_session : Session :=
  fst (get_active_prompt (fun x => x) (fun x => x) (fst seeded_session)).

Lemma record_current_in_sync_witness :
  List.NoDup (map prompt_id (_candidates (controller playing_session)))
  /\ in_sync (_candidates (controller playing_session)) (snd seeded_session)
  /\ in_sync
       (_candidates (controller
          (fst (record_current true 20 5 playing_session (snd seeded_session)))))
       (snd (record_current true 20 5 playing_session (snd seeded_session))).
Proof.
  assert (Hnd : List.NoDup
                  (map prompt_id (_candidates (controller playing_session)))).
  { simpl. constructor; [intros []|constructor]. }
  assert (Hs : in_sync (_candidates (controller playing_session))
                 (snd seeded_session)).
  { intros c [<-|[]]. eexists. split; [vm_compute; reflexivity|].
    split; reflexivity. }
  split; [exact Hnd|]. split; [exact Hs|].
  exact (proj1 (record_current_in_sync true 20 5 playing_session
                  (snd seeded_session) Hnd Hs)).
Defined.

Example first_game_recorded :
  let r := record_game_result (fun x => x) (fun x => x) (fun _ _ => None)
             1001 true 20 5 "won" playing_session (snd seeded_session) in
  map evals (_candidates (controller (fst r))) = [1%nat]
  /\ _games_since_ape (controller (fst r)) = 1%nat
  /\ match snd r !! "seed_a1"%string with
     | Some row => wins row = 1%nat /\ Qred (avg_dmg row) = 6
     | None => False
     end.
Proof. vm_compute. auto. Qed.

(** ** Pruning *)



Lemma insert_desc_perm (sqrt log : Q -> Q) (T : nat) (x : PromptCandidate)
  (l : list PromptCandidate) :
  Permutation.Permutation (insert_desc sqrt log T x l) (x :: l).
Proof.
  induction l as [|y l IH]; simpl; [reflexivity|].
  destruct (score_gt _ _); [reflexivity|].
  rewrite IH. apply Permutation.perm_swap.
Qed.

Lemma sort_desc_perm (sqrt log : Q -> Q) (T : nat) (l : list PromptCandidate) :
  Permutation.Permutation (sort_desc sqrt log T l) l.
Proof.
  unfold sort_desc.
  assert (H : forall acc,
             Permutation.Permutation
               (fold_left (fun acc x => insert_desc sqrt log T x acc) l acc)
               (acc ++ l)).
  { induction l as [|x l IH]; intros acc; simpl.
    - rewrite app_nil_r. reflexivity.
    - rewrite IH, insert_desc_perm. simpl.
      apply Permutation.Permutation_middle. }
  apply (H []).
Qed.





Lemma delete_unproven_lookup (pid id : string)
  (db : gmap string PromptCandidate) :
  delete_unproven pid db !! id = db !! id
  \/ (delete_unproven pid db !! id = None /\ id = pid
      /\ exists row, db !! id = Some row /\ (evals row < 2)%nat).
Proof.
  unfold delete_unproven.
  destruct (db !! pid) as [row|] eqn:E; [|left; reflexivity].
  destruct (wins row + losses row <? 2)%nat eqn:L; [|left; reflexivity].
  apply Nat.ltb_lt in L.
  destruct (decide (id = pid)) as [->|Hne].
  - right. rewrite lookup_delete_eq. split; [reflexivity|].
    split; [reflexivity|]. exists row. auto.
  - left. apply lookup_delete_ne. congruence.
Qed.

Lemma delete_all_lookup (l : list PromptCandidate) :
  forall (db : gmap string PromptCandidate) (id : string),
    let db' := fold_left (fun d c => delete_unproven (prompt_id c) d) l db in
    db' !! id = db !! id
    \/ (db' !! id = None /\ In id (map prompt_id l)
        /\ exists row, db !! id = Some row /\ (evals row < 2)%nat).
Proof.
  induction l as [|c l IH]; intros db id; simpl; [left; reflexivity|].
  destruct (IH (delete_unproven (prompt_id c) db) id)
    as [H|(H & Hin & row & Hrow & Hlt)].
  - rewrite H.
    destruct (delete_unproven_lookup (prompt_id c) id db)
      as [H'|(H' & -> & Hex)]; [left; exact H'|].
    right. split; [exact H'|]. split; [left; reflexivity|exact Hex].
  - right. split; [exact H|]. split; [right; exact Hin|].
    exists row. split; [|exact Hlt].
    destruct (delete_unproven_lookup (prompt_id c) id db)
      as [H'|(H' & _ & _)]; congruence.
Qed.

(** X25. [prune] removes a row from the store only if the row has fewer
    than 2 evaluations and its id belongs to a candidate that is not kept in
    the pool; every other row, in particular every row with 2 or more
    evaluations, is still there unchanged. *)
Theorem prune_store (sqrt log : Q -> Q) (cands : list PromptCandidate)
  (db : gmap string PromptCandidate) (id : string) :
  let db' := snd (prune sqrt log cands db) in
  (db' !! id = db !! id
   \/ (db' !! id = None
       /\ (exists c, In c cands /\ prompt_id c = id)
       /\ exists row, db !! id = Some row /\ (evals row < 2)%nat))
  /\ (forall row, db !! id = Some row -> (2 <= evals row)%nat ->
                  db' !! id = Some row).
Proof.
  intros db'.
  assert (H : db' !! id = db !! id
              \/ (db' !! id = None
                  /\ (exists c, In c cands /\ prompt_id c = id)
                  /\ exists row, db !! id = Some row /\ (evals row < 2)%nat)).
  { unfold db', prune.
    destruct (APE_MAX_POOL <? length cands)%nat; simpl; [|left; reflexivity].
    destruct (delete_all_lookup
                (drop (APE_MAX_POOL - 2)
                   (sort_desc sqrt log (total_evals cands) cands)) db id)
      as [H|(H & Hin & Hrow)]; [left; exact H|].
    right. split; [exact H|]. split; [|exact Hrow].
    apply in_map_iff in Hin. destruct Hin as (c & Hc & Hin).
    exists c. split; [|exact Hc].
    apply (Permutation.Permutation_in c
             (sort_desc_perm sqrt log (total_evals cands) cands)).
    rewrite <- (take_drop (APE_MAX_POOL - 2)).
    apply in_or_app. right. exact Hin. }
  split; [exact H|].
  intros row Hrow Hge. destruct H as [H|(_ & _ & row' & Hrow' & Hlt)].
  - rewrite H. exact Hrow.
  - rewrite Hrow in Hrow'. injection Hrow' as <-. lia.
Qed.

Lemma prune_length (sqrt log : Q -> Q) (cands : list PromptCandidate)
  (db : gmap string PromptCandidate) :
  (length (fst (prune sqrt log cands db)) <= APE_MAX_POOL)%nat.
Proof.
  unfold prune. destruct (APE_MAX_POOL <? length cands)%nat eqn:E; simpl.
  - rewrite length_take. unfold APE_MAX_POOL. lia.
  - apply Nat.ltb_ge in E. exact E.
Qed.

Lemma evolve_pool_bound (sqrt log : Q -> Q)
  (chat : PromptCandidate -> string -> option string) (now : Q)
  (feedback : string) (self : APEController)
  (db : gmap string PromptCandidate) :
  _candidates self <> [] ->
  let self' := fst (_evolve sqrt log chat now feedback self db) in
  (length (_candidates self') <= APE_MAX_POOL)%nat
  /\ _games_since_ape self' = _games_since_ape self.
Proof.
  intros Hne. unfold _evolve.
  destruct (_candidates self) as [|c0 cs] eqn:E; [congruence|].
  destruct (evolve_grow chat now feedback self db) as [cands db1].
  pose proof (prune_length sqrt log cands db1) as Hl.
  destruct (prune sqrt log cands db1) as [kept db2]. simpl in *.
  split; [exact Hl|reflexivity].
Qed.

Lemma record_current_games (won : bool) (dmg_dealt rounds_survived : Z)
  (s : Session) (db : gmap string PromptCandidate) :
  _games_since_ape (controller (fst (record_current won dmg_dealt
                                       rounds_survived s db)))
  = _games_since_ape (controller s)
  /\ _current (fst (record_current won dmg_dealt rounds_survived s db))
     = _current s.
Proof.
  unfold record_current. destruct (_current s) eqn:E; simpl; auto.
Qed.

(** X26. [record_game_result] fires an evolution exactly when the counter
    of games, once raised by one, has reached 5 and the pool (with the result
    just counted) holds at least 3 evaluations.  When it fires, the counter
    is 0 afterwards and the pool holds at most 12 candidates; when it does
    not, the counter is one higher and pool and store are as the result block
    left them.  [_current] is the same before and after. *)
Theorem record_game_result_trigger (sqrt log : Q -> Q)
  (chat : PromptCandidate -> string -> option string) (now : Q) (won : bool)
  (dmg_dealt rounds_survived : Z) (battle_summary : string)
  (s : Session) (db : gmap string PromptCandidate) :
  let s1 := fst (record_current won dmg_dealt rounds_survived s db) in
  let db1 := snd (record_current won dmg_dealt rounds_survived s db) in
  let games := S (_games_since_ape (controller s)) in
  let total := total_evals (_candidates (controller s1)) in
  let r := record_game_result sqrt log chat now won dmg_dealt rounds_survived
             battle_summary s db in
  _current (fst r) = _current s
  /\ ((5 <= games)%nat /\ (3 <= total)%nat ->
      _games_since_ape (controller (fst r)) = 0%nat
      /\ (length (_candidates (controller (fst r))) <= 12)%nat
      /\ (controller (fst r), snd r)
         = _evolve sqrt log chat now battle_summary
             (set_games 0 (controller s1)) db1)
  /\ (~ ((5 <= games)%nat /\ (3 <= total)%nat) ->
      _games_since_ape (controller (fst r)) = games
      /\ _candidates (controller (fst r)) = _candidates (controller s1)
      /\ snd r = db1).
Proof.
  intros s1 db1 games total r.
  destruct (record_current_games won dmg_dealt rounds_survived s db)
    as [Hg Hc]. fold s1 in Hg, Hc.
  unfold r, record_game_result.
  destruct (record_current won dmg_dealt rounds_survived s db) as [s1' db1']
    eqn:E.
  simpl in s1, db1. subst s1 db1. rewrite Hg. fold games. fold total.
  destruct ((APE_EVAL_EVERY <=? games)%nat && (APE_MIN_GAMES <=? total)%nat)
    eqn:T.
  - apply andb_true_iff in T. destruct T as [T1 T2].
    apply Nat.leb_le in T1, T2.
    assert (Hne : _candidates (set_games 0 (controller s1')) <> []).
    { simpl. intro H. unfold total in T2. rewrite H in T2.
      unfold APE_MIN_GAMES, total_evals in T2. simpl in T2. lia. }
    pose proof (evolve_pool_bound sqrt log chat now battle_summary
                  (set_games 0 (controller s1')) db1' Hne) as [Hl Hgm].
    destruct (_evolve sqrt log chat now battle_summary
                (set_games 0 (controller s1')) db1') as [ctl db2].
    simpl in *. split; [exact Hc|]. split.
    + intros _. split; [exact Hgm|]. split; [exact Hl|reflexivity].
    + intros Hn. exfalso. apply Hn. unfold APE_EVAL_EVERY, APE_MIN_GAMES in *.
      split; assumption.
  - simpl. split; [exact Hc|]. split.
    + intros [H1 H2]. apply andb_false_iff in T.
      unfold APE_EVAL_EVERY, APE_MIN_GAMES in T.
      destruct T as [T|T]; apply Nat.leb_gt in T; lia.
    + intros _. auto.
Qed.

End Controller.

(** * ape/controller.py: the averages of the store in binary64 arithmetic *)

Module ControllerRounded.
Import Controller Binary64.
Local Open Scope Q_scope.

Section Store.
(** The rounding applied to the result of every operation. *)
Variable rnd : Q -> Q.

(** [avg * (1.0 - alpha) + sample * alpha] with [alpha = 0.3], for an
    average read from the row and an [int] sample. *)
Definition moving_average (avg : Q) (sample : Z) : Q :=
  let alpha := lit rnd (3 # 10) in
  fadd rnd (fmul rnd avg (fsub rnd 1 alpha))
           (fmul rnd (of_int rnd sample) alpha).

(** [_update_candidate_result]: the [UPDATE] of the row with the given id;
    nothing happens when there is no such row. *)
Definition _update_candidate_result (pid : string) (won : bool)
  (dmg rounds : Z) (db : gmap string PromptCandidate)
  : gmap string PromptCandidate :=
  match db !! pid with
  | Some row =>
      let new_dmg := moving_average (avg_dmg row) dmg in
      let new_rnd := moving_average (avg_rounds row) rounds in
      <[pid :=
          mkPromptCandidate (prompt_id row) (agent_id row) (text row)
            (wins row + (if won then 1 else 0))
            (losses row + (if won then 0 else 1))
            new_dmg new_rnd (generation row) (created_at row)]> db
  | None => db
  end.

(** X20.  [_update_candidate_result] on an id without a row changes
    nothing.  On a row it adds exactly one evaluation (a win or a loss) and
    replaces each of the two averages by
    [avg * (1.0 - 0.3) + sample * 0.3], every operation of which is rounded:
    the literal 0.3, the difference, the conversion of the sample, the two
    products and the sum.  It keeps text, generation, ids and creation time,
    and touches no other row. *)
Theorem update_candidate_result_spec (pid : string) (won : bool)
  (dmg rounds : Z) (db : gmap string PromptCandidate) :
  let db' := _update_candidate_result pid won dmg rounds db in
  (db !! pid = None -> db' = db)
  /\ (forall row,
      db !! pid = Some row ->
      exists row',
        db' !! pid = Some row'
        /\ evals row' = S (evals row)
        /\ wins row' = (wins row + (if won then 1 else 0))%nat
        /\ losses row' = (losses row + (if won then 0 else 1))%nat
        /\ avg_dmg row'
           = rnd (rnd (avg_dmg row * rnd (1 - rnd (3 # 10)))
                  + rnd (rnd (inject_Z dmg) * rnd (3 # 10)))
        /\ avg_rounds row'
           = rnd (rnd (avg_rounds row * rnd (1 - rnd (3 # 10)))
                  + rnd (rnd (inject_Z rounds) * rnd (3 # 10)))
        /\ text row' = text row /\ generation row' = generation row
        /\ prompt_id row' = prompt_id row /\ agent_id row' = agent_id row
        /\ created_at row' = created_at row)
  /\ (forall id, id <> pid -> db' !! id = db !! id).
Proof.
  intros db'. unfold db', _update_candidate_result.
  split; [|split].
  - intros ->. reflexivity.
  - intros row ->. eexists. rewrite lookup_insert_eq.
    split; [reflexivity|]. simpl.
    split; [unfold evals; simpl; destruct won; lia|].
    repeat split.
  - intros id Hne. destruct (db !! pid); [|reflexivity].
    apply lookup_insert_ne. congruence.
Qed.

End Store.

(** In exact arithmetic the new average is [0.7 * avg + 0.3 * sample], which
    lies between the old average and the sample. *)
Lemma moving_average_exact (avg : Q) (sample : Z) :
  moving_average exact avg sample
  == (7 # 10) * avg + (3 # 10) * inject_Z sample
  /\ Qmin avg (inject_Z sample) <= moving_average exact avg sample
  /\ moving_average exact avg sample <= Qmax avg (inject_Z sample).
Proof.
  unfold moving_average, fadd, fmul, fsub, of_int, lit, exact.
  pose proof (Q.le_min_l avg (inject_Z sample)).
  pose proof (Q.le_min_r avg (inject_Z sample)).
  pose proof (Q.le_max_l avg (inject_Z sample)).
  pose proof (Q.le_max_r avg (inject_Z sample)).
  split; [ring|split; lra].
Qed.

Lemma update_candidate_result_exact (pid : string) (won : bool)
  (dmg rounds : Z) (db : gmap string PromptCandidate) :
  _update_candidate_result exact pid won dmg rounds db
  = Controller._update_candidate_result pid won dmg rounds db.
Proof. reflexivity. Qed.

(** In binary64 it need not: from the average 0.0, a sample of 10 gives
    3.0, and a further sample of 3 gives 2.9999999999999996, below both the
    old average 3.0 and the sample 3. *)
Example moving_average_below :
  moving_average round 0 10 == 3
  /\ moving_average round 3 3 == 6755399441055743 # 2251799813685248
  /\ moving_average round 3 3 == round (29999999999999996 # 10000000000000000)
  /\ moving_average round 3 3 < 3
  /\ moving_average round (moving_average round 0 10) 3
     < Qmin (moving_average round 0 10) 3.
Proof. vm_compute. repeat split. Qed.

End ControllerRounded.
(** * core/platform_utils.py in exact arithmetic

    The embedding over the reals, with an exact square root and an arbitrary
    hash: the setting of the comparison-based facts about recall.  The
    computation in binary64 is [PlatformUtilsRounded]. *)

Module PlatformUtils.
Local Open Scope R_scope.

(** [vec[idx] += w].  An index outside the list leaves it as it is; the
    caller's index is [h % 64] on a list of 64 entries. *)
Fixpoint add_at (idx : nat) (w : R) (vec : list R) : list R :=
  match vec, idx with
  | [], _ => []
  | x :: xs, O => (x + w) :: xs
  | x :: xs, S i => x :: add_at i w xs
  end.

(** [sum(x * x for x in vec)], summed from the left. *)
Definition sum_sq (vec : list R) : R :=
  fold_left (fun acc x => acc + x * x) vec 0.

Section Embed.
(** [int(hashlib.md5(text.encode("utf-8")).hexdigest(), 16)] *)
Variable deterministic_hash : string -> Z.

(** [h % 64] as a list index. *)
Definition bucket (word : string) : nat :=
  Z.to_nat (deterministic_hash word mod 64).

(** [for i, word in enumerate(words)] from index [i] on. *)
Fixpoint accumulate (i : nat) (words : list string) (vec : list R) : list R :=
  match words with
  | [] => vec
  | word :: rest =>
      accumulate (S i) rest (add_at (bucket word) (1 / INR (i + 1)) vec)
  end.

Definition embed_text (text : string) : list R :=
  let words := PyStr.split (PyStr.lower text) in
  let vec := accumulate 0 (take 64 words) (repeat 0 64) in
  let norm := sqrt (sum_sq vec) in
  if Rlt_dec 0 norm then map (fun x => x / norm) vec else vec.

(** ** Properties of [embed_text] *)

Lemma add_at_length (idx : nat) (w : R) (vec : list R) :
  length (add_at idx w vec) = length vec.
Proof.
  revert idx. induction vec as [|x xs IH]; intros [|i]; simpl; auto.
Qed.

Lemma accumulate_length (words : list string) :
  forall i vec, length (accumulate i words vec) = length vec.
Proof.
  induction words as [|w ws IH]; intros i vec; simpl; [reflexivity|].
  rewrite IH. apply add_at_length.
Qed.

End Embed.

Lemma fold_sum_sq (vec : list R) :
  forall a, fold_left (fun acc x => acc + x * x) vec a = a + sum_sq vec.
Proof.
  unfold sum_sq. induction vec as [|x xs IH]; intros a; simpl; [ring|].
  rewrite (IH (a + x * x)), (IH (0 + x * x)). ring.
Qed.

Lemma sum_sq_cons (x : R) (xs : list R) :
  sum_sq (x :: xs) = x * x + sum_sq xs.
Proof.
  unfold sum_sq at 1. simpl. rewrite fold_sum_sq. ring.
Qed.

Lemma sum_sq_nonneg (vec : list R) : 0 <= sum_sq vec.
Proof.
  induction vec as [|x xs IH]; [unfold sum_sq; simpl; lra|].
  rewrite sum_sq_cons. pose proof (Rle_0_sqr x) as Hx. unfold Rsqr in Hx. lra.
Qed.


Lemma no_tokens_iff (text : string) :
  PyStr.split (PyStr.lower text) = [] <-> PyStr.all_space text = true.
Proof. rewrite PyStr.split_nil_iff, PyStr.all_space_lower. tauto. Qed.

(** ** [cosine_similarity] and the recall of episodes (core/memory.py) *)

(** [sum(x * y for x, y in zip(a, b))] *)
Definition dot (a b : list R) : R :=
  fold_left (fun acc p => acc + fst p * snd p) (combine a b) 0.

Definition cosine_similarity (a b : list R) : R :=
  if Nat.eq_dec (length a) (length b)
  then Rmax 0 (Rmin 1 (dot a b))
  else 0.








Lemma fold_dot_acc (l : list (R * R)) :
  forall a, fold_left (fun acc p => acc + fst p * snd p) l a
            = a + fold_left (fun acc p => acc + fst p * snd p) l 0.
Proof.
  induction l as [|p l IH]; intros a; simpl; [ring|].
  rewrite (IH (a + fst p * snd p)), (IH (0 + fst p * snd p)). ring.
Qed.

Lemma dot_cons (x y : R) (a b : list R) :
  dot (x :: a) (y :: b) = x * y + dot a b.
Proof.
  unfold dot. simpl. rewrite fold_dot_acc. ring.
Qed.

Lemma dot_comm (a : list R) : forall b, dot a b = dot b a.
Proof.
  induction a as [|x a IH]; intros [|y b]; try reflexivity.
  rewrite !dot_cons, IH. ring.
Qed.


Lemma cosine_range (a b : list R) :
  0 <= cosine_similarity a b <= 1.
Proof.
  unfold cosine_similarity. destruct (Nat.eq_dec _ _); [|lra].
  split; [apply Rmax_l|].
  apply Rmax_lub; [lra|apply Rmin_l].
Qed.

(** X27. [cosine_similarity] always lies in [0, 1], does not depend on the
    order of its two arguments, and is 0 for vectors of different lengths. *)
Theorem cosine_similarity_spec (a b : list R) :
  0 <= cosine_similarity a b <= 1
  /\ cosine_similarity a b = cosine_similarity b a
  /\ (length a <> length b -> cosine_similarity a b = 0).
Proof.
  split; [apply cosine_range|]. split.
  - unfold cosine_similarity.
    destruct (Nat.eq_dec (length a) (length b)) as [E|E];
      destruct (Nat.eq_dec (length b) (length a)) as [E'|E'];
      try congruence.
    rewrite dot_comm. reflexivity.
  - intros Hne. unfold cosine_similarity.
    destruct (Nat.eq_dec _ _); [contradiction|reflexivity].
Qed.










End PlatformUtils.
(** * hashlib.md5 (RFC 1321) *)

Module MD5.
Local Open Scope Z_scope.

Definition add32 (a b : Z) : Z := (a + b) mod 2 ^ 32.

(** Rotation to the left of a 32-bit word. *)
Definition rotl32 (x s : Z) : Z :=
  Z.lor (Z.shiftl x s mod 2 ^ 32) (Z.shiftr x (32 - s)).

Definition not32 (x : Z) : Z := Z.lxor x (2 ^ 32 - 1).

(** [floor(2^32 * abs(sin(i + 1)))] for [i] from 0 to 63. *)
Definition K : list Z :=
  [3614090360; 3905402710; 606105819; 3250441966; 4118548399; 1200080426;
   2821735955; 4249261313; 1770035416; 2336552879; 4294925233; 2304563134;
   1804603682; 4254626195; 2792965006; 1236535329; 4129170786; 3225465664;
   643717713; 3921069994; 3593408605; 38016083; 3634488961; 3889429448;
   568446438; 3275163606; 4107603335; 1163531501; 2850285829; 4243563512;
   1735328473; 2368359562; 4294588738; 2272392833; 1839030562; 4259657740;
   2763975236; 1272893353; 4139469664; 3200236656; 681279174; 3936430074;
   3572445317; 76029189; 3654602809; 3873151461; 530742520; 3299628645;
   4096336452; 1126891415; 2878612391; 4237533241; 1700485571; 2399980690;
   4293915773; 2240044497; 1873313359; 4264355552; 2734768916; 1309151649;
   4149444226; 3174756917; 718787259; 3951481745].

(** The rotation amounts of the four rounds. *)
Definition shifts : list Z :=
  [7; 12; 17; 22; 7; 12; 17; 22; 7; 12; 17; 22; 7; 12; 17; 22;
   5; 9; 14; 20; 5; 9; 14; 20; 5; 9; 14; 20; 5; 9; 14; 20;
   4; 11; 16; 23; 4; 11; 16; 23; 4; 11; 16; 23; 4; 11; 16; 23;
   6; 10; 15; 21; 6; 10; 15; 21; 6; 10; 15; 21; 6; 10; 15; 21].

(** [text.encode("utf-8")] of a string of code points below 256. *)
Fixpoint utf8 (s : string) : list Z :=
  match s with
  | EmptyString => []
  | String c s' =>
      let n := Z.of_nat (nat_of_ascii c) in
      if n <? 128 then n :: utf8 s'
      else (192 + n / 64) :: (128 + n mod 64) :: utf8 s'
  end.

(** The bytes of [n], least significant first. *)
Fixpoint le_bytes (count : nat) (n : Z) : list Z :=
  match count with
  | O => []
  | S c => n mod 256 :: le_bytes c (n / 256)
  end.

(** The message, a 1 bit, zeros up to 56 modulo 64 and the length in bits. *)
Definition pad (msg : list Z) : list Z :=
  let len := Z.of_nat (List.length msg) in
  let zeros := Z.to_nat ((55 - len) mod 64) in
  msg ++ [128] ++ repeat 0 zeros ++ le_bytes 8 ((8 * len) mod 2 ^ 64).

(** A little-endian 32-bit word. *)
Definition word_of (b : list Z) : Z :=
  nth 0 b 0 + 256 * nth 1 b 0 + 65536 * nth 2 b 0 + 16777216 * nth 3 b 0.

Fixpoint words_of (count : nat) (b : list Z) : list Z :=
  match count with
  | O => []
  | S c => word_of b :: words_of c (skipn 4 b)
  end.

Definition State : Type := Z * Z * Z * Z.

(** Operation [i] of a block. *)
Definition step (M : list Z) (st : State) (i : nat) : State :=
  let '(A, B, C, D) := st in
  let iz := Z.of_nat i in
  let '(F, g) :=
    if iz <? 16 then (Z.lor (Z.land B C) (Z.land (not32 B) D), iz)
    else if iz <? 32 then
      (Z.lor (Z.land D B) (Z.land (not32 D) C), (5 * iz + 1) mod 16)
    else if iz <? 48 then (Z.lxor (Z.lxor B C) D, (3 * iz + 5) mod 16)
    else (Z.lxor C (Z.lor B (not32 D)), (7 * iz) mod 16) in
  let F' := add32 (add32 (add32 F A) (nth i K 0)) (nth (Z.to_nat g) M 0) in
  (D, add32 B (rotl32 F' (nth i shifts 0)), B, C).

Definition block (st : State) (bytes : list Z) : State :=
  let M := words_of 16 bytes in
  let '(A, B, C, D) := fold_left (step M) (seq 0 64) st in
  let '(a0, b0, c0, d0) := st in
  (add32 a0 A, add32 b0 B, add32 c0 C, add32 d0 D).

Fixpoint blocks (count : nat) (st : State) (bytes : list Z) : State :=
  match count with
  | O => st
  | S c => blocks c (block st bytes) (skipn 64 bytes)
  end.

Definition digest (msg : list Z) : list Z :=
  let p := pad msg in
  let '(a, b, c, d) :=
    blocks (List.length p / 64)
      (1732584193, 4023233417, 2562383102, 271733878) p in
  le_bytes 4 a ++ le_bytes 4 b ++ le_bytes 4 c ++ le_bytes 4 d.

(** [int(hexdigest, 16)]: the digest read as one big-endian number. *)
Definition to_int (bytes : list Z) : Z :=
  fold_left (fun acc b => 256 * acc + b) bytes 0.

End MD5.

(** * core/platform_utils.py in binary64 arithmetic *)

Module PlatformUtilsRounded.
Import Binary64.
Local Open Scope Q_scope.

(** [int(hashlib.md5(text.encode("utf-8")).hexdigest(), 16)] *)
Definition deterministic_hash (text : string) : Z :=
  MD5.to_int (MD5.digest (MD5.utf8 text)).

(** The digests of hashlib for the empty string, short words, texts that
    fill one block to 55, 56 and 64 bytes or need two, and a word with a code
    point above 127 (e with an acute accent, two bytes in UTF-8). *)
Fixpoint repeat_char (c : ascii) (n : nat) : string :=
  match n with O => EmptyString | S n' => String c (repeat_char c n') end.

Example md5_examples :
  deterministic_hash EmptyString = 281949768489412648962353822266799178366%Z
  /\ deterministic_hash "a" = 16955237001963240173058271559858726497%Z
  /\ deterministic_hash "axe" = 266670619347456911456395708258727907045%Z
  /\ deterministic_hash "orc" = 190564971254103643029235661700043147676%Z
  /\ deterministic_hash "with" = 47382547829039383040409115339590487977%Z
  /\ deterministic_hash "hp" = 280201530574874692103893545064641904677%Z
  /\ deterministic_hash "hello world"
     = 125893641179230474042701625388361764291%Z
  /\ deterministic_hash (repeat_char "x" 55)
     = 5598677822710009742975573124516056946%Z
  /\ deterministic_hash (repeat_char "y" 56)
     = 144237024636656112461992286337371993060%Z
  /\ deterministic_hash (repeat_char "z" 64)
     = 83472864708937296815010184056978770669%Z
  /\ deterministic_hash (repeat_char "q" 120)
     = 267791331939140616057504167325866209146%Z
  /\ deterministic_hash
       (String "c" (String "a" (String "f"
          (String (ascii_of_nat 233) EmptyString))))
     = 9395458997242411472544951782067420578%Z.
Proof. vm_compute. repeat split. Qed.

(** ** The builtin [sum] on floats *)

Section Sums.
Variable rnd : Q -> Q.

(** CPython up to 3.11: the additions from the left, starting from the
    [int] 0. *)
Definition sum_left (l : list Q) : Q := fold_left (fadd rnd) l 0.

(** CPython from 3.12 on: the same additions, with the rounding error of
    each one collected in a second float (Neumaier's summation) that is added
    at the end unless it is zero. *)
Definition cs_add (total : Q * Q) (x : Q) : Q * Q :=
  let (hi, lo) := total in
  let t := fadd rnd hi x in
  (t, if Qle_bool (Qabs x) (Qabs hi)
      then fadd rnd lo (fadd rnd (fsub rnd hi t) x)
      else fadd rnd lo (fadd rnd (fsub rnd x t) hi)).

Definition sum_compensated (l : list Q) : Q :=
  match l with
  | [] => 0
  | x :: rest =>
      let (hi, lo) := fold_left cs_add rest (fadd rnd 0 x, 0) in
      if Qeq_bool lo 0 then hi else fadd rnd hi lo
  end.

End Sums.

Section Embed.
(** The rounding of the result of [+], [*] and [/]; the function [x ** 0.5]
    (the C library's [pow], which the language does not promise to be
    correctly rounded); and the builtin [sum] on a list of floats. *)
Variable rnd : Q -> Q.
Variable pow_half : Q -> Q.
Variable fsum : list Q -> Q.

(** [h % 64] as a list index. *)
Definition bucket (word : string) : nat :=
  Z.to_nat (deterministic_hash word mod 64).

(** [vec[idx] += w] *)
Fixpoint add_at (idx : nat) (w : Q) (vec : list Q) : list Q :=
  match vec, idx with
  | [], _ => []
  | x :: xs, O => fadd rnd x w :: xs
  | x :: xs, S i => x :: add_at i w xs
  end.

(** [1.0 / (i + 1)] *)
Definition weight (i : nat) : Q :=
  fdiv rnd 1 (of_int rnd (Z.of_nat i + 1)).

(** [for i, word in enumerate(words)] from index [i] on. *)
Fixpoint accumulate (i : nat) (words : list string) (vec : list Q) : list Q :=
  match words with
  | [] => vec
  | word :: rest => accumulate (S i) rest (add_at (bucket word) (weight i) vec)
  end.

(** [sum(x * x for x in vec)] *)
Definition sum_sq (vec : list Q) : Q :=
  fsum (map (fun x => fmul rnd x x) vec).

Definition embed_text (text : string) : list Q :=
  let words := PyStr.split (PyStr.lower text) in
  let vec := accumulate 0 (take 64 words) (repeat 0 64) in
  let norm := pow_half (sum_sq vec) in
  if Qlt_bool 0 norm then map (fun x => fdiv rnd x norm) vec else vec.

(** [sum(x * y for x, y in zip(a, b))] *)
Definition dot (a b : list Q) : Q :=
  fsum (map (fun p => fmul rnd (fst p) (snd p)) (combine a b)).

(** [max(0.0, min(1.0, dot))], or 0 for vectors of different lengths. *)
Definition cosine_similarity (a b : list Q) : Q :=
  if (List.length a =? List.length b)%nat
  then Qmax 0 (Qmin 1 (dot a b))
  else 0.

End Embed.

(** The squared Euclidean norm of a vector, exactly. *)
Definition norm2 (vec : list Q) : Q :=
  fold_right (fun x acc => x * x + acc) 0 vec.

(** ** Accuracy of the normalisation *)

(** The magnitudes that occur lie within [2^-60, 2^40], far from underflow
    and overflow. *)
Definition lo : Q := 1 # 1152921504606846976.
Definition hi : Q := 1099511627776.

(** The sum of a list, exactly. *)
Definition qsum (l : list Q) : Q := fold_right Qplus 0 l.

(** [1/(i+1)], exactly. *)
Definition exact_weight (i : nat) : Q := 1 / inject_Z (Z.of_nat i + 1).

(** The exact sum of the weights [1/(i+1)] of the words hashed to entry [j],
    the first word having position [i]. *)
Fixpoint weight_at (j i : nat) (words : list string) : Q :=
  match words with
  | [] => 0
  | word :: rest =>
      (if (bucket word =? j)%nat then exact_weight i else 0)
      + weight_at j (S i) rest
  end.

(** A term of a sum: zero, or between [2^-50] and [2^19]. *)
Definition term_ok (p : Q) : Prop :=
  (p == 0 \/ 1 # 1125899906842624 <= p) /\ p <= 524288.

Section Accuracy.
Variable rnd : Q -> Q.
Variable pow_half : Q -> Q.
Variable fsum : list Q -> Q.
(** Rounding keeps zero and changes a number of the range by at most [u] of
    itself. *)
Hypothesis rnd_zero : forall x, x == 0 -> rnd x == 0.
Hypothesis rnd_near :
  forall x, lo <= x <= hi -> (1 - u) * x <= rnd x <= (1 + u) * x.
(** [x ** 0.5] is within [2 u] of the square root. *)
Hypothesis pow_zero : forall s, s == 0 -> pow_half s == 0.
Hypothesis pow_near :
  forall s, lo <= s <= hi ->
    0 < pow_half s
    /\ (1 - 2 * u) * (1 - 2 * u) * s <= pow_half s * pow_half s
    /\ pow_half s * pow_half s <= (1 + 2 * u) * (1 + 2 * u) * s.
(** The sum of at most 64 terms is within [64 u] below and [128 u] above of
    the exact sum. *)
Hypothesis sum_near :
  forall l, (List.length l <= 64)%nat -> Forall term_ok l ->
    (1 - 64 * u) * qsum l <= fsum l <= (1 + 128 * u) * qsum l.

Lemma weight_range (i : nat) :
  (i < 64)%nat -> 1 # 256 <= weight rnd i <= 4.
Proof.
  intros Hi. unfold weight, fdiv, of_int.
  set (k := inject_Z (Z.of_nat i + 1)).
  assert (Hk : 1 <= k <= 64).
  { unfold k. split.
    - change 1 with (inject_Z 1). rewrite <- Zle_Qle. lia.
    - change 64 with (inject_Z 64). rewrite <- Zle_Qle. lia. }
  assert (Hr : (1 - u) * k <= rnd k <= (1 + u) * k).
  { apply rnd_near. unfold lo, hi. split; [|lra].
    eapply Qle_trans; [|apply Hk]. discriminate. }
  unfold u in Hr.
  assert (Hpos : 1 # 2 <= rnd k <= 128) by (split; nra).
  assert (Hinv : 1 # 128 <= 1 / rnd k <= 2).
  { split.
    - apply Qle_shift_div_l; lra.
    - apply Qle_shift_div_r; lra. }
  assert (Hq : (1 - u) * (1 / rnd k) <= rnd (1 / rnd k)
               <= (1 + u) * (1 / rnd k)).
  { apply rnd_near. unfold lo, hi. split; [|lra].
    eapply Qle_trans; [|apply Hinv]. discriminate. }
  unfold u in Hq. split; nra.
Qed.

(** An entry of the accumulated vector is untouched, or it has received at
    least one weight. *)
Definition entry_ok (B x : Q) : Prop := x == 0 \/ (1 # 512 <= x <= B).

Lemma entry_ok_mono (B B' x : Q) : B <= B' -> entry_ok B x -> entry_ok B' x.
Proof. intros HB [E|[H1 H2]]; [left|right; split]; try assumption; lra. Qed.

Lemma fadd_entry (B x w : Q) :
  0 <= B <= 512 -> 1 # 256 <= w <= 4 -> entry_ok B x ->
  1 # 512 <= fadd rnd x w <= B + 8.
Proof.
  intros HB Hw Hx. unfold fadd.
  assert (Hx' : 0 <= x <= B) by (destruct Hx as [E|[? ?]]; split; lra).
  assert (Hin : lo <= x + w <= hi) by (unfold lo, hi; split; lra).
  pose proof (rnd_near _ Hin) as Hr. unfold u in Hr. split; lra.
Qed.

Lemma add_at_entries (B : Q) (idx : nat) (w : Q) (vec : list Q) :
  0 <= B <= 512 -> 1 # 256 <= w <= 4 ->
  Forall (entry_ok B) vec -> Forall (entry_ok (B + 8)) (add_at rnd idx w vec).
Proof.
  intros HB Hw Hvec. revert idx.
  induction Hvec as [|x xs Hx Hxs IH]; intros idx; simpl.
  - destruct idx; constructor.
  - destruct idx as [|idx].
    + constructor.
      * right. apply fadd_entry; assumption.
      * eapply Forall_impl; [exact Hxs|]. intros y. apply entry_ok_mono. lra.
    + constructor; [|apply IH]. revert Hx. apply entry_ok_mono. lra.
Qed.

Lemma add_at_keeps_length (idx : nat) (w : Q) (vec : list Q) :
  List.length (add_at rnd idx w vec) = List.length vec.
Proof.
  revert idx. induction vec as [|x xs IH]; intros [|idx]; simpl; auto.
Qed.

(** The entry that receives a weight is positive afterwards, and positive
    entries stay so. *)
Lemma add_at_positive (B : Q) (idx : nat) (w : Q) (vec : list Q) :
  0 <= B <= 512 -> 1 # 256 <= w <= 4 -> Forall (entry_ok B) vec ->
  (idx < List.length vec)%nat \/ Exists (fun x => 1 # 512 <= x) vec ->
  Exists (fun x => 1 # 512 <= x) (add_at rnd idx w vec).
Proof.
  intros HB Hw Hvec. revert idx.
  induction Hvec as [|x xs Hx Hxs IH]; intros idx Hyp; simpl.
  - destruct Hyp as [Hlt|Hex]; [simpl in Hlt; lia|inversion Hex].
  - destruct idx as [|idx].
    + apply Exists_cons_hd. apply fadd_entry with (B := B); assumption.
    + destruct Hyp as [Hlt|Hex].
      * apply Exists_cons_tl. apply IH. left. simpl in Hlt. lia.
      * inversion Hex; subst.
        -- apply Exists_cons_hd. assumption.
        -- apply Exists_cons_tl. apply IH. right. assumption.
Qed.

Lemma accumulate_keeps_length (i : nat) (words : list string) (vec : list Q) :
  List.length (accumulate rnd i words vec) = List.length vec.
Proof.
  revert i vec. induction words as [|w ws IH]; intros i vec; simpl; auto.
  rewrite IH. apply add_at_keeps_length.
Qed.

Lemma accumulate_entries (words : list string) :
  forall (i : nat) (B : Q) (vec : list Q),
    (i + List.length words <= 64)%nat ->
    0 <= B -> B + 8 * inject_Z (Z.of_nat (List.length words)) <= 520 ->
    Forall (entry_ok B) vec ->
    Forall (entry_ok 520) (accumulate rnd i words vec).
Proof.
  induction words as [|w ws IH]; intros i B vec Hi HB Hlen Hvec; cbn [accumulate].
  - change (inject_Z (Z.of_nat (List.length (@nil string)))) with 0 in Hlen.
    eapply Forall_impl; [exact Hvec|].
    intros y. apply entry_ok_mono. lra.
  - simpl List.length in Hlen, Hi.
    rewrite Nat2Z.inj_succ, <- Z.add_1_r, inject_Z_plus in Hlen.
    change (inject_Z 1) with 1 in Hlen.
    assert (Hn : 0 <= inject_Z (Z.of_nat (List.length ws))).
    { change 0 with (inject_Z 0). rewrite <- Zle_Qle. lia. }
    apply IH with (B := B + 8).
    + lia.
    + lra.
    + lra.
    + apply add_at_entries; [split; lra| |assumption].
      apply weight_range. lia.
Qed.

Lemma accumulate_positive (words : list string) :
  forall (i : nat) (B : Q) (vec : list Q),
    (i + List.length words <= 64)%nat ->
    0 <= B -> B + 8 * inject_Z (Z.of_nat (List.length words)) <= 520 ->
    Forall (entry_ok B) vec ->
    (words <> [] /\ List.length vec = 64%nat)
    \/ Exists (fun x => 1 # 512 <= x) vec ->
    Exists (fun x => 1 # 512 <= x) (accumulate rnd i words vec).
Proof.
  induction words as [|w ws IH]; intros i B vec Hi HB Hlen Hvec Hyp; cbn [accumulate].
  - destruct Hyp as [[Hne _]|Hex]; [congruence|assumption].
  - simpl List.length in Hlen, Hi.
    rewrite Nat2Z.inj_succ, <- Z.add_1_r, inject_Z_plus in Hlen.
    change (inject_Z 1) with 1 in Hlen.
    assert (Hn : 0 <= inject_Z (Z.of_nat (List.length ws))).
    { change 0 with (inject_Z 0). rewrite <- Zle_Qle. lia. }
    assert (Hw : 1 # 256 <= weight rnd i <= 4) by (apply weight_range; lia).
    apply IH with (B := B + 8).
    + lia.
    + lra.
    + lra.
    + apply add_at_entries; [split; lra|assumption|assumption].
    + right. apply add_at_positive with (B := B);
        [split; lra|assumption|assumption|].
      destruct Hyp as [[_ Hl]|Hex]; [left|right; assumption].
      rewrite Hl. unfold bucket.
      pose proof (Z.mod_pos_bound (deterministic_hash w) 64 ltac:(lia)). lia.
Qed.

(** A component of a vector whose squares are summed: zero, or between
    [2^-24] and 520. *)
Definition value_ok (x : Q) : Prop := x == 0 \/ (1 # 16777216 <= x <= 520).

Lemma entry_value_ok (x : Q) : entry_ok 520 x -> value_ok x.
Proof. intros [E|[H1 H2]]; [left; exact E|right; split; lra]. Qed.

Lemma fmul_square (x : Q) :
  value_ok x ->
  ((1 - u) * (x * x) <= fmul rnd x x <= (1 + u) * (x * x))
  /\ term_ok (fmul rnd x x).
Proof.
  intros [E|[H1 H2]]; unfold fmul, term_ok.
  - assert (E2 : x * x == 0) by (rewrite E; reflexivity).
    pose proof (rnd_zero _ E2) as Hr. unfold u.
    split; [split; lra|split; [left; exact Hr|lra]].
  - assert (Hsq : 1 # 281474976710656 <= x * x <= 270400) by (split; nra).
    assert (Hin : lo <= x * x <= hi) by (unfold lo, hi; split; lra).
    pose proof (rnd_near _ Hin) as Hr. unfold u in *.
    split; [split; lra|split; [right; lra|lra]].
Qed.

Definition cnt (n : nat) : Q := inject_Z (Z.of_nat n).

Lemma cnt_S (n : nat) : cnt (S n) == cnt n + 1.
Proof.
  unfold cnt. rewrite Nat2Z.inj_succ, <- Z.add_1_r, inject_Z_plus. reflexivity.
Qed.

Lemma cnt_nonneg (n : nat) : 0 <= cnt n.
Proof. unfold cnt. change 0 with (inject_Z 0). rewrite <- Zle_Qle. lia. Qed.

Lemma cnt_le (n m : nat) : (n <= m)%nat -> cnt n <= cnt m.
Proof. intros H. unfold cnt. rewrite <- Zle_Qle. lia. Qed.

(** The sum from the left: after [c] additions the running float is within
    [1 - c u] and [1 + 2 c u] of the exact sum of the terms added. *)
Lemma fold_fadd_near (l : list Q) :
  forall (c a A : Q),
    0 <= c -> c + cnt (List.length l) <= 64 ->
    (A == 0 \/ 1 # 1125899906842624 <= A) -> A <= c * 524288 ->
    (1 - c * u) * A <= a <= (1 + 2 * c * u) * A ->
    Forall term_ok l ->
    ((1 - (c + cnt (List.length l)) * u) * (A + qsum l)
       <= fold_left (fadd rnd) l a
       <= (1 + 2 * (c + cnt (List.length l)) * u) * (A + qsum l))
    /\ (A + qsum l == 0 \/ 1 # 1125899906842624 <= A + qsum l)
    /\ A + qsum l <= (c + cnt (List.length l)) * 524288.
Proof.
  induction l as [|p l IH]; intros c a A Hc Hlen HA HAc Ha Hl.
  - cbn [List.length fold_left qsum fold_right].
    change (cnt 0) with 0.
    split; [split; lra|split; [destruct HA; [left|right]; lra|lra]].
  - cbn [List.length fold_left qsum fold_right] in Hlen |- *.
    rewrite cnt_S in Hlen |- *.
    pose proof (cnt_nonneg (List.length l)) as Hn.
    inversion Hl as [|p' l' [Hp0 Hp] Hl' ]; subst.
    assert (HA0 : 0 <= A) by (destruct HA; lra).
    assert (Hp00 : 0 <= p) by (destruct Hp0; lra).
    assert (HcA : 0 <= c * A) by (apply Qmult_le_0_compat; assumption).
    assert (Hcp : 0 <= c * p) by (apply Qmult_le_0_compat; assumption).
    assert (HcA' : c * A <= 64 * A) by (apply Qmult_le_compat_r; lra).
    assert (Hcp' : c * p <= 64 * p) by (apply Qmult_le_compat_r; lra).
    assert (Hstep :
      (1 - (c + 1) * u) * (A + p) <= fadd rnd a p
        <= (1 + 2 * (c + 1) * u) * (A + p)).
    { unfold fadd.
      destruct (Qlt_le_dec 0 (A + p)) as [Hpos|Hzero].
      - assert (HAp : 1 # 1125899906842624 <= A + p) by (destruct HA, Hp0; lra).
        assert (Hin : lo <= a + p <= hi) by (unfold lo, hi, u in *; split; lra).
        pose proof (rnd_near _ Hin) as Hr. unfold u in *. split; lra.
      - assert (EA : A == 0) by lra. assert (Ep : p == 0) by lra.
        assert (Ez : a + p == 0) by (unfold u in *; lra).
        pose proof (rnd_zero _ Ez) as Hr. unfold u in *. split; lra. }
    assert (HAp : A + p == 0 \/ 1 # 1125899906842624 <= A + p)
      by (destruct HA, Hp0; [left|right|right|right]; lra).
    destruct (IH (c + 1) (fadd rnd a p) (A + p)) as (Hb & Hz & Hu);
      [lra|lra|exact HAp|lra|exact Hstep|exact Hl'|].
    assert (Ec : c + (cnt (List.length l) + 1) == c + 1 + cnt (List.length l))
      by ring.
    assert (Es : A + (p + qsum l) == A + p + qsum l) by ring.
    rewrite Ec, Es.
    split; [exact Hb|split; [exact Hz|exact Hu]].
Qed.

Lemma norm2_nonneg (vec : list Q) : 0 <= norm2 vec.
Proof.
  induction vec as [|x xs IH]; simpl; [lra|]. nra.
Qed.

Lemma norm2_upper (vec : list Q) :
  Forall value_ok vec -> norm2 vec <= cnt (List.length vec) * 270400.
Proof.
  induction 1 as [|x xs Hx Hxs IH]; cbn [norm2 fold_right List.length].
  - change (cnt 0) with 0. lra.
  - rewrite cnt_S. fold (norm2 xs).
    assert (x * x <= 270400) by (destruct Hx as [E|[? ?]]; nra).
    lra.
Qed.

Lemma norm2_lower (vec : list Q) :
  Exists (fun x => 1 # 512 <= x) vec -> 1 # 262144 <= norm2 vec.
Proof.
  induction 1 as [x xs Hx|x xs Hxs IH]; cbn [norm2 fold_right];
    fold (norm2 xs); pose proof (norm2_nonneg xs).
  - assert (1 # 262144 <= x * x) by nra. lra.
  - nra.
Qed.

(** The rounded squares, summed exactly, against the exact squares. *)
Lemma squares_near (vec : list Q) :
  Forall value_ok vec ->
  ((1 - u) * norm2 vec <= qsum (map (fun x => fmul rnd x x) vec)
     <= (1 + u) * norm2 vec)
  /\ Forall term_ok (map (fun x => fmul rnd x x) vec).
Proof.
  induction 1 as [|x xs Hx Hxs [IH1 IH2]];
    cbn [norm2 fold_right map qsum].
  - split; [unfold u; split; lra|constructor].
  - fold (norm2 xs). fold (qsum (map (fun x => fmul rnd x x) xs)).
    destruct (fmul_square x Hx) as [Hb Ht].
    split; [|constructor; assumption]. unfold u in *. split; lra.
Qed.

(** The sum from the left is as accurate as [sum_near] asks. *)
Lemma sum_left_near (l : list Q) :
  (List.length l <= 64)%nat -> Forall term_ok l ->
  (1 - 64 * u) * qsum l <= sum_left rnd l <= (1 + 128 * u) * qsum l.
Proof.
  intros Hlen Hl. unfold sum_left.
  pose proof (cnt_le _ _ Hlen) as Hc. change (cnt 64) with 64 in Hc.
  pose proof (cnt_nonneg (List.length l)) as Hc0.
  destruct (fold_fadd_near l 0 0 0) as (Hb & Hz & _).
  - lra.
  - lra.
  - left. reflexivity.
  - lra.
  - split; lra.
  - exact Hl.
  - set (c := cnt (List.length l)) in *. set (S := qsum l) in *.
    assert (HS : 0 <= S) by (destruct Hz as [E|H]; lra).
    assert (HcS : 0 <= c * S) by (apply Qmult_le_0_compat; lra).
    assert (HcS' : c * S <= 64 * S) by (apply Qmult_le_compat_r; lra).
    unfold u in *. split; lra.
Qed.

(** The computed sum of squares of a vector. *)
Lemma sum_sq_near (vec : list Q) :
  List.length vec = 64%nat -> Forall value_ok vec ->
  (1 - 64 * u) * (1 - u) * norm2 vec <= sum_sq rnd fsum vec
    <= (1 + 128 * u) * (1 + u) * norm2 vec.
Proof.
  intros Hlen Hvec. unfold sum_sq.
  destruct (squares_near vec Hvec) as [Hsq Hterms].
  set (P := map (fun x => fmul rnd x x) vec) in *.
  assert (HP : (List.length P <= 64)%nat)
    by (unfold P; rewrite length_map, Hlen; lia).
  pose proof (sum_near P HP Hterms) as Hb.
  pose proof (norm2_nonneg vec). unfold u in *. split; lra.
Qed.

(** One quotient [x / norm], against the exact quotient. *)
Lemma fdiv_entry (x n : Q) :
  entry_ok 520 x -> 1 # 1024 <= n <= 8192 ->
  (fdiv rnd x n == 0 \/ 1 # 16777216 <= fdiv rnd x n)
  /\ (1 - u) * (1 - u) * (x * x) <= fdiv rnd x n * fdiv rnd x n * (n * n)
  /\ fdiv rnd x n * fdiv rnd x n * (n * n) <= (1 + u) * (1 + u) * (x * x).
Proof.
  intros Hx Hn. unfold fdiv.
  assert (Hn0 : ~ n == 0) by lra.
  assert (Hq : x / n * n == x) by (field; exact Hn0).
  destruct Hx as [E|[H1 H2]].
  - assert (Ez : x / n == 0) by (rewrite E; field; exact Hn0).
    pose proof (rnd_zero _ Ez) as Hr.
    assert (E1 : rnd (x / n) * rnd (x / n) * (n * n) == 0)
      by (rewrite Hr; ring).
    assert (E2 : x * x == 0) by (rewrite E; ring).
    unfold u. split; [left; exact Hr|split; lra].
  - assert (Hlo : 1 # 4194304 <= x / n) by (apply Qle_shift_div_l; lra).
    assert (Hhi : x / n <= 532480) by (apply Qle_shift_div_r; lra).
    assert (Hin : lo <= x / n <= hi) by (unfold lo, hi; split; lra).
    pose proof (rnd_near _ Hin) as [Hr1 Hr2].
    set (y := rnd (x / n)) in *. set (q := x / n) in *.
    assert (Ht1 : (1 - u) * q * n <= y * n)
      by (apply Qmult_le_compat_r; [exact Hr1|lra]).
    assert (Ht2 : y * n <= (1 + u) * q * n)
      by (apply Qmult_le_compat_r; [exact Hr2|lra]).
    assert (Hqn1 : (1 - u) * q * n == (1 - u) * x) by (rewrite <- Hq; ring).
    assert (Hqn2 : (1 + u) * q * n == (1 + u) * x) by (rewrite <- Hq; ring).
    rewrite Hqn1 in Ht1. rewrite Hqn2 in Ht2.
    assert (Ey : y * y * (n * n) == (y * n) * (y * n)) by ring.
    rewrite Ey. set (t := y * n) in *.
    assert (Ex1 : (1 - u) * (1 - u) * (x * x) == ((1 - u) * x) * ((1 - u) * x))
      by ring.
    assert (Ex2 : (1 + u) * (1 + u) * (x * x) == ((1 + u) * x) * ((1 + u) * x))
      by ring.
    rewrite Ex1, Ex2.
    assert (Hl : 0 <= (1 - u) * x) by (unfold u; lra).
    assert (Hy : 1 # 16777216 <= y) by (unfold u in *; lra).
    split; [right; exact Hy|split];
      apply Qmult_le_compat_nonneg; unfold u in *; split; lra.
Qed.

Lemma normalised_near (vec : list Q) (n : Q) :
  Forall (entry_ok 520) vec -> 1 # 1024 <= n <= 8192 ->
  Forall (fun y => y == 0 \/ 1 # 16777216 <= y)
    (map (fun x => fdiv rnd x n) vec)
  /\ (1 - u) * (1 - u) * norm2 vec
       <= norm2 (map (fun x => fdiv rnd x n) vec) * (n * n)
  /\ norm2 (map (fun x => fdiv rnd x n) vec) * (n * n)
       <= (1 + u) * (1 + u) * norm2 vec.
Proof.
  intros Hvec Hn.
  induction Hvec as [|x xs Hx Hxs (IH0 & IH1 & IH2)];
    cbn [map norm2 fold_right].
  - split; [constructor|]. unfold u. split; lra.
  - fold (norm2 xs). fold (norm2 (map (fun x => fdiv rnd x n) xs)).
    destruct (fdiv_entry x n Hx Hn) as (H0 & H1 & H2).
    split; [constructor; assumption|].
    set (y := fdiv rnd x n) in *.
    set (N := norm2 (map (fun x => fdiv rnd x n) xs)) in *.
    assert (E : (y * y + N) * (n * n) == y * y * (n * n) + N * (n * n)) by ring.
    rewrite E. unfold u in *. split; lra.
Qed.

(** The relative error bounds of the computed norm, squared. *)
Definition norm_low : Q := (1 - 2 * u) * (1 - 2 * u) * ((1 - 64 * u) * (1 - u)).
Definition norm_high : Q :=
  (1 + 2 * u) * (1 + 2 * u) * ((1 + 128 * u) * (1 + u)).

Lemma norm_near (vec : list Q) :
  List.length vec = 64%nat -> Forall (entry_ok 520) vec ->
  Exists (fun x => 1 # 512 <= x) vec ->
  1 # 1024 <= pow_half (sum_sq rnd fsum vec) <= 8192
  /\ norm_low * norm2 vec
       <= pow_half (sum_sq rnd fsum vec) * pow_half (sum_sq rnd fsum vec)
  /\ pow_half (sum_sq rnd fsum vec) * pow_half (sum_sq rnd fsum vec)
       <= norm_high * norm2 vec.
Proof.
  intros Hlen Hvec Hex.
  assert (Hval : Forall value_ok vec)
    by (eapply Forall_impl; [exact Hvec|exact entry_value_ok]).
  pose proof (sum_sq_near vec Hlen Hval) as [Hs1 Hs2].
  pose proof (norm2_lower vec Hex) as HS1.
  pose proof (norm2_upper vec Hval) as HS2.
  rewrite Hlen in HS2. change (cnt 64) with 64 in HS2.
  set (S := norm2 vec) in *. set (s := sum_sq rnd fsum vec) in *.
  assert (Hin : lo <= s <= hi) by (unfold lo, hi, u in *; split; lra).
  destruct (pow_near s Hin) as (Hpos & Hp1 & Hp2).
  set (n := pow_half s) in *.
  assert (Hsq1 : 1 # 1048576 < n * n) by (unfold u in *; lra).
  assert (Hsq2 : n * n < 67108864) by (unfold u in *; lra).
  split; [split|split].
  - destruct (Qlt_le_dec n (1 # 1024)) as [Hlt|Hge]; [|exact Hge].
    assert (n * n <= (1 # 1024) * (1 # 1024))
      by (apply Qmult_le_compat_nonneg; split; lra).
    lra.
  - destruct (Qlt_le_dec 8192 n) as [Hlt|Hge]; [|exact Hge].
    assert (8192 * 8192 <= n * n)
      by (apply Qmult_le_compat_nonneg; split; lra).
    lra.
  - unfold norm_low, u in *. lra.
  - unfold norm_high, u in *. lra.
Qed.

(** The error allowed on the squared norm of the result: [2^-45]. *)
Definition eps : Q := 1 # 35184372088832.

Lemma unit_up_to_rounding (vec : list Q) :
  List.length vec = 64%nat -> Forall (entry_ok 520) vec ->
  Exists (fun x => 1 # 512 <= x) vec ->
  let norm := pow_half (sum_sq rnd fsum vec) in
  0 < norm
  /\ Forall (fun y => y == 0 \/ 1 # 16777216 <= y)
       (map (fun x => fdiv rnd x norm) vec)
  /\ 1 - eps <= norm2 (map (fun x => fdiv rnd x norm) vec) <= 1 + eps.
Proof.
  intros Hlen Hvec Hex norm.
  destruct (norm_near vec Hlen Hvec Hex) as (Hn & Hn1 & Hn2).
  fold norm in Hn, Hn1, Hn2.
  destruct (normalised_near vec norm Hvec Hn) as (H0 & H1 & H2).
  pose proof (norm2_lower vec Hex) as HS.
  set (S := norm2 vec) in *.
  set (N := norm2 (map (fun x => fdiv rnd x norm) vec)) in *.
  assert (HN : 0 <= N) by apply norm2_nonneg.
  split; [lra|split; [exact H0|]].
  assert (Hup : N * (norm_low * S) <= N * (norm * norm))
    by (apply Qmult_le_compat_nonneg; split; try lra;
        unfold norm_low, u; lra).
  assert (Hdn : N * (norm * norm) <= N * (norm_high * S))
    by (apply Qmult_le_compat_nonneg; split; try lra;
        apply Qmult_le_0_compat; lra).
  assert (Hup' : N * norm_low * S <= (1 + u) * (1 + u) * S)
    by (rewrite <- Qmult_assoc; lra).
  assert (Hdn' : (1 - u) * (1 - u) * S <= N * norm_high * S)
    by (rewrite <- Qmult_assoc; lra).
  apply Qmult_le_r in Hup'; [|lra].
  apply Qmult_le_r in Hdn'; [|lra].
  unfold norm_low, norm_high, eps, u in *. split; lra.
Qed.

(** ** Accuracy of the accumulated weights *)

Lemma exact_weight_range (i : nat) :
  (i < 64)%nat -> 1 # 64 <= exact_weight i <= 1.
Proof.
  intros Hi. unfold exact_weight.
  set (k := inject_Z (Z.of_nat i + 1)).
  assert (Hk : 1 <= k <= 64).
  { unfold k. split.
    - change 1 with (inject_Z 1). rewrite <- Zle_Qle. lia.
    - change 64 with (inject_Z 64). rewrite <- Zle_Qle. lia. }
  split.
  - apply Qle_shift_div_l; lra.
  - apply Qle_shift_div_r; lra.
Qed.

Lemma weight_near (i : nat) :
  (i < 64)%nat ->
  (1 - 2 * u) * exact_weight i <= weight rnd i <= (1 + 4 * u) * exact_weight i.
Proof.
  intros Hi. pose proof (exact_weight_range i Hi) as He.
  unfold weight, fdiv, of_int, exact_weight in *.
  set (k := inject_Z (Z.of_nat i + 1)) in *.
  assert (Hk : 1 <= k <= 64).
  { unfold k. split.
    - change 1 with (inject_Z 1). rewrite <- Zle_Qle. lia.
    - change 64 with (inject_Z 64). rewrite <- Zle_Qle. lia. }
  assert (Hek : 1 / k * k == 1) by (field; lra).
  set (e := 1 / k) in *.
  assert (Hr : (1 - u) * k <= rnd k <= (1 + u) * k).
  { apply rnd_near. unfold lo, hi. split; lra. }
  set (r := rnd k) in *.
  assert (Hr0 : 1 # 2 <= r <= 128) by (unfold u in *; split; lra).
  assert (Ht1 : e * ((1 - u) * k) <= e * r)
    by (apply Qmult_le_compat_nonneg; split; unfold u in *; lra).
  assert (Ht2 : e * r <= e * ((1 + u) * k))
    by (apply Qmult_le_compat_nonneg; split; unfold u in *; lra).
  assert (E1 : e * ((1 - u) * k) == 1 - u)
    by (transitivity ((1 - u) * (e * k)); [ring|rewrite Hek; ring]).
  assert (E2 : e * ((1 + u) * k) == 1 + u)
    by (transitivity ((1 + u) * (e * k)); [ring|rewrite Hek; ring]).
  rewrite E1 in Ht1. rewrite E2 in Ht2.
  assert (Hi1 : (1 - u) * e <= 1 / r).
  { apply Qle_shift_div_l; [lra|].
    assert (E : (1 - u) * e * r == (1 - u) * (e * r)) by ring.
    rewrite E. unfold u in *. nra. }
  assert (Hi2 : 1 / r <= (1 + 2 * u) * e).
  { apply Qle_shift_div_r; [lra|].
    assert (E : (1 + 2 * u) * e * r == (1 + 2 * u) * (e * r)) by ring.
    rewrite E. unfold u in *. nra. }
  assert (Hin : lo <= 1 / r <= hi) by (unfold lo, hi, u in *; split; lra).
  pose proof (rnd_near _ Hin) as Hq.
  unfold u in *. split; lra.
Qed.

Lemma add_at_nth (j idx : nat) (w : Q) (vec : list Q) :
  (j < List.length vec)%nat ->
  List.nth j (add_at rnd idx w vec) 0
  = if (idx =? j)%nat then fadd rnd (List.nth j vec 0) w else List.nth j vec 0.
Proof.
  revert j idx. induction vec as [|x xs IH]; intros j idx Hj; simpl in Hj.
  - lia.
  - destruct idx as [|idx], j as [|j]; simpl; try reflexivity.
    apply IH. lia.
Qed.

(** After [c] words, entry [j] is within [1 - (2 + c) u] and
    [1 + (4 + 2 c) u] of the exact sum of the weights it received. *)
Lemma accumulate_nth_near (j : nat) (words : list string) :
  forall (i : nat) (c : Q) (vec : list Q) (W : Q),
    (i + List.length words <= 64)%nat ->
    0 <= c -> c + cnt (List.length words) <= 64 ->
    (j < List.length vec)%nat ->
    0 <= W <= c ->
    (1 - (2 + c) * u) * W <= List.nth j vec 0 <= (1 + (4 + 2 * c) * u) * W ->
    (1 - (2 + (c + cnt (List.length words))) * u) * (W + weight_at j i words)
      <= List.nth j (accumulate rnd i words vec) 0
      <= (1 + (4 + 2 * (c + cnt (List.length words))) * u)
         * (W + weight_at j i words).
Proof.
  induction words as [|w ws IH]; intros i c vec W Hi Hc Hlen Hj HW Hx;
    cbn [List.length accumulate weight_at] in Hi, Hlen |- *.
  - change (cnt 0) with 0.
    assert (Ec : c + 0 == c) by ring.
    assert (EW : W + 0 == W) by ring.
    rewrite Ec, EW. exact Hx.
  - rewrite cnt_S in Hlen |- *.
    pose proof (cnt_nonneg (List.length ws)) as Hn.
    assert (Hi' : (i < 64)%nat) by lia.
    pose proof (exact_weight_range i Hi') as He.
    pose proof (weight_near i Hi') as Hw.
    pose proof (weight_range i Hi') as Hwr.
    set (e := if (bucket w =? j)%nat then exact_weight i else 0).
    assert (Ec : c + (cnt (List.length ws) + 1) == c + 1 + cnt (List.length ws))
      by ring.
    assert (EW : W + (e + weight_at j (S i) ws) == W + e + weight_at j (S i) ws)
      by ring.
    rewrite Ec, EW.
    assert (HcW : 0 <= c * W) by (apply Qmult_le_0_compat; lra).
    assert (HcW' : c * W <= 64 * W) by (apply Qmult_le_compat_r; lra).
    apply IH.
    + lia.
    + lra.
    + lra.
    + rewrite add_at_keeps_length. exact Hj.
    + unfold e. destruct (bucket w =? j)%nat; lra.
    + rewrite add_at_nth by exact Hj. unfold e.
      destruct (bucket w =? j)%nat.
      * set (x := List.nth j vec 0) in *. set (ew := exact_weight i) in *.
        set (wi := weight rnd i) in *.
        assert (Hce : 0 <= c * ew) by (apply Qmult_le_0_compat; lra).
        unfold fadd.
        assert (Hin : lo <= x + wi <= hi)
          by (unfold lo, hi, u in *; split; lra).
        pose proof (rnd_near _ Hin) as Hr. unfold u in *. split; lra.
      * unfold u in *. split; lra.
Qed.

(** ** The embedding *)

Lemma take_length_le (words : list string) :
  (List.length (take 64 words) <= 64)%nat.
Proof. rewrite length_take. lia. Qed.

Lemma zero_entries (n : nat) : Forall (entry_ok 0) (repeat 0 n).
Proof.
  induction n as [|n IH]; simpl; constructor; [left; reflexivity|exact IH].
Qed.

Lemma raw_length (words : list string) :
  List.length (accumulate rnd 0 (take 64 words) (repeat 0 64)) = 64%nat.
Proof. rewrite accumulate_keeps_length. apply repeat_length. Qed.

Lemma raw_entries (words : list string) :
  Forall (entry_ok 520) (accumulate rnd 0 (take 64 words) (repeat 0 64)).
Proof.
  pose proof (take_length_le words) as Hl.
  pose proof (cnt_le _ _ Hl) as Hc. change (cnt 64) with 64 in Hc.
  apply accumulate_entries with (B := 0).
  - simpl. exact Hl.
  - lra.
  - fold (cnt (List.length (take 64 words))). lra.
  - apply zero_entries.
Qed.

Lemma raw_positive (words : list string) :
  words <> [] ->
  Exists (fun x => 1 # 512 <= x)
    (accumulate rnd 0 (take 64 words) (repeat 0 64)).
Proof.
  intros Hne.
  pose proof (take_length_le words) as Hl.
  pose proof (cnt_le _ _ Hl) as Hc. change (cnt 64) with 64 in Hc.
  apply accumulate_positive with (B := 0).
  - simpl. exact Hl.
  - lra.
  - fold (cnt (List.length (take 64 words))). lra.
  - apply zero_entries.
  - left. split; [|apply repeat_length].
    destruct words; [congruence|discriminate].
Qed.

Lemma norm2_zero (n : nat) : norm2 (repeat 0 n) == 0.
Proof.
  induction n as [|n IH]; cbn [repeat norm2 fold_right]; [reflexivity|].
  fold (norm2 (repeat 0 n)). rewrite IH. reflexivity.
Qed.

Lemma Qlt_bool_false (a b : Q) : b <= a -> Qlt_bool a b = false.
Proof.
  intros H. destruct (Qlt_bool a b) eqn:E; [|reflexivity].
  apply Qlt_bool_iff in E. lra.
Qed.

Lemma embed_text_tokens (text : string) :
  PyStr.split (PyStr.lower text) <> [] ->
  embed_text rnd pow_half fsum text
  = map (fun x =>
           fdiv rnd x
             (pow_half
                (sum_sq rnd fsum
                   (accumulate rnd 0
                      (take 64 (PyStr.split (PyStr.lower text)))
                      (repeat 0 64)))))
      (accumulate rnd 0 (take 64 (PyStr.split (PyStr.lower text)))
         (repeat 0 64)).
Proof.
  intros Hne. unfold embed_text.
  destruct (unit_up_to_rounding _ (raw_length _) (raw_entries _)
              (raw_positive _ Hne)) as (Hpos & _).
  apply Qlt_bool_iff in Hpos. rewrite Hpos. reflexivity.
Qed.

Lemma embed_text_no_tokens (text : string) :
  PyStr.split (PyStr.lower text) = [] ->
  embed_text rnd pow_half fsum text = repeat 0 64.
Proof.
  intros Hnone. unfold embed_text. rewrite Hnone.
  change (accumulate rnd 0 (take 64 []) (repeat 0 64)) with (repeat 0 64).
  rewrite Qlt_bool_false; [reflexivity|].
  assert (Hval : Forall value_ok (repeat 0 64)).
  { eapply Forall_impl; [apply (zero_entries 64)|].
    intros x [E|[H1 H2]]; [left; exact E|lra]. }
  pose proof (sum_sq_near (repeat 0 64) (repeat_length _ _) Hval) as [H1 H2].
  pose proof (norm2_zero 64) as Hz.
  assert (Es : sum_sq rnd fsum (repeat 0 64) == 0) by (unfold u in *; lra).
  pose proof (pow_zero _ Es). lra.
Qed.

Lemma exact_weight_nonneg (i : nat) : 0 <= exact_weight i.
Proof.
  unfold exact_weight. apply Qle_shift_div_l; [|lra].
  change 0 with (inject_Z 0). rewrite <- Zlt_Qlt. lia.
Qed.

Lemma weight_at_nonneg (j : nat) (words : list string) :
  forall i, 0 <= weight_at j i words.
Proof.
  induction words as [|w ws IH]; intros i; cbn [weight_at]; [lra|].
  pose proof (IH (S i)). pose proof (exact_weight_nonneg i).
  destruct (bucket w =? j)%nat; lra.
Qed.

Lemma raw_weights (words : list string) (j : nat) :
  (j < 64)%nat ->
  (1 - 66 * u) * weight_at j 0 (take 64 words)
    <= List.nth j (accumulate rnd 0 (take 64 words) (repeat 0 64)) 0
    <= (1 + 132 * u) * weight_at j 0 (take 64 words).
Proof.
  intros Hj.
  pose proof (take_length_le words) as Hl.
  pose proof (cnt_le _ _ Hl) as Hc. change (cnt 64) with 64 in Hc.
  pose proof (cnt_nonneg (List.length (take 64 words))) as Hc0.
  pose proof (weight_at_nonneg j (take 64 words) 0) as HW.
  pose proof (accumulate_nth_near j (take 64 words) 0 0 (repeat 0 64) 0) as H.
  rewrite nth_repeat in H.
  destruct H as [H1 H2].
  - simpl. exact Hl.
  - lra.
  - lra.
  - rewrite repeat_length. exact Hj.
  - split; lra.
  - split; lra.
  - set (c := cnt (List.length (take 64 words))) in *.
    set (W := weight_at j 0 (take 64 words)) in *.
    set (x := List.nth j (accumulate rnd 0 (take 64 words) (repeat 0 64)) 0) in *.
    assert (HcW : 0 <= c * W) by (apply Qmult_le_0_compat; lra).
    assert (HcW' : c * W <= 64 * W) by (apply Qmult_le_compat_r; lra).
    unfold u in *. split; lra.
Qed.

(** C8 (amended).  Under round-to-nearest arithmetic, [embed_text] returns
    64 components.
    - [weight_at j i words] is the exact sum of [1/(position+1)] over the
      words hashed to [j] by [deterministic_hash(word) % 64], the first word
      having position [i]; entry [j] of the accumulated vector is this sum
      for the first 64 lower-cased tokens, within a relative error of
      [132 u].
    - When the text has a token, the computed norm is positive, the result
      is the accumulated vector divided by it, its components are not
      negative and the sum of their squares is within [2^-45] of 1.
    - When the text has no token (it is empty or all white space) the result
      is the zero vector, of norm 0.
    - The result depends on the text only through its first 64 lower-cased
      tokens. *)
Theorem embed_text_spec (text : string) :
  let words := take 64 (PyStr.split (PyStr.lower text)) in
  let raw := accumulate rnd 0 words (repeat 0 64) in
  let v := embed_text rnd pow_half fsum text in
  List.length v = 64%nat
  /\ ((forall j i, weight_at j i [] = 0)
      /\ (forall j i word rest,
            weight_at j i (word :: rest)
            = (if (Z.to_nat (deterministic_hash word mod 64) =? j)%nat
               then 1 / inject_Z (Z.of_nat i + 1) else 0)
              + weight_at j (S i) rest)
      /\ forall j, (j < 64)%nat ->
            (1 - 66 * (1 # 9007199254740992)) * weight_at j 0 words
              <= List.nth j raw 0
              <= (1 + 132 * (1 # 9007199254740992)) * weight_at j 0 words)
  /\ (PyStr.split (PyStr.lower text) <> [] ->
        0 < pow_half (sum_sq rnd fsum raw)
        /\ v = map (fun x => fdiv rnd x (pow_half (sum_sq rnd fsum raw))) raw
        /\ Forall (fun y => 0 <= y) v
        /\ 1 - (1 # 35184372088832)
             <= fold_right (fun x acc => x * x + acc) 0 v
             <= 1 + (1 # 35184372088832))
  /\ (PyStr.split (PyStr.lower text) = [] ->
        v = repeat 0 64 /\ fold_right (fun x acc => x * x + acc) 0 v == 0)
  /\ (PyStr.split (PyStr.lower text) = [] <-> PyStr.all_space text = true)
  /\ (forall text',
        take 64 (PyStr.split (PyStr.lower text')) = words ->
        embed_text rnd pow_half fsum text' = v).
Proof.
  intros words raw v.
  split; [|split; [|split; [|split; [|split]]]].
  - unfold v, embed_text.
    destruct (Qlt_bool 0 _); rewrite ?length_map; apply raw_length.
  - split; [reflexivity|]. split; [reflexivity|].
    intros j Hj. apply raw_weights. exact Hj.
  - intros Hne.
    destruct (unit_up_to_rounding _ (raw_length _) (raw_entries _)
                (raw_positive _ Hne)) as (Hpos & Hnn & Hunit).
    unfold v. rewrite (embed_text_tokens text Hne).
    split; [exact Hpos|]. split; [reflexivity|].
    split; [|exact Hunit].
    eapply Forall_impl; [exact Hnn|]. intros y [E|H]; lra.
  - intros Hnone. unfold v. rewrite (embed_text_no_tokens text Hnone).
    split; [reflexivity|apply norm2_zero].
  - apply PlatformUtils.no_tokens_iff.
  - intros text' Heq. unfold v, embed_text. fold words. rewrite Heq.
    reflexivity.
Qed.

(** ** The similarity of an embedding with itself *)

Lemma norm2_entries (vec : list Q) (B : Q) :
  norm2 vec <= B -> Forall (fun y => y * y <= B) vec.
Proof.
  revert B. induction vec as [|x xs IH]; intros B HB; [constructor|].
  cbn [norm2 fold_right] in HB. fold (norm2 xs) in HB.
  pose proof (norm2_nonneg xs) as Hxs.
  assert (Hx : 0 <= x * x) by nra.
  constructor; [lra|]. apply IH. lra.
Qed.

Lemma normalised_values (vec : list Q) :
  Forall (fun y => y == 0 \/ 1 # 16777216 <= y) vec ->
  norm2 vec <= 1 + eps ->
  Forall value_ok vec.
Proof.
  intros Hlow Hnorm. pose proof (norm2_entries vec _ Hnorm) as Hsq.
  induction Hlow as [|y ys Hy Hys IH]; [constructor|].
  inversion Hsq as [|y' ys' Hy2 Hys2]; subst.
  constructor; [|apply IH; [|exact Hys2]].
  - destruct Hy as [E|Hy]; [left; exact E|right]. split; [exact Hy|].
    destruct (Qlt_le_dec 520 y) as [Hlt|Hle]; [|exact Hle].
    assert (520 * 520 <= y * y)
      by (apply Qmult_le_compat_nonneg; split; lra).
    unfold eps in Hy2. lra.
  - cbn [norm2 fold_right] in Hnorm. fold (norm2 ys) in Hnorm.
    assert (0 <= y * y) by nra. lra.
Qed.

Lemma dot_self (vec : list Q) : dot rnd fsum vec vec = sum_sq rnd fsum vec.
Proof.
  unfold dot, sum_sq. f_equal.
  induction vec as [|x xs IH]; simpl; [reflexivity|]. rewrite IH. reflexivity.
Qed.

Lemma zero_products (n : nat) (v : list Q) :
  Forall (fun p => p == 0)
    (map (fun p => fmul rnd (fst p) (snd p)) (combine (repeat 0 n) v)).
Proof.
  revert v. induction n as [|n IH]; intros v; simpl; [constructor|].
  destruct v as [|y v]; simpl; constructor; [|apply IH].
  unfold fmul. apply rnd_zero. ring.
Qed.

Lemma qsum_zero (l : list Q) : Forall (fun p => p == 0) l -> qsum l == 0.
Proof.
  induction 1 as [|p l Hp Hl IH]; simpl; [reflexivity|].
  rewrite Hp, IH. reflexivity.
Qed.

Lemma dot_zero_vector (v : list Q) : dot rnd fsum (repeat 0 64) v == 0.
Proof.
  unfold dot. pose proof (zero_products 64 v) as Hzero.
  set (P := map (fun p => fmul rnd (fst p) (snd p)) (combine (repeat 0 64) v))
    in *.
  assert (Hlen : (List.length P <= 64)%nat).
  { unfold P. rewrite length_map, length_combine, repeat_length. lia. }
  assert (Hterms : Forall term_ok P).
  { eapply Forall_impl; [exact Hzero|]. intros p E. cbv beta in E.
    split; [left; exact E|lra]. }
  pose proof (qsum_zero P Hzero) as Hq.
  pose proof (sum_near P Hlen Hterms) as Hb. unfold u in *. lra.
Qed.

(** What the similarity of an embedding with itself may lack to 1:
    [2^-44]. *)
Definition self_eps : Q := 1 # 17592186044416.

(** X28.  Under round-to-nearest arithmetic, the cosine similarity of the
    embedding of a text with itself is at most 1 and at least [1 - 2^-44]
    when the text has a token; the embedding of a text without tokens has
    similarity 0 with every vector. *)
Theorem embedding_self_similarity (text : string) :
  let e := embed_text rnd pow_half fsum text in
  (PyStr.split (PyStr.lower text) <> [] ->
   1 - (1 # 17592186044416) <= cosine_similarity rnd fsum e e <= 1)
  /\ (PyStr.split (PyStr.lower text) = [] ->
      forall v, cosine_similarity rnd fsum e v == 0).
Proof.
  intros e. split.
  - intros Hne.
    destruct (unit_up_to_rounding _ (raw_length _) (raw_entries _)
                (raw_positive _ Hne)) as (_ & Hlow & Hunit).
    unfold e. rewrite (embed_text_tokens text Hne).
    set (v := map _ _) in *.
    assert (Hlen : List.length v = 64%nat)
      by (unfold v; rewrite length_map; apply raw_length).
    pose proof (normalised_values v Hlow (proj2 Hunit)) as Hval.
    pose proof (sum_sq_near v Hlen Hval) as [Hs1 Hs2].
    unfold cosine_similarity. rewrite Nat.eqb_refl, dot_self.
    set (s := sum_sq rnd fsum v) in *. set (N := norm2 v) in *.
    assert (Hs : 1 - self_eps <= s) by (unfold self_eps, eps, u in *; lra).
    split.
    + apply Q.max_le_iff. right. apply Q.min_glb; [unfold self_eps; lra|exact Hs].
    + apply Q.max_lub; [lra|apply Q.le_min_l].
  - intros Hnone v. unfold e. rewrite (embed_text_no_tokens text Hnone).
    unfold cosine_similarity. destruct (_ =? _)%nat; [|reflexivity].
    pose proof (dot_zero_vector v) as Hd.
    rewrite Hd. reflexivity.
Qed.

End Accuracy.

(** ** The binary64 instance *)

Lemma normal_range_lo : 2 ^ (-1021) <= lo.
Proof. apply Qle_bool_iff. vm_compute. reflexivity. Qed.

Lemma round_in_range (x : Q) :
  lo <= x <= hi -> (1 - u) * x <= round x <= (1 + u) * x.
Proof.
  intros [H _]. apply round_near.
  eapply Qle_trans; [apply normal_range_lo|exact H].
Qed.

Lemma sqrt64_in_range (s : Q) :
  lo <= s <= hi ->
  0 < sqrt64 s
  /\ (1 - 2 * u) * (1 - 2 * u) * s <= sqrt64 s * sqrt64 s
  /\ sqrt64 s * sqrt64 s <= (1 + 2 * u) * (1 + 2 * u) * s.
Proof.
  intros [H _]. apply sqrt64_near. unfold lo in H. lra.
Qed.

Lemma sum_left_round (l : list Q) :
  (List.length l <= 64)%nat -> Forall term_ok l ->
  (1 - 64 * u) * qsum l <= sum_left round l <= (1 + 128 * u) * qsum l.
Proof. apply sum_left_near; [exact round_zero|exact round_in_range]. Qed.

(** The two summations on 0.1, 0.2, 0.3 and on 1, 1e100, 1, -1e100. *)
Example sum_examples :
  let tenth := round (1 # 10) in
  let big := round (10 ^ 100) in
  sum_left round [tenth; round (2 # 10); round (3 # 10)]
  == round (6000000000000001 # 10000000000000000)
  /\ sum_compensated round [tenth; round (2 # 10); round (3 # 10)]
     == round (6 # 10)
  /\ sum_left round [1; big; 1; - big] == 0
  /\ sum_compensated round [1; big; 1; - big] == 2.
Proof. vm_compute. repeat split. Qed.

(** C8, the claim as it was written: the result for a text with tokens has
    norm 1.  For "axe orc with hp" the words go to entries 37, 28, 41 and 37
    again; the sum of the squares of the accumulated vector is
    1.9236111111111112 with either summation, and the three entries of the
    result are 0.3605050608756658, 0.9012626521891645 and
    0.24033670725044384.  The sum of their squares is 0.9999999999999998 when
    added from the left and 0.9999999999999999 when compensated; exactly, it
    is below 1 as well. *)
Lemma embed_text_counterexample :
  let v := embed_text round sqrt64 (sum_left round) "axe orc with hp" in
  PyStr.split (PyStr.lower "axe orc with hp")
  = ["axe"; "orc"; "with"; "hp"]%string
  /\ map bucket ["axe"; "orc"; "with"; "hp"]%string = [37; 28; 41; 37]%nat
  /\ sum_sq round (sum_left round)
       (accumulate round 0 ["axe"; "orc"; "with"; "hp"]%string (repeat 0 64))
     == round (19236111111111112 # 10000000000000000)
  /\ sqrt64 (round (19236111111111112 # 10000000000000000))
     == round (13869430814244366 # 10000000000000000)
  /\ embed_text round sqrt64 (sum_compensated round) "axe orc with hp" = v
  /\ List.nth 28 v 0 == round (3605050608756658 # 10000000000000000)
  /\ List.nth 37 v 0 == round (9012626521891645 # 10000000000000000)
  /\ List.nth 41 v 0 == round (24033670725044384 # 100000000000000000)
  /\ List.length (List.filter (fun x => negb (Qeq_bool x 0)) v) = 3%nat
  /\ sum_sq round (sum_left round) v
     == round (9999999999999998 # 10000000000000000)
  /\ sum_sq round (sum_compensated round) v
     == round (9999999999999999 # 10000000000000000)
  /\ norm2 v < 1.
Proof. vm_compute. repeat split. Qed.

Lemma embed_text_spec_witness :
  let v := embed_text round sqrt64 (sum_left round) "axe orc with hp" in
  List.length v = 64%nat
  /\ Forall (fun y => 0 <= y) v
  /\ 1 - (1 # 35184372088832) <= norm2 v <= 1 + (1 # 35184372088832).
Proof.
  destruct (embed_text_spec round sqrt64 (sum_left round) round_zero
              round_in_range sqrt64_zero sqrt64_in_range sum_left_round
              "axe orc with hp")
    as (Hlen & _ & Htok & _).
  destruct Htok as (_ & _ & Hnn & Hunit); [vm_compute; discriminate|].
  split; [exact Hlen|]. split; [exact Hnn|exact Hunit].
Defined.

(** The similarity of "orc attacks with axe" with itself, as the code
    computes it with either summation: 0.9999999999999999. *)
Example self_similarity_example :
  let e := embed_text round sqrt64 (sum_left round) "orc attacks with axe" in
  map bucket ["orc"; "attacks"; "with"; "axe"]%string = [28; 8; 41; 37]%nat
  /\ embed_text round sqrt64 (sum_compensated round) "orc attacks with axe"
     = e
  /\ cosine_similarity round (sum_left round) e e
     == round (9999999999999999 # 10000000000000000)
  /\ cosine_similarity round (sum_compensated round) e e
     == round (9999999999999999 # 10000000000000000)
  /\ cosine_similarity round (sum_left round) e e < 1
  /\ cosine_similarity round (sum_left round)
       (embed_text round sqrt64 (sum_left round) "   ") e == 0
  /\ cosine_similarity round (sum_left round)
       (embed_text round sqrt64 (sum_left round) "hp")
       (embed_text round sqrt64 (sum_left round) "HP ") == 1.
Proof. vm_compute. repeat split. Qed.

Lemma embedding_self_similarity_witness :
  let e := embed_text round sqrt64 (sum_left round) "orc attacks with axe" in
  1 - (1 # 17592186044416)
    <= cosine_similarity round (sum_left round) e e <= 1.
Proof.
  destruct (embedding_self_similarity round sqrt64 (sum_left round) round_zero
              round_in_range sqrt64_zero sqrt64_in_range sum_left_round
              "orc attacks with axe")
    as [Htok _].
  apply Htok. vm_compute. discriminate.
Defined.

End PlatformUtilsRounded.
